(** * Vultr Quant Trading Server Manager: a shallow embedding

    The program under study is [vultr_manager.py], a single-file Python
    command-line tool that starts and stops one labelled cloud instance,
    snapshotting it before destruction and pruning old backups.

    Every function of the script is a blocking sequence of HTTP calls,
    sleeps, clock reads and log lines that may end with [SystemExit].  It is
    embedded here as a state-and-exception monad over a [World] holding the
    wall clock, the provider's future answers and the trace of everything
    the process did so far. *)

From Stdlib Require Import ZArith String Ascii List Lia Bool Sorted.
From stdpp Require Import base gmap strings list.
From Equations Require Import Equations.

Local Open Scope string_scope.
Local Open Scope list_scope.
Local Open Scope Z_scope.

(** ** Python built-ins used by the script *)

Module Py.

(** [str.upper] on ASCII letters. *)
Definition upper_ascii (c : ascii) : ascii :=
  let n := nat_of_ascii c in
  if ((97 <=? n)%nat && (n <=? 122)%nat)%bool then ascii_of_nat (n - 32) else c.

Fixpoint upper (s : string) : string :=
  match s with
  | EmptyString => EmptyString
  | String c s' => String (upper_ascii c) (upper s')
  end.

(** [s.startswith(p)]. *)
Definition startswith (s p : string) : bool := String.prefix p s.

(** [s.replace(old, "")] for a non-empty [old]: every non-overlapping
    occurrence, scanning from the left, is removed.  [skip] counts the
    characters of the occurrence being dropped. *)
Fixpoint remove_all_aux (old : string) (skip : nat) (s : string) : string :=
  match s with
  | EmptyString => EmptyString
  | String c s' =>
      match skip with
      | S k => remove_all_aux old k s'
      | O =>
          if String.prefix old s
          then remove_all_aux old (String.length old - 1) s'
          else String c (remove_all_aux old O s')
      end
  end.

Definition remove_all (old s : string) : string := remove_all_aux old O s.

(** [range(lo, hi)] as the list it iterates over. *)
Definition range (lo hi : Z) : list Z :=
  map (fun i => lo + Z.of_nat i) (seq 0 (Z.to_nat (hi - lo))).

(** [l[n:]], negative [n] counting from the end as Python does. *)
Definition slice_from {A} (n : Z) (l : list A) : list A :=
  if n <? 0
  then drop (Z.to_nat (Z.of_nat (length l) + n)) l
  else drop (Z.to_nat n) l.

(** [l.sort(key=..., reverse=True)]: a stable sort into descending key
    order.  Python's sort is stable also under [reverse=True], and a
    stable sort is determined by its input, so insertion from the right
    computes the same list as the library's algorithm. *)
Section Sort.
Context {A : Type} (key : A -> string).

Fixpoint insert_desc (x : A) (l : list A) : list A :=
  match l with
  | [] => [x]
  | y :: l' =>
      if String.ltb (key x) (key y) then y :: insert_desc x l' else x :: l
  end.

Definition sort_desc (l : list A) : list A := foldr insert_desc [] l.
End Sort.

End Py.

(** ** Calendar arithmetic behind [datetime] *)

Module Calendar.

Definition is_leap (y : Z) : bool :=
  ((y mod 4 =? 0) && negb (y mod 100 =? 0) || (y mod 400 =? 0))%bool.

Definition days_in_month (y m : Z) : Z :=
  if m =? 2 then (if is_leap y then 29 else 28)
  else if (m =? 4) || (m =? 6) || (m =? 9) || (m =? 11) then 30
  else 31.

(** Days from 1970-01-01 to the civil date [y]-[m]-[d] (proleptic
    Gregorian calendar, as [datetime] uses). *)
Definition days_from_civil (y m d : Z) : Z :=
  let y' := if m <=? 2 then y - 1 else y in
  let era := y' / 400 in
  let yoe := y' - era * 400 in
  let mp := (m + 9) mod 12 in
  let doy := (153 * mp + 2) / 5 + d - 1 in
  let doe := yoe * 365 + yoe / 4 - yoe / 100 + doy in
  era * 146097 + doe - 719468.

(** The inverse direction: the civil date of a day number. *)
Definition civil_from_days (z : Z) : Z * Z * Z :=
  let z' := z + 719468 in
  let era := z' / 146097 in
  let doe := z' - era * 146097 in
  let yoe := (doe - doe / 1460 + doe / 36524 - doe / 146096) / 365 in
  let doy := doe - (365 * yoe + yoe / 4 - yoe / 100) in
  let mp := (5 * doy + 2) / 153 in
  let d := doy - (153 * mp + 2) / 5 + 1 in
  let m := if mp <? 10 then mp + 3 else mp - 9 in
  let y := yoe + era * 400 + (if m <=? 2 then 1 else 0) in
  (y, m, d).

Definition us_per_second : Z := 1000000.
Definition us_per_day : Z := 86400 * us_per_second.

End Calendar.

(** ** [datetime.strptime(s, "%Y%m%d")] and [strftime("%Y%m%d")]

    CPython turns the format into the regular expression
    [(\d\d\d\d)(1[0-2]|0[1-9]|[1-9])(3[0-1]|[1-2]\d|0[1-9]|[1-9]| [1-9])],
    takes the first match at the start of the string (alternatives in
    order, backtracking only when the rest fails to match), rejects the
    input when characters remain, and then builds the date, which fails for
    year 0 and for a day the month does not have.  All failures are
    [ValueError]; the model returns [None] for them.

    In a pattern over [str], [\d] matches every character with the Unicode
    property of a decimal digit (category Nd), and [int] converts each of
    them to its value; the bracketed classes match the ASCII digits they
    list.  A string of the model is the UTF-8 encoding of the Python
    string, so [\d] reads one encoded character. *)

Module Strptime.

Definition byte (c : ascii) : Z := Z.of_nat (nat_of_ascii c).

(** The six payload bits of a continuation byte [10xxxxxx]. *)
Definition continuation (c : ascii) : option Z :=
  let b := byte c in
  if (128 <=? b) && (b <? 192) then Some (b - 128) else None.

(** The first character of a UTF-8 string: its code point and what follows
    it.  Overlong forms, surrogates and values past U+10FFFF encode no
    character. *)
Definition next_char (s : string) : option (Z * string) :=
  match s with
  | EmptyString => None
  | String c0 s1 =>
      let b0 := byte c0 in
      if b0 <? 128 then Some (b0, s1)
      else if b0 <? 194 then None
      else if b0 <? 224 then
        match s1 with
        | String c1 s2 =>
            match continuation c1 with
            | Some x1 => Some ((b0 - 192) * 64 + x1, s2)
            | None => None
            end
        | _ => None
        end
      else if b0 <? 240 then
        match s1 with
        | String c1 (String c2 s3) =>
            match continuation c1, continuation c2 with
            | Some x1, Some x2 =>
                let cp := (b0 - 224) * 4096 + x1 * 64 + x2 in
                if (2048 <=? cp) && negb ((55296 <=? cp) && (cp <? 57344))
                then Some (cp, s3) else None
            | _, _ => None
            end
        | _ => None
        end
      else if b0 <? 245 then
        match s1 with
        | String c1 (String c2 (String c3 s4)) =>
            match continuation c1, continuation c2, continuation c3 with
            | Some x1, Some x2, Some x3 =>
                let cp := (b0 - 240) * 262144 + x1 * 4096 + x2 * 64 + x3 in
                if (65536 <=? cp) && (cp <? 1114112) then Some (cp, s4) else None
            | _, _, _ => None
            end
        | _ => None
        end
      else None
  end.

(** The decimal digits of Unicode 14.0, the character database of
    CPython 3.11: sixty-six runs of ten consecutive code points, each run
    holding the digits zero to nine in order.  The list gives the zero of
    every run, from the ASCII digits (U+0030) to the segmented digits
    (U+1FBF0); the fullwidth digits start at U+FF10. *)
Definition decimal_zeros : list Z :=
  [ 0x30; 0x660; 0x6F0; 0x7C0; 0x966; 0x9E6; 0xA66; 0xAE6; 0xB66; 0xBE6; 0xC66;
    0xCE6; 0xD66; 0xDE6; 0xE50; 0xED0; 0xF20; 0x1040; 0x1090; 0x17E0; 0x1810;
    0x1946; 0x19D0; 0x1A80; 0x1A90; 0x1B50; 0x1BB0; 0x1C40; 0x1C50; 0xA620;
    0xA8D0; 0xA900; 0xA9D0; 0xA9F0; 0xAA50; 0xABF0; 0xFF10; 0x104A0; 0x10D30;
    0x11066; 0x110F0; 0x11136; 0x111D0; 0x112F0; 0x11450; 0x114D0; 0x11650;
    0x116C0; 0x11730; 0x118E0; 0x11950; 0x11C50; 0x11D50; 0x11DA0; 0x16A60;
    0x16AC0; 0x16B50; 0x1D7CE; 0x1D7D8; 0x1D7E2; 0x1D7EC; 0x1D7F6; 0x1E140;
    0x1E2F0; 0x1E950; 0x1FBF0 ].

(** The value of a code point as a decimal digit, if it is one. *)
Definition decimal (cp : Z) : option Z :=
  match List.find (fun z => (z <=? cp) && (cp <=? z + 9)) decimal_zeros with
  | Some z => Some (cp - z)
  | None => None
  end.

(** A character class reads one character from the front of a string and
    gives its value and the rest. *)
Definition Class : Type := string -> option (Z * string).

(** [\d] *)
Definition digit : Class :=
  fun s =>
    match next_char s with
    | Some (cp, rest) =>
        match decimal cp with
        | Some d => Some (d, rest)
        | None => None
        end
    | None => None
    end.

(** [[lo-hi]] for ASCII digits [lo] and [hi]. *)
Definition digit_in (lo hi : Z) : Class :=
  fun s =>
    match s with
    | String c rest =>
        let d := byte c - 48 in
        if (lo <=? d) && (d <=? hi) then Some (d, rest) else None
    | EmptyString => None
    end.

Definition space : Class :=
  fun s =>
    match s with
    | String c rest => if Ascii.eqb c " "%char then Some (0, rest) else None
    | EmptyString => None
    end.

(** [\d\d\d\d] *)
Definition match_Y (s : string) : option (Z * string) :=
  match digit s with
  | Some (a, s1) =>
      match digit s1 with
      | Some (b, s2) =>
          match digit s2 with
          | Some (c, s3) =>
              match digit s3 with
              | Some (d, rest) => Some (1000 * a + 100 * b + 10 * c + d, rest)
              | None => None
              end
          | None => None
          end
      | None => None
      end
  | None => None
  end.

(** One alternative made of two characters. *)
Definition two (p1 p2 : Class) (s : string) : list (Z * string) :=
  match p1 s with
  | Some (x, s1) =>
      match p2 s1 with
      | Some (y, rest) => [(10 * x + y, rest)]
      | None => []
      end
  | None => []
  end.

(** One alternative made of a single character. *)
Definition one (p : Class) (s : string) : list (Z * string) :=
  match p s with
  | Some (x, rest) => [(x, rest)]
  | None => []
  end.

(** [1[0-2]|0[1-9]|[1-9]], every way to match in priority order. *)
Definition match_m (s : string) : list (Z * string) :=
  two (digit_in 1 1) (digit_in 0 2) s ++ two (digit_in 0 0) (digit_in 1 9) s
    ++ one (digit_in 1 9) s.

(** [3[0-1]|[1-2]\d|0[1-9]|[1-9]| [1-9]] *)
Definition match_d (s : string) : list (Z * string) :=
  two (digit_in 3 3) (digit_in 0 1) s ++ two (digit_in 1 2) digit s
    ++ two (digit_in 0 0) (digit_in 1 9) s ++ one (digit_in 1 9) s
    ++ two space (digit_in 1 9) s.

(** The first month alternative after which a day matches, with the first
    day alternative there. *)
Fixpoint first_md (ms : list (Z * string)) : option (Z * Z * string) :=
  match ms with
  | [] => None
  | (m, rest) :: ms' =>
      match match_d rest with
      | (d, rest') :: _ => Some (m, d, rest')
      | [] => first_md ms'
      end
  end.

(** The parsed date as [(year, month, day)]. *)
Definition strptime_Ymd (s : string) : option (Z * Z * Z) :=
  match match_Y s with
  | None => None
  | Some (y, rest) =>
      match first_md (match_m rest) with
      | None => None
      | Some (m, d, rest') =>
          match rest' with
          | EmptyString =>
              if (1 <=? y) && (d <=? Calendar.days_in_month y m)
              then Some (y, m, d) else None
          | String _ _ => None
          end
      end
  end.

Definition digit_char (d : Z) : ascii := ascii_of_nat (Z.to_nat (48 + d mod 10)).

Definition pad2 (n : Z) : string :=
  String (digit_char (n / 10)) (String (digit_char n) EmptyString).

(** [strftime("%Y%m%d")] for the years 1000 to 9999. *)
Definition strftime_Ymd (ymd : Z * Z * Z) : string :=
  let '(y, m, d) := ymd in
  pad2 (y / 100) ++ pad2 (y mod 100) ++ pad2 m ++ pad2 d.

End Strptime.

(** ** Data model *)

(** Configuration read from the environment when the module is loaded. *)
Record Config := {
  SNAPSHOT_ID : string;
  REGION : string;
  PLAN : string;
  user_data : string;
    (** the Base64 cloud-init payload built by [_build_user_data] from
        [TS_AUTH_KEY]: opaque to every function modelled here *)
  SNAPSHOT_RETAIN_DAYS : Z;
  SNAPSHOT_MAX_COUNT : Z
}.

Definition LABEL : string := "Quant-Trading-Server".
Definition BASE_URL : string := "https://api.vultr.com/v2".
Definition BACKUP_PREFIX : string := "Quant-Backup-".

(** The fields of an instance object the script reads.  A key read with
    [.get] that is missing behaves as one holding a string equal to none of
    the compared constants. *)
Record Instance := {
  inst_id : string;
  inst_label : string;
  inst_status : string;
  inst_power_status : string;
  inst_main_ip : string
}.

Record Snapshot := {
  snap_id : string;
  snap_description : string;
  snap_status : string
}.

(** A decoded JSON response body: an object whose top-level keys may each
    be absent. *)
Record Body := {
  instances : option (list Instance);
  instance : option Instance;
  snapshots : option (list Snapshot);
  snapshot : option Snapshot
}.

Definition empty_body : Body :=
  {| instances := None; instance := None; snapshots := None; snapshot := None |}.

(** The [json=] keyword argument of a call. *)
Inductive Payload :=
| NoPayload
| InstancePayload (region plan snapshot_id label backups user_data : string)
| SnapshotPayload (instance_id description : string).

(** [resp.content], as [resp.json()] sees it. *)
Inductive Content :=
| NoContent            (** no bytes: [resp.content] is falsy *)
| Json (b : Body)      (** bytes that decode to the object [b] *)
| Undecodable.         (** bytes that are not JSON: [resp.json()] raises
                           [requests.JSONDecodeError], which derives from
                           [requests.RequestException] *)

Record Response := {
  status_code : Z;
  content : Content
}.

(** What [requests.request] does: it returns a response or raises
    [requests.RequestException]. *)
Inductive HttpOutcome :=
| Responded (resp : Response)
| RequestException.

(** One future answer of the provider and the time it takes to arrive, in
    microseconds. *)
Record Exchange := {
  latency : N;
  outcome : HttpOutcome
}.

Inductive Level := INFO | WARNING | ERROR.

(** Everything the process does that is visible from outside. *)
Inductive Event :=
| EvHttp (method url : string) (json : Payload) (out : HttpOutcome)
| EvSleep (seconds : Z)
| EvLog (lvl : Level) (msg : string).

#[global] Instance Instance_eq_dec : EqDecision Instance.
Proof. solve_decision. Defined.
#[global] Instance Snapshot_eq_dec : EqDecision Snapshot.
Proof. solve_decision. Defined.
#[global] Instance Body_eq_dec : EqDecision Body.
Proof. solve_decision. Defined.
#[global] Instance Payload_eq_dec : EqDecision Payload.
Proof. solve_decision. Defined.
#[global] Instance Content_eq_dec : EqDecision Content.
Proof. solve_decision. Defined.
#[global] Instance Response_eq_dec : EqDecision Response.
Proof. solve_decision. Defined.
#[global] Instance HttpOutcome_eq_dec : EqDecision HttpOutcome.
Proof. solve_decision. Defined.
#[global] Instance Level_eq_dec : EqDecision Level.
Proof. solve_decision. Defined.
#[global] Instance Event_eq_dec : EqDecision Event.
Proof. solve_decision. Defined.

(** Exceptions.  [SystemExit] derives from [BaseException] only; the others
    derive from [Exception]. *)
Inductive Exn :=
| SystemExit (code : Z)
| KeyError (key : string)
| IndexError.

Definition is_Exception (e : Exn) : bool :=
  match e with
  | SystemExit _ => false
  | KeyError _ => true
  | IndexError => true
  end.

(** The world: the wall clock in microseconds since the epoch (read by
    [time.time] and [datetime.utcnow]), the answers the provider will give
    to the coming requests, and the trace so far, oldest event first.  Once
    the provider's answers are used up, every further request fails at the
    network level. *)
Record World := {
  clock : Z;
  pending : list Exchange;
  trace : list Event
}.

(** ** The monad of script fragments *)

Inductive Result (A : Type) :=
| Ok (a : A)
| Raise (e : Exn).
Arguments Ok {A} a.
Arguments Raise {A} e.

Definition M (A : Type) : Type := World -> Result A * World.

Definition ret {A} (a : A) : M A := fun w => (Ok a, w).

Definition bind {A B} (m : M A) (k : A -> M B) : M B :=
  fun w =>
    match m w with
    | (Ok a, w') => k a w'
    | (Raise e, w') => (Raise e, w')
    end.

Definition raise {A} (e : Exn) : M A := fun w => (Raise e, w).

(** [try: m  except Exception as exc: h exc]. *)
Definition try_except_Exception {A} (m : M A) (h : Exn -> M A) : M A :=
  fun w =>
    match m w with
    | (Ok a, w') => (Ok a, w')
    | (Raise e, w') => if is_Exception e then h e w' else (Raise e, w')
    end.

(** The script's statements are sequenced with stdpp's monad notations
    [x ← m; k] and [m;; k]. *)
#[global] Instance M_ret : MRet M := @ret.
#[global] Instance M_bind : MBind M := fun A B k m => bind m k.

Definition emit (e : Event) : M unit :=
  fun w => (Ok tt, {| clock := clock w; pending := pending w; trace := trace w ++ [e] |}).

Definition log (lvl : Level) (msg : string) : M unit := emit (EvLog lvl msg).

(** [time.time()], in microseconds. *)
Definition time_time : M Z := fun w => (Ok (clock w), w).

(** [datetime.utcnow()], in microseconds since the epoch. *)
Definition utcnow : M Z := fun w => (Ok (clock w), w).

(** [time.sleep(seconds)]. *)
Definition sleep (seconds : Z) : M unit :=
  fun w =>
    (Ok tt, {| clock := clock w + seconds * Calendar.us_per_second;
               pending := pending w;
               trace := trace w ++ [EvSleep seconds] |}).

(** [requests.request(method, url, headers=HEADERS, timeout=30, json=...)]:
    the next answer of the provider, after its latency. *)
Definition requests_request (method url : string) (json : Payload) : M HttpOutcome :=
  fun w =>
    match pending w with
    | [] =>
        (Ok RequestException,
         {| clock := clock w; pending := [];
            trace := trace w ++ [EvHttp method url json RequestException] |})
    | x :: rest =>
        (Ok (outcome x),
         {| clock := clock w + Z.of_N (latency x); pending := rest;
            trace := trace w ++ [EvHttp method url json (outcome x)] |})
    end.

(** [d[key]] on a response body. *)
Definition subscript {A} (key : string) (field : option A) : M A :=
  match field with
  | Some a => ret a
  | None => raise (KeyError key)
  end.

(** ** The script *)

(** *** Retry helper *)

Definition is_success (code : Z) : bool :=
  (code =? 200) || (code =? 201) || (code =? 202) || (code =? 204).

Definition is_client_error (code : Z) : bool := (400 <=? code) && (code <? 500).

Definition non_idempotent (method : string) : bool :=
  let m := Py.upper method in
  String.eqb m "POST" || String.eqb m "PATCH".

(** [resp.json() if resp.content else {}]; [None] when [resp.json()]
    raises. *)
Definition decoded (resp : Response) : option Body :=
  match content resp with
  | NoContent => Some empty_body
  | Json b => Some b
  | Undecodable => None
  end.

(** The body of [for attempt in range(1, retries + 1)], over the attempts
    still to come, followed by the two statements after the loop.  The
    [return] statement is inside the [try]: when [resp.json()] raises, the
    [except requests.RequestException] clause handles it as it handles a
    failure of [requests.request]. *)
Fixpoint request_loop (method path url : string) (json : Payload) (retries : Z)
    (attempts : list Z) : M Body :=
  match attempts with
  | [] =>
      log ERROR "All %d attempts failed for %s %s";;
      raise (SystemExit 1)
  | attempt :: rest =>
      out ← requests_request method url json;
      match out with
      | Responded resp =>
          if is_success (status_code resp) then
            match decoded resp with
            | Some b => mret b
            | None =>
                log WARNING "Attempt %d/%d - network error: %s";;
                (if attempt <? retries then sleep (10 * attempt) else mret tt);;
                request_loop method path url json retries rest
            end
          else if is_client_error (status_code resp) then
            log ERROR "Client error %s: %s";;
            raise (SystemExit 1)
          else
            log WARNING "Attempt %d/%d - HTTP %s: %s";;
            (if attempt <? retries then sleep (10 * attempt) else mret tt);;
            request_loop method path url json retries rest
      | RequestException =>
          log WARNING "Attempt %d/%d - network error: %s";;
          (if attempt <? retries then sleep (10 * attempt) else mret tt);;
          request_loop method path url json retries rest
      end
  end.

Definition _request (method path : string) (retries : Z) (json : Payload) : M Body :=
  let url := BASE_URL +:+ path in
  let retries := if non_idempotent method then 1 else retries in
  request_loop method path url json retries (Py.range 1 (retries + 1)).

(** *** Instance helpers *)

(** [data.get(key, [])]. *)
Definition get_list {A} (field : option (list A)) : list A :=
  match field with Some l => l | None => [] end.

Definition is_managed (inst : Instance) : bool :=
  String.eqb (inst_label inst) LABEL && negb (String.eqb (inst_status inst) "dead").

Definition find_instance : M (option Instance) :=
  data ← _request "GET" "/instances" 3 NoPayload;
  mret (List.find is_managed (get_list (instances data))).

Definition is_complete_backup (s : Snapshot) : bool :=
  Py.startswith (snap_description s) BACKUP_PREFIX && String.eqb (snap_status s) "complete".

Definition latest_backup_snapshot : M (option string) :=
  data ← _request "GET" "/snapshots" 3 NoPayload;
  let backups := List.filter is_complete_backup (get_list (snapshots data)) in
  match backups with
  | [] => mret None
  | _ :: _ =>
      match Py.sort_desc snap_description backups with
      | snap :: _ =>
          log INFO "Latest backup snapshot: %s (%s)";;
          mret (Some (snap_id snap))
      | [] => raise IndexError
      end
  end.

(** *** Polling loops

    Both polling loops of the script have the shape
    [while time.time() < deadline: <body>] followed by a fatal exit.  A
    body either returns from the function ([Some]), raises, or falls
    through to the next round ([None]).  A round that falls through has
    received a successful answer, so it has consumed one of the provider's
    pending answers: this is what makes the loop a total function of the
    world. *)

Definition inspect {A} (a : A) : {b | a = b} := exist _ a eq_refl.

Definition consumes {A} (body : M (option A)) : Prop :=
  forall w w', body w = (Ok None, w') -> (length (pending w') < length (pending w))%nat.

Equations while_before {A} (deadline : Z) (body : M (option A)) (Hbody : consumes body)
    (orelse : M A) (w : World) : Result A * World by wf (length (pending w)) lt :=
while_before deadline body Hbody orelse w with inspect (clock w <? deadline) := {
  | exist _ true _ with inspect (body w) := {
      | exist _ (Ok None, w') _ => while_before deadline body Hbody orelse w'
      | exist _ (Ok (Some a), w') _ => (Ok a, w')
      | exist _ (Raise e, w') _ => (Raise e, w') };
  | exist _ false _ => orelse w }.

Lemma request_loop_pending method path url json retries attempts w r w' :
  request_loop method path url json retries attempts w = (r, w') ->
  (length (pending w') <= length (pending w))%nat /\
  (forall b, r = Ok b -> (length (pending w') < length (pending w))%nat).
Proof.
  revert w. induction attempts as [|a rest IH]; intros w H; simpl in H.
  - inversion H; subst; simpl. split; [lia | discriminate].
  - unfold mbind, M_bind, bind in H.
    unfold requests_request in H at 1.
    destruct (pending w) as [|x ps] eqn:Hp.
    + unfold log, emit in H; simpl in H.
      destruct (a <? retries); simpl in H; apply IH in H; simpl in H;
        destruct H as [H1 H2];
        (rewrite ?Hp; simpl; split; [lia | intros b Hb; specialize (H2 b Hb); lia]).
    + destruct (outcome x) as [resp|].
      * destruct (is_success (status_code resp)).
        { destruct (decoded resp) as [b0|].
          - inversion H; subst; simpl. split; [lia | intros; lia].
          - unfold log, emit in H; simpl in H.
            destruct (a <? retries); simpl in H; apply IH in H; simpl in H;
              destruct H as [H1 H2];
              (rewrite ?Hp; simpl; split; [lia | intros b Hb; specialize (H2 b Hb); lia]). }
        destruct (is_client_error (status_code resp)).
        { simpl in H. inversion H; subst; simpl. split; [lia | discriminate]. }
        unfold log, emit in H; simpl in H.
        destruct (a <? retries); simpl in H; apply IH in H; simpl in H;
          destruct H as [H1 H2];
          (rewrite ?Hp; simpl; split; [lia | intros b Hb; specialize (H2 b Hb); lia]).
      * unfold log, emit in H; simpl in H.
        destruct (a <? retries); simpl in H; apply IH in H; simpl in H;
          destruct H as [H1 H2];
          (rewrite ?Hp; simpl; split; [lia | intros b Hb; specialize (H2 b Hb); lia]).
Qed.

Lemma _request_consumes method path retries json w b w' :
  _request method path retries json w = (Ok b, w') ->
  (length (pending w') < length (pending w))%nat.
Proof.
  unfold _request. intros H. apply request_loop_pending in H as [_ H]. eauto.
Qed.

(** The body of the loop in [_wait_for_instance]. *)
Definition _wait_for_instance_body (instance_id : string) : M (option Instance) :=
  data ← _request "GET" ("/instances/" +:+ instance_id) 3 NoPayload;
  inst ← subscript "instance" (instance data);
  log INFO "  Instance status: %s  power: %s";;
  if String.eqb (inst_status inst) "active" && String.eqb (inst_power_status inst) "running"
  then
    log INFO "Instance is live. Main IP: %s";;
    mret (Some inst)
  else
    sleep 20;;
    mret None.

Lemma _wait_for_instance_body_consumes instance_id :
  consumes (_wait_for_instance_body instance_id).
Proof.
  intros w w'. unfold _wait_for_instance_body, mbind, M_bind, bind.
  destruct (_request _ _ _ _ w) as [[b|e] w1] eqn:Hr; [|discriminate].
  apply _request_consumes in Hr.
  destruct (instance b) as [inst|]; simpl; [|discriminate].
  destruct (_ && _); simpl; [discriminate|].
  intros H; inversion H; subst; simpl. exact Hr.
Qed.

Definition _wait_for_instance (instance_id : string) (timeout : Z) : M Instance :=
  now ← time_time;
  let deadline := now + timeout * Calendar.us_per_second in
  while_before deadline (_wait_for_instance_body instance_id)
    (_wait_for_instance_body_consumes instance_id)
    (log ERROR "Instance did not become active within %ds";;
     raise (SystemExit 1)).

(** *** Instances, continued *)

Section WithConfig.

Variable cfg : Config.

Definition create_instance : M Instance :=
  latest ← latest_backup_snapshot;
  let snap_id :=
    match latest with
    | Some id => if String.eqb id "" then SNAPSHOT_ID cfg else id
    | None => SNAPSHOT_ID cfg
    end in
  log INFO "Creating instance from snapshot %s in region %s ...";;
  data ← _request "POST" "/instances" 3
           (InstancePayload (REGION cfg) (PLAN cfg) snap_id LABEL "disabled" (user_data cfg));
  inst ← subscript "instance" (instance data);
  log INFO "Instance %s created - waiting for it to become active ...";;
  _wait_for_instance (inst_id inst) 600.

Definition destroy_instance (instance_id : string) : M unit :=
  log INFO "Destroying instance %s ...";;
  _request "DELETE" ("/instances/" +:+ instance_id) 3 NoPayload;;
  log INFO "Instance %s destroyed.".

(** *** Snapshot helpers *)

Definition create_snapshot (instance_id : string) : M string :=
  now ← utcnow;
  let date_str := Strptime.strftime_Ymd (Calendar.civil_from_days (now / Calendar.us_per_day)) in
  let desc := BACKUP_PREFIX +:+ date_str in
  log INFO "Creating snapshot '%s' for instance %s ...";;
  data ← _request "POST" "/snapshots" 3 (SnapshotPayload instance_id desc);
  snap ← subscript "snapshot" (snapshot data);
  log INFO "Snapshot %s queued.";;
  mret (snap_id snap).

(** The body of the loop in [wait_for_snapshot]. *)
Definition wait_for_snapshot_body (snap_id : string) : M (option unit) :=
  data ← _request "GET" ("/snapshots/" +:+ snap_id) 3 NoPayload;
  snap ← subscript "snapshot" (snapshot data);
  let status := snap_status snap in
  log INFO "  Snapshot status: %s";;
  if String.eqb status "complete" then
    log INFO "Snapshot %s is complete.";;
    mret (Some tt)
  else if String.eqb status "error" then
    log ERROR "Snapshot %s entered error state.";;
    raise (SystemExit 1)
  else
    sleep 30;;
    mret None.

Lemma wait_for_snapshot_body_consumes snap_id :
  consumes (wait_for_snapshot_body snap_id).
Proof.
  intros w w'. unfold wait_for_snapshot_body, mbind, M_bind, bind.
  destruct (_request _ _ _ _ w) as [[b|e] w1] eqn:Hr; [|discriminate].
  apply _request_consumes in Hr.
  destruct (snapshot b) as [snap|]; simpl; [|discriminate].
  destruct (String.eqb _ "complete"); simpl; [discriminate|].
  destruct (String.eqb _ "error"); simpl; [discriminate|].
  intros H; inversion H; subst; simpl. exact Hr.
Qed.

Definition wait_for_snapshot (snap_id : string) (timeout : Z) : M unit :=
  log INFO "Waiting for snapshot %s to complete ...";;
  now ← time_time;
  let deadline := now + timeout * Calendar.us_per_second in
  while_before deadline (wait_for_snapshot_body snap_id)
    (wait_for_snapshot_body_consumes snap_id)
    (log ERROR "Snapshot %s did not complete within %ds";;
     raise (SystemExit 1)).

Definition is_backup (s : Snapshot) : bool :=
  Py.startswith (snap_description s) BACKUP_PREFIX.

(** The [datetime] that [strptime] builds from a parsed date: midnight of
    that day, in microseconds since the epoch. *)
Definition midnight (ymd : Z * Z * Z) : Z :=
  let '(y, m, d) := ymd in Calendar.days_from_civil y m d * Calendar.us_per_day.

(** [(datetime.utcnow() - snap_date).days]: [timedelta.days] is the floor
    of the difference in days. *)
Definition age_days (now : Z) (ymd : Z * Z * Z) : Z :=
  (now - midnight ymd) / Calendar.us_per_day.

(** Rule 1, the loop over [backups[1:]]; [ValueError] from [strptime] is
    swallowed by the [except] clause. *)
Fixpoint rule1 (retain_days : Z) (snaps : list Snapshot) (to_delete : gset string)
    : M (gset string) :=
  match snaps with
  | [] => mret to_delete
  | snap :: rest =>
      let date_str := Py.remove_all BACKUP_PREFIX (snap_description snap) in
      match Strptime.strptime_Ymd date_str with
      | Some snap_date =>
          now ← utcnow;
          if age_days now snap_date >? retain_days
          then rule1 retain_days rest ({[ snap_id snap ]} ∪ to_delete)
          else rule1 retain_days rest to_delete
      | None => rule1 retain_days rest to_delete
      end
  end.

(** Rule 2, the loop over [backups[max_count:]]. *)
Fixpoint rule2 (snaps : list Snapshot) (to_delete : gset string) : gset string :=
  match snaps with
  | [] => to_delete
  | snap :: rest => rule2 rest ({[ snap_id snap ]} ∪ to_delete)
  end.

(** The set [to_delete] as it stands after both rules, for [backups]
    already sorted. *)
Definition deletion_set (retain_days max_count : Z) (backups : list Snapshot)
    : M (gset string) :=
  to_delete ← rule1 retain_days (tail backups) ∅;
  mret (rule2 (Py.slice_from max_count backups) to_delete).

(** The final loop issuing the deletions. *)
Fixpoint delete_selected (backups : list Snapshot) (to_delete : gset string) : M unit :=
  match backups with
  | [] => mret tt
  | snap :: rest =>
      (if decide (snap_id snap ∈ to_delete) then
         log INFO "Pruning snapshot %s (%s) ...";;
         _request "DELETE" ("/snapshots/" +:+ snap_id snap) 3 NoPayload;;
         mret tt
       else mret tt);;
      delete_selected rest to_delete
  end.

Definition prune_old_snapshots (retain_days max_count : Z) : M unit :=
  data ← _request "GET" "/snapshots" 3 NoPayload;
  let backups := List.filter is_backup (get_list (snapshots data)) in
  match backups with
  | [] => log INFO "No backup snapshots found."
  | _ :: _ =>
      let backups := Py.sort_desc snap_description backups in
      to_delete ← deletion_set retain_days max_count backups;
      if decide (to_delete = ∅) then
        log INFO "No old snapshots to prune (retain_days=%d, max_count=%d)."
      else
        delete_selected backups to_delete;;
        log INFO "Pruned %d snapshot(s)."
  end.

(** *** High-level actions *)

Definition action_start : M unit :=
  existing ← find_instance;
  match existing with
  | Some _ => log INFO "Instance already running: %s (%s). Nothing to do."
  | None =>
      inst ← create_instance;
      log INFO "Server started successfully. ID=%s  IP=%s"
  end.

Definition action_stop : M unit :=
  inst ← find_instance;
  match inst with
  | None =>
      log ERROR "No running '%s' instance found.";;
      raise (SystemExit 1)
  | Some inst =>
      let instance_id := inst_id inst in
      snap_id ← create_snapshot instance_id;
      wait_for_snapshot snap_id 3600;;
      destroy_instance instance_id;;
      try_except_Exception
        (prune_old_snapshots (SNAPSHOT_RETAIN_DAYS cfg) (SNAPSHOT_MAX_COUNT cfg))
        (fun exc => log WARNING "Snapshot pruning failed (non-fatal): %s");;
      log INFO "Stop sequence complete."
  end.

End WithConfig.

(** ** Vocabulary for statements about traces *)

Definition is_http (e : Event) : bool :=
  match e with EvHttp _ _ _ _ => true | _ => false end.

(** The number of calls of [requests.request] in a stretch of trace. *)
Definition attempts (evs : list Event) : nat := length (List.filter is_http evs).

(** A trace without its log lines: which calls and which sleeps, in order. *)
Inductive Kind :=
| KHttp (out : HttpOutcome)
| KSleep (seconds : Z).

Definition kind_of (e : Event) : option Kind :=
  match e with
  | EvHttp _ _ _ out => Some (KHttp out)
  | EvSleep s => Some (KSleep s)
  | EvLog _ _ => None
  end.

Definition kinds (evs : list Event) : list Kind := omap kind_of evs.

(** Attempts numbered from [a] receiving the outcomes [outs], with a sleep
    of ten seconds times the attempt number between consecutive ones. *)
Fixpoint schedule (a : Z) (outs : list HttpOutcome) : list Kind :=
  match outs with
  | [] => []
  | [out] => [KHttp out]
  | out :: (_ :: _) as outs' => KHttp out :: KSleep (10 * a) :: schedule (a + 1) outs'
  end.

(** Outcomes after which the loop of [_request] goes on: a network error,
    a status that is neither a success nor a 4xx, or a success whose
    content does not decode. *)
Definition retryable (out : HttpOutcome) : bool :=
  match out with
  | Responded resp =>
      if is_success (status_code resp)
      then match decoded resp with Some _ => false | None => true end
      else negb (is_client_error (status_code resp))
  | RequestException => true
  end.

Definition client_error (out : HttpOutcome) : bool :=
  match out with
  | Responded resp =>
      negb (is_success (status_code resp)) && is_client_error (status_code resp)
  | RequestException => false
  end.

(** Every call in a stretch of trace is [method] on [BASE_URL ++ path] with
    payload [json]. *)
Definition calls_only (method path : string) (json : Payload) (evs : list Event) : Prop :=
  Forall (fun e => match e with
                   | EvHttp m u j _ => m = method /\ u = BASE_URL +:+ path /\ j = json
                   | _ => True
                   end) evs.

(** The attempt budget [_request] works with. *)
Definition budget (method : string) (retries : Z) : Z :=
  if non_idempotent method then 1 else retries.

(** ** The retry helper *)

Lemma bind_run {A B} (m : M A) (k : A -> M B) w :
  (m ≫= k) w = match m w with
               | (Ok a, w') => k a w'
               | (Raise e, w') => (Raise e, w')
               end.
Proof. reflexivity. Qed.

Lemma range_nil lo hi : hi <= lo -> Py.range lo hi = [].
Proof. intros H. unfold Py.range. replace (Z.to_nat (hi - lo)) with O by lia. reflexivity. Qed.

Lemma range_cons lo hi : lo < hi -> Py.range lo hi = lo :: Py.range (lo + 1) hi.
Proof.
  intros H. unfold Py.range.
  replace (Z.to_nat (hi - lo)) with (S (Z.to_nat (hi - (lo + 1)))) by lia.
  simpl. f_equal; [lia|].
  rewrite <- seq_shift, map_map. apply map_ext. intros; lia.
Qed.

Lemma range_length lo hi : length (Py.range lo hi) = Z.to_nat (hi - lo).
Proof. unfold Py.range. now rewrite length_map, length_seq. Qed.

(** How a call of [_request] with [n] attempts left can go, as the list of
    outcomes it receives and its result. *)
Inductive served : nat -> list HttpOutcome -> Result Body -> Prop :=
| served_exhausted :
    served O [] (Raise (SystemExit 1))
| served_success n resp b :
    is_success (status_code resp) = true ->
    decoded resp = Some b ->
    served (S n) [Responded resp] (Ok b)
| served_client_error n resp :
    client_error (Responded resp) = true ->
    served (S n) [Responded resp] (Raise (SystemExit 1))
| served_retry n out outs r :
    retryable out = true ->
    served n outs r ->
    served (S n) (out :: outs) r.

Lemma served_nonempty n outs r : served (S n) outs r -> outs <> [].
Proof. inversion 1; discriminate. Qed.

Lemma served_length n outs r : served n outs r -> (length outs <= n)%nat.
Proof. induction 1; simpl; lia. Qed.

Lemma served_raise n outs r e : served n outs r -> r = Raise e -> e = SystemExit 1.
Proof. induction 1; intros; try congruence; auto. Qed.

Lemma served_all_retryable n outs r :
  served n outs r -> forallb retryable outs = true ->
  length outs = n /\ r = Raise (SystemExit 1).
Proof.
  induction 1 as [|n resp b Hs Hd|n resp Hc|n out outs r Hr Hrun IH]; simpl; intros Hall.
  - auto.
  - rewrite Hs, Hd in Hall. discriminate.
  - unfold client_error in Hc. apply andb_prop in Hc as [Hc1 Hc2].
    apply negb_true_iff in Hc1. rewrite Hc1, Hc2 in Hall. discriminate.
  - apply andb_prop in Hall as [_ Hall]. destruct (IH Hall). split; congruence.
Qed.

Lemma kinds_app evs1 evs2 : kinds (evs1 ++ evs2) = kinds evs1 ++ kinds evs2.
Proof. unfold kinds. apply omap_app. Qed.

Lemma calls_only_app method path json evs1 evs2 :
  calls_only method path json evs1 -> calls_only method path json evs2 ->
  calls_only method path json (evs1 ++ evs2).
Proof. unfold calls_only. intros. apply Forall_app; auto. Qed.

Ltac invert H := inversion H; subst; clear H.

(** Runs the straight-line prefix of a monadic computation in [H]. *)
Ltac mrun H :=
  repeat (rewrite ?bind_run in H;
          unfold log, emit, sleep, mret, M_ret, ret, raise, time_time, utcnow in H;
          cbn beta iota in H).

(** The loop of [_request] from attempt [a] on. *)
Lemma request_loop_served method path json retries n :
  forall a w r w',
    n = Z.to_nat (retries + 1 - a) ->
    request_loop method path (BASE_URL +:+ path) json retries
      (Py.range a (retries + 1)) w = (r, w') ->
    exists evs outs,
      trace w' = trace w ++ evs /\
      calls_only method path json evs /\
      kinds evs = schedule a outs /\
      served n outs r.
Proof.
  induction n as [|n IH]; intros a w r w' Hn H.
  - rewrite range_nil in H by lia. simpl in H. invert H.
    exists [EvLog ERROR "All %d attempts failed for %s %s"], []. simpl.
    repeat split; [repeat constructor | constructor].
  - rewrite range_cons in H by lia. simpl in H.
    rewrite bind_run in H. unfold requests_request in H at 1.
    assert (Hrec : forall out w1 evs1,
      retryable out = true ->
      trace w1 = trace w ++ evs1 ->
      calls_only method path json evs1 ->
      kinds evs1 = KHttp out :: (if a <? retries then [KSleep (10 * a)] else []) ->
      request_loop method path (BASE_URL +:+ path) json retries
        (Py.range (a + 1) (retries + 1)) w1 = (r, w') ->
      exists evs outs, trace w' = trace w ++ evs /\ calls_only method path json evs /\
        kinds evs = schedule a outs /\ served (S n) outs r).
    { intros out w1 evs1 Hret Ht Hc Hk Hloop.
      apply IH in Hloop as (evs2 & outs & Ht2 & Hc2 & Hk2 & Hs); [|lia].
      exists (evs1 ++ evs2), (out :: outs). repeat split.
      - rewrite Ht2, Ht. now rewrite app_assoc.
      - now apply calls_only_app.
      - rewrite kinds_app, Hk, Hk2.
        destruct (Z.ltb_spec a retries) as [Hlt|Hge].
        + destruct n as [|n']; [lia|]. apply served_nonempty in Hs.
          destruct outs as [|o outs]; [congruence|]. reflexivity.
        + assert (n = O) by lia. subst n. invert Hs. reflexivity.
      - now constructor. }
    destruct (pending w) as [|x ps] eqn:Hp.
    + destruct (a <? retries) eqn:Ha; mrun H;
        (eapply (Hrec RequestException) in H;
         [exact H | reflexivity | cbn; rewrite <- ?app_assoc; reflexivity | | ]);
        try (repeat constructor; auto; fail); cbn; reflexivity.
    + destruct (outcome x) as [resp|] eqn:Hout.
      * destruct (is_success (status_code resp)) eqn:Hs.
        { destruct (decoded resp) as [b0|] eqn:Hd.
          - invert H.
            exists [EvHttp method (BASE_URL +:+ path) json (Responded resp)], [Responded resp].
            cbn. repeat split; [repeat constructor; auto | now constructor].
          - destruct (a <? retries) eqn:Ha; mrun H;
              (eapply (Hrec (Responded resp)) in H;
               [exact H | cbn; now rewrite Hs, Hd | cbn; rewrite <- ?app_assoc; reflexivity | | ]);
              try (repeat constructor; auto; fail); cbn; reflexivity. }
        destruct (is_client_error (status_code resp)) eqn:Hc.
        { mrun H. invert H.
          exists [EvHttp method (BASE_URL +:+ path) json (Responded resp);
                  EvLog ERROR "Client error %s: %s"], [Responded resp].
          cbn. rewrite <- app_assoc. repeat split; [repeat constructor; auto |].
          constructor. unfold client_error. now rewrite Hs, Hc. }
        destruct (a <? retries) eqn:Ha; mrun H;
          (eapply (Hrec (Responded resp)) in H;
           [exact H | cbn; now rewrite Hs, Hc | cbn; rewrite <- ?app_assoc; reflexivity | | ]);
          try (repeat constructor; auto; fail); cbn; reflexivity.
      * destruct (a <? retries) eqn:Ha; mrun H;
          (eapply (Hrec RequestException) in H;
           [exact H | reflexivity | cbn; rewrite <- ?app_assoc; reflexivity | | ]);
          try (repeat constructor; auto; fail); cbn; reflexivity.
Qed.

Lemma _request_served method path retries json w r w' :
  _request method path retries json w = (r, w') ->
  exists evs outs,
    trace w' = trace w ++ evs /\
    calls_only method path json evs /\
    kinds evs = schedule 1 outs /\
    served (Z.to_nat (budget method retries)) outs r.
Proof.
  unfold _request. fold (budget method retries). intros H.
  eapply request_loop_served in H; [exact H | lia].
Qed.

Definition is_khttp (k : Kind) : bool :=
  match k with KHttp _ => true | KSleep _ => false end.

Lemma attempts_kinds evs : attempts evs = length (List.filter is_khttp (kinds evs)).
Proof.
  unfold attempts, kinds. induction evs as [|[m u j o|s|l msg] evs IH]; simpl; auto.
Qed.

Lemma schedule_http a outs : length (List.filter is_khttp (schedule a outs)) = length outs.
Proof.
  revert a. induction outs as [|o [|o' outs] IH]; intros a; auto.
  change (S (length (List.filter is_khttp (schedule (a + 1) (o' :: outs)))) = S (length (o' :: outs))).
  now rewrite IH.
Qed.

Lemma attempts_schedule a evs outs : kinds evs = schedule a outs -> attempts evs = length outs.
Proof. intros H. now rewrite attempts_kinds, H, schedule_http. Qed.

Lemma served_client_error_last n outs r :
  served n outs r ->
  forall i out, outs !! i = Some out -> client_error out = true ->
    length outs = S i /\ r = Raise (SystemExit 1).
Proof.
  induction 1 as [|n resp b Hs Hd|n resp Hc|n out0 outs r Hr Hrun IH]; intros i out Hi Hce.
  - discriminate.
  - destruct i; simpl in Hi; [|discriminate]. invert Hi.
    unfold client_error in Hce. rewrite Hs in Hce. discriminate.
  - destruct i; simpl in Hi; [|discriminate]. auto.
  - destruct i as [|i]; simpl in Hi.
    + invert Hi. destruct out as [resp|]; simpl in *; [|discriminate].
      destruct (is_success (status_code resp)), (is_client_error (status_code resp));
        discriminate.
    + destruct (IH i out Hi Hce) as [Hl ->]. simpl. auto.
Qed.

Lemma served_retryable_next n outs r :
  served n outs r ->
  forall i out, outs !! i = Some out -> retryable out = true ->
    ((S i < n)%nat -> (S i < length outs)%nat) /\
    (S i = n -> length outs = S i /\ r = Raise (SystemExit 1)).
Proof.
  induction 1 as [|n resp b Hs Hd|n resp Hc|n out0 outs r Hr Hrun IH]; intros i out Hi Hret.
  - discriminate.
  - destruct i; simpl in Hi; [|discriminate]. invert Hi.
    simpl in Hret. rewrite Hs, Hd in Hret. discriminate.
  - destruct i; simpl in Hi; [|discriminate]. invert Hi.
    unfold client_error in Hc. simpl in Hret.
    destruct (is_success (status_code resp)), (is_client_error (status_code resp));
      discriminate.
  - destruct i as [|i]; simpl in Hi.
    + invert Hi. split.
      * intros Hlt. destruct n as [|n]; [lia|].
        apply served_nonempty in Hrun. destruct outs; [congruence|simpl; lia].
      * intros Hn. assert (n = O) by lia. subst n. invert Hrun. auto.
    + destruct (IH i out Hi Hret) as [H1 H2]. simpl. split.
      * intros. assert (S i < length outs)%nat by (apply H1; lia). lia.
      * intros Hn. destruct H2 as [H2 ->]; [lia|]. auto.
Qed.

(** C4: a POST or PATCH call is attempted exactly once whatever the retry
    count given, while any other call (GET, DELETE) is attempted at most
    [retries] times, sleeping ten seconds times the attempt number between
    consecutive attempts, and exactly [retries] times when every attempt
    fails in a retryable way, after which the call ends in [SystemExit(1)]. *)
Theorem request_attempt_count method path retries json w r w' :
  _request method path retries json w = (r, w') ->
  exists evs outs,
    trace w' = trace w ++ evs /\
    calls_only method path json evs /\
    kinds evs = schedule 1 outs /\
    attempts evs = length outs /\
    (non_idempotent method = true -> attempts evs = 1%nat) /\
    (non_idempotent method = false ->
       Z.of_nat (attempts evs) <= Z.max 0 retries /\
       (forallb retryable outs = true ->
          Z.of_nat (attempts evs) = Z.max 0 retries /\ r = Raise (SystemExit 1))).
Proof.
  intros H. apply _request_served in H as (evs & outs & Ht & Hc & Hk & Hs).
  exists evs, outs. pose proof (attempts_schedule _ _ _ Hk) as Ha.
  repeat split; auto.
  - intros Hm. unfold budget in Hs. rewrite Hm in Hs. simpl in Hs.
    change (Pos.to_nat 1) with 1%nat in Hs.
    pose proof (served_length _ _ _ Hs). apply served_nonempty in Hs.
    destruct outs; [congruence|simpl in *; lia].
  - unfold budget in Hs. rewrite H in Hs. apply served_length in Hs. lia.
  - unfold budget in Hs. rewrite H in Hs.
    destruct (served_all_retryable _ _ _ Hs H0). lia.
  - unfold budget in Hs. rewrite H in Hs.
    now destruct (served_all_retryable _ _ _ Hs H0).
Qed.

(** C5: whatever attempt of a call receives a 4xx status, that attempt is
    the last one and the call ends in [SystemExit(1)]; an attempt that
    receives any other non-success status (or a network error) uses up one
    attempt of the budget: another attempt follows while the budget is not
    spent, and the call ends in [SystemExit(1)] when it is. *)
Theorem request_client_error_fatal method path retries json w r w' :
  _request method path retries json w = (r, w') ->
  exists evs outs,
    trace w' = trace w ++ evs /\
    kinds evs = schedule 1 outs /\
    attempts evs = length outs /\
    (forall i out, outs !! i = Some out -> client_error out = true ->
       attempts evs = S i /\ r = Raise (SystemExit 1)) /\
    (forall i out, outs !! i = Some out -> retryable out = true ->
       (Z.of_nat (S i) < budget method retries -> (S i < attempts evs)%nat) /\
       (Z.of_nat (S i) = budget method retries ->
          attempts evs = S i /\ r = Raise (SystemExit 1))).
Proof.
  intros H. apply _request_served in H as (evs & outs & Ht & Hc & Hk & Hs).
  exists evs, outs. pose proof (attempts_schedule _ _ _ Hk) as Ha. rewrite Ha.
  repeat split; auto.
  - eapply served_client_error_last; eauto.
  - eapply served_client_error_last; eauto.
  - intros Hlt. eapply served_retryable_next; eauto. lia.
  - eapply served_retryable_next; eauto. lia.
  - eapply served_retryable_next; eauto. lia.
Qed.

Definition request_witness_world : World :=
  {| clock := 0;
     pending :=
       [ {| latency := 250000;
            outcome := Responded {| status_code := 503; content := NoContent |} |};
         {| latency := 250000;
            outcome := Responded {| status_code := 404; content := NoContent |} |} ];
     trace := [] |}.

Lemma request_attempt_count_witness :
  let run := _request "GET" "/instances" 3 NoPayload request_witness_world in
  exists evs outs,
    trace (snd run) = trace request_witness_world ++ evs /\
    calls_only "GET" "/instances" NoPayload evs /\
    kinds evs = schedule 1 outs /\
    attempts evs = length outs /\
    (non_idempotent "GET" = true -> attempts evs = 1%nat) /\
    (non_idempotent "GET" = false ->
       Z.of_nat (attempts evs) <= Z.max 0 3 /\
       (forallb retryable outs = true ->
          Z.of_nat (attempts evs) = Z.max 0 3 /\ fst run = Raise (SystemExit 1))).
Proof.
  intros run.
  apply (request_attempt_count "GET" "/instances" 3 NoPayload request_witness_world
           (fst run) (snd run)).
  vm_compute. reflexivity.
Defined.

Lemma request_client_error_fatal_witness :
  let run := _request "DELETE" "/snapshots/s1" 3 NoPayload request_witness_world in
  exists evs outs,
    trace (snd run) = trace request_witness_world ++ evs /\
    kinds evs = schedule 1 outs /\
    attempts evs = length outs /\
    (forall i out, outs !! i = Some out -> client_error out = true ->
       attempts evs = S i /\ fst run = Raise (SystemExit 1)) /\
    (forall i out, outs !! i = Some out -> retryable out = true ->
       (Z.of_nat (S i) < budget "DELETE" 3 -> (S i < attempts evs)%nat) /\
       (Z.of_nat (S i) = budget "DELETE" 3 ->
          attempts evs = S i /\ fst run = Raise (SystemExit 1))).
Proof.
  intros run.
  apply (request_client_error_fatal "DELETE" "/snapshots/s1" 3 NoPayload
           request_witness_world (fst run) (snd run)).
  vm_compute. reflexivity.
Defined.

(** ** Sorting newest first *)

Section SortFacts.
Context {A : Type} (key : A -> string).

Definition not_below (a b : A) : Prop := String.ltb (key a) (key b) = false.

Lemma ltb_false_leb s t : String.ltb s t = false <-> String.leb t s = true.
Proof.
  unfold String.ltb, String.leb. rewrite (String.compare_antisym t s).
  destruct (String.compare s t); simpl; split; congruence.
Qed.

Lemma not_below_trans a b c : not_below a b -> not_below b c -> not_below a c.
Proof.
  unfold not_below. rewrite !ltb_false_leb. intros Hba Hcb.
  pose proof (@transitivity _ String.le _ (key c) (key b) (key a)) as Ht.
  unfold String.le in Ht. apply Is_true_true. apply Ht; now apply Is_true_true.
Qed.

Lemma not_below_refl a : not_below a a.
Proof.
  unfold not_below. rewrite ltb_false_leb. apply Is_true_true.
  change (String.le (key a) (key a)). reflexivity.
Qed.

Lemma insert_desc_perm x l : Py.insert_desc key x l ≡ₚ x :: l.
Proof.
  induction l as [|y l IH]; simpl; [reflexivity|].
  destruct (String.ltb (key x) (key y)); [|reflexivity].
  rewrite IH. apply Permutation_swap.
Qed.

Lemma sort_desc_perm l : Py.sort_desc key l ≡ₚ l.
Proof.
  induction l as [|x l IH]; simpl; [reflexivity|].
  rewrite insert_desc_perm. now rewrite IH.
Qed.

Lemma insert_desc_sorted x l :
  StronglySorted not_below l -> StronglySorted not_below (Py.insert_desc key x l).
Proof.
  induction 1 as [|y l Hs IH Hall]; simpl.
  - repeat constructor.
  - destruct (String.ltb (key x) (key y)) eqn:Hxy.
    + constructor; [exact IH|].
      rewrite insert_desc_perm. constructor; [|exact Hall].
      unfold not_below. rewrite ltb_false_leb.
      unfold String.ltb in Hxy. unfold String.leb.
      destruct (String.compare (key x) (key y)); congruence.
    + constructor; [now constructor|].
      constructor; [exact Hxy|].
      eapply Forall_impl; [exact Hall|].
      intros z Hz. eapply not_below_trans; eauto.
Qed.

Lemma sort_desc_sorted l : StronglySorted not_below (Py.sort_desc key l).
Proof.
  induction l as [|x l IH]; simpl; [constructor|]. now apply insert_desc_sorted.
Qed.

(** The first element after sorting is a member with a greatest key. *)
Lemma sort_desc_head x rest l :
  Py.sort_desc key l = x :: rest ->
  x ∈ l /\ forall y, y ∈ l -> String.leb (key y) (key x) = true.
Proof.
  intros Hs. pose proof (sort_desc_perm l) as Hp.
  pose proof (sort_desc_sorted l) as Hsorted. rewrite Hs in Hp, Hsorted.
  split.
  - rewrite <- Hp. left.
  - intros y Hy. rewrite <- Hp in Hy. apply ltb_false_leb.
    apply StronglySorted_inv in Hsorted as [_ Hall].
    apply elem_of_cons in Hy as [->|Hy]; [apply not_below_refl|].
    rewrite Forall_forall in Hall. apply Hall.
    first [exact Hy | now apply list_elem_of_In].
Qed.

Lemma sort_desc_nil l : Py.sort_desc key l = [] -> l = [].
Proof.
  intros Hs. pose proof (sort_desc_perm l) as Hp. rewrite Hs in Hp.
  now apply Permutation_nil in Hp.
Qed.
End SortFacts.

(** ** Selecting the latest backup *)

Lemma filter_elem_of {A} (f : A -> bool) (l : list A) x :
  x ∈ List.filter f l <-> x ∈ l /\ f x = true.
Proof. rewrite !list_elem_of_In. apply filter_In. Qed.

Lemma filter_nil_all {A} (f : A -> bool) (l : list A) :
  List.filter f l = [] -> forall x, x ∈ l -> f x = false.
Proof.
  intros Hnil x Hx. destruct (f x) eqn:Hf; [|reflexivity].
  assert (Hin : x ∈ List.filter f l) by (apply filter_elem_of; auto).
  rewrite Hnil in Hin. inversion Hin.
Qed.

(** C6: on the list the provider returns, [latest_backup_snapshot] gives
    [None] exactly when no snapshot is a complete backup, and otherwise the
    id of a complete backup whose description is lexicographically greatest
    among the complete backups. *)
Theorem latest_backup_snapshot_greatest w data w1 :
  _request "GET" "/snapshots" 3 NoPayload w = (Ok data, w1) ->
  exists r w',
    latest_backup_snapshot w = (Ok r, w') /\
    match r with
    | None =>
        forall s, s ∈ get_list (snapshots data) -> is_complete_backup s = false
    | Some id =>
        exists s,
          s ∈ get_list (snapshots data) /\ snap_id s = id /\
          is_complete_backup s = true /\
          forall t, t ∈ get_list (snapshots data) -> is_complete_backup t = true ->
            String.leb (snap_description t) (snap_description s) = true
    end.
Proof.
  intros Hreq. unfold latest_backup_snapshot. rewrite bind_run, Hreq.
  destruct (List.filter is_complete_backup (get_list (snapshots data)))
    as [|b bs] eqn:Hf.
  - exists None, w1. split; [reflexivity|]. now apply filter_nil_all.
  - destruct (Py.sort_desc snap_description (b :: bs)) as [|x rest] eqn:Hs.
    + apply sort_desc_nil in Hs. discriminate.
    + apply sort_desc_head in Hs as [Hx Hmax]. rewrite <- Hf in Hx, Hmax.
      apply filter_elem_of in Hx as [Hx Hxc].
      eexists (Some (snap_id x)), _. split; [reflexivity|].
      exists x. repeat split; auto.
      intros t Ht Htc. apply Hmax. apply filter_elem_of. auto.
Qed.

Definition snapshots_body (l : list Snapshot) : Body :=
  {| instances := None; instance := None; snapshots := Some l; snapshot := None |}.

Definition ok_exchange (b : Body) : Exchange :=
  {| latency := 200000;
     outcome := Responded {| status_code := 200; content := Json b |} |}.

Definition latest_witness_data : Body :=
  snapshots_body
    [ {| snap_id := "s1"; snap_description := "Quant-Backup-20240103";
         snap_status := "complete" |};
      {| snap_id := "s2"; snap_description := "Quant-Backup-20240104";
         snap_status := "pending" |};
      {| snap_id := "s3"; snap_description := "manual"; snap_status := "complete" |} ].

Definition latest_witness_world : World :=
  {| clock := 1704412800000000;
     pending := [ ok_exchange latest_witness_data ];
     trace := [] |}.

Lemma latest_backup_snapshot_greatest_witness :
  exists r w',
    latest_backup_snapshot latest_witness_world = (Ok r, w') /\
    match r with
    | None =>
        forall s, s ∈ get_list (snapshots latest_witness_data) ->
                  is_complete_backup s = false
    | Some id =>
        exists s,
          s ∈ get_list (snapshots latest_witness_data) /\ snap_id s = id /\
          is_complete_backup s = true /\
          forall t, t ∈ get_list (snapshots latest_witness_data) ->
            is_complete_backup t = true ->
            String.leb (snap_description t) (snap_description s) = true
    end.
Proof.
  apply (latest_backup_snapshot_greatest latest_witness_world latest_witness_data
           (snd (_request "GET" "/snapshots" 3 NoPayload latest_witness_world))).
  vm_compute. reflexivity.
Defined.

Example latest_backup_snapshot_example :
  fst (latest_backup_snapshot latest_witness_world) = Ok (Some "s1").
Proof. vm_compute. reflexivity. Qed.

(** ** Starting when an instance is already live *)

(** C9: when the instance list the provider returns holds a labelled
    instance that is not dead, [action_start] returns normally, and every
    call it made is a GET of the instance list: no creation call (nor any
    other call that changes the remote state) is issued. *)
Theorem action_start_existing_noop cfg w data w1 :
  _request "GET" "/instances" 3 NoPayload w = (Ok data, w1) ->
  (exists inst, inst ∈ get_list (instances data) /\ is_managed inst = true) ->
  exists w' evs,
    action_start cfg w = (Ok tt, w') /\
    trace w' = trace w ++ evs /\
    calls_only "GET" "/instances" NoPayload evs /\
    pending w' = pending w1.
Proof.
  intros Hreq (inst & Hin & Hm).
  unfold action_start, find_instance. rewrite !bind_run, Hreq.
  unfold mret, M_ret, ret.
  destruct (List.find is_managed (get_list (instances data))) as [found|] eqn:Hfind.
  - apply _request_served in Hreq as (evs & outs & Ht & Hc & _ & _).
    eexists _, (evs ++ [EvLog INFO "Instance already running: %s (%s). Nothing to do."]).
    split; [reflexivity|]. cbn. rewrite Ht, app_assoc. repeat split.
    apply calls_only_app; [exact Hc | repeat constructor].
  - exfalso. apply list_elem_of_In in Hin.
    pose proof (find_none _ _ Hfind _ Hin) as Hn. congruence.
Qed.

Definition instances_body (l : list Instance) : Body :=
  {| instances := Some l; instance := None; snapshots := None; snapshot := None |}.

Definition live_instance : Instance :=
  {| inst_id := "i-1"; inst_label := "Quant-Trading-Server"; inst_status := "active";
     inst_power_status := "running"; inst_main_ip := "203.0.113.7" |}.

Definition start_witness_data : Body :=
  instances_body
    [ {| inst_id := "i-0"; inst_label := "Quant-Trading-Server"; inst_status := "dead";
         inst_power_status := "stopped"; inst_main_ip := "0.0.0.0" |};
      live_instance ].

Definition start_witness_world : World :=
  {| clock := 1704412800000000;
     pending := [ ok_exchange start_witness_data ];
     trace := [] |}.

Definition witness_config : Config :=
  {| SNAPSHOT_ID := "base-snap"; REGION := "ewr"; PLAN := "vc2-2c-4gb";
     user_data := "IyEvYmluL2Jhc2g="; SNAPSHOT_RETAIN_DAYS := 3; SNAPSHOT_MAX_COUNT := 3 |}.

Lemma action_start_existing_noop_witness :
  exists w' evs,
    action_start witness_config start_witness_world = (Ok tt, w') /\
    trace w' = trace start_witness_world ++ evs /\
    calls_only "GET" "/instances" NoPayload evs /\
    pending w' = pending (snd (_request "GET" "/instances" 3 NoPayload start_witness_world)).
Proof.
  apply (action_start_existing_noop witness_config start_witness_world start_witness_data
           (snd (_request "GET" "/instances" 3 NoPayload start_witness_world))).
  - vm_compute. reflexivity.
  - exists live_instance. split; [|reflexivity].
    apply list_elem_of_In. simpl. auto.
Defined.

(** ** The deletion set of [prune_old_snapshots] *)

(** The date string rule 1 hands to [strptime]. *)
Definition date_str (s : Snapshot) : string :=
  Py.remove_all BACKUP_PREFIX (snap_description s).

(** Whether rule 1 selects a snapshot at time [now]. *)
Definition selected_by_age (retain_days now : Z) (s : Snapshot) : bool :=
  match Strptime.strptime_Ymd (date_str s) with
  | Some ymd => age_days now ymd >? retain_days
  | None => false
  end.

Lemma rule1_spec retain_days snaps :
  forall to_delete w,
  exists D,
    rule1 retain_days snaps to_delete w = (Ok D, w) /\
    forall x, x ∈ D <->
      x ∈ to_delete \/
      exists s, s ∈ snaps /\ snap_id s = x /\ selected_by_age retain_days (clock w) s = true.
Proof.
  induction snaps as [|s snaps IH]; intros acc w; simpl.
  - exists acc. split; [reflexivity|]. intros x. split; [auto|].
    intros [H|(s & Hs & _)]; [exact H | inversion Hs].
  - assert (Hstep : forall acc',
      (forall x, x ∈ acc' <->
         x ∈ acc \/ (snap_id s = x /\ selected_by_age retain_days (clock w) s = true)) ->
      exists D, rule1 retain_days snaps acc' w = (Ok D, w) /\
        forall x, x ∈ D <-> x ∈ acc \/
          exists s0, s0 ∈ s :: snaps /\ snap_id s0 = x /\
                     selected_by_age retain_days (clock w) s0 = true).
    { intros acc' Hacc. destruct (IH acc' w) as (D & Hrun & HD).
      exists D. split; [exact Hrun|]. intros x. rewrite HD, Hacc. split.
      - intros [[H|[H1 H2]]|(s0 & Hin & H1 & H2)]; auto.
        + right. exists s. split; [left|auto].
        + right. exists s0. split; [now right|auto].
      - intros [H|(s0 & Hin & H1 & H2)]; auto.
        apply elem_of_cons in Hin as [->|Hin]; auto.
        right. exists s0. auto. }
    unfold selected_by_age in Hstep. fold (date_str s).
    destruct (Strptime.strptime_Ymd (date_str s)) as [ymd|].
    + rewrite bind_run. unfold utcnow.
      destruct (age_days (clock w) ymd >? retain_days).
      * apply Hstep. intros x. rewrite elem_of_union, elem_of_singleton.
        split; [intros [->|H]; auto | intros [H|[-> _]]; auto].
      * apply Hstep. intros x. split; [auto | intros [H|[_ H]]; [auto|discriminate]].
    + apply Hstep. intros x. split; [auto | intros [H|[_ H]]; [auto|discriminate]].
Qed.

Lemma rule2_spec snaps :
  forall to_delete x,
    x ∈ rule2 snaps to_delete <->
    x ∈ to_delete \/ exists s, s ∈ snaps /\ snap_id s = x.
Proof.
  induction snaps as [|s snaps IH]; intros acc x; simpl.
  - split; [auto | intros [H|(s & Hs & _)]; [exact H | inversion Hs]].
  - rewrite IH, elem_of_union, elem_of_singleton. split.
    + intros [[->|H]|(s0 & Hin & H1)]; auto.
      * right. exists s. split; [left|auto].
      * right. exists s0. split; [now right|auto].
    + intros [H|(s0 & Hin & H1)]; auto.
      apply elem_of_cons in Hin as [->|Hin]; auto.
      right. exists s0. auto.
Qed.

(** The deletion set is the union of what the two rules select; computing
    it raises nothing and leaves the world as it is. *)
Lemma deletion_set_spec retain_days max_count backups w :
  exists D,
    deletion_set retain_days max_count backups w = (Ok D, w) /\
    forall x, x ∈ D <->
      (exists s, s ∈ tail backups /\ snap_id s = x /\
                 selected_by_age retain_days (clock w) s = true) \/
      (exists s, s ∈ Py.slice_from max_count backups /\ snap_id s = x).
Proof.
  unfold deletion_set. rewrite bind_run.
  destruct (rule1_spec retain_days (tail backups) ∅ w) as (D1 & Hrun & HD1).
  rewrite Hrun. eexists. split; [reflexivity|].
  intros x. rewrite rule2_spec, HD1. split.
  - intros [[H|H]|H]; auto. inversion H.
  - intros [H|H]; auto.
Qed.

Lemma slice_from_tail {A} (n : Z) (x : A) (l : list A) :
  1 <= n -> Py.slice_from n (x :: l) = drop (Z.to_nat (n - 1)) l.
Proof.
  intros Hn. unfold Py.slice_from.
  destruct (Z.ltb_spec n 0) as [?|_]; [lia|].
  replace (Z.to_nat n) with (S (Z.to_nat (n - 1))) by lia. reflexivity.
Qed.

Lemma elem_of_drop_lookup {A} (n : nat) (l : list A) s :
  s ∈ drop n l -> exists i, (n <= i)%nat /\ l !! i = Some s.
Proof.
  intros Hs. apply list_elem_of_lookup in Hs as [j Hj].
  rewrite lookup_drop in Hj. exists (n + j)%nat. split; [lia | exact Hj].
Qed.

Lemma filter_sublist {A} (f : A -> bool) (l : list A) : List.filter f l `sublist_of` l.
Proof.
  induction l as [|x l IH]; simpl; [constructor|].
  destruct (f x); now constructor.
Qed.

Lemma sorted_backups_NoDup snaps :
  NoDup (snap_id <$> snaps) ->
  NoDup (snap_id <$> Py.sort_desc snap_description (List.filter is_backup snaps)).
Proof.
  intros Hnd. rewrite (sort_desc_perm snap_description).
  eapply sublist_NoDup; [exact Hnd|].
  apply fmap_sublist, filter_sublist.
Qed.

(** C3: with [max_count >= 1] (and any [retain_days >= 0]), every id in the
    deletion set comes from a backup at position 1 or later of the
    newest-first order: rule 1 runs over [backups[1:]] and rule 2 over
    [backups[max_count:]].  Snapshot ids being unique, the newest backup,
    the first after sorting, is therefore never in the deletion set. *)
Theorem newest_backup_never_selected snaps retain_days max_count w newest rest :
  0 <= retain_days ->
  1 <= max_count ->
  Py.sort_desc snap_description (List.filter is_backup snaps) = newest :: rest ->
  exists D,
    deletion_set retain_days max_count (newest :: rest) w = (Ok D, w) /\
    (forall x, x ∈ D ->
       exists i s, (1 <= i)%nat /\ (newest :: rest) !! i = Some s /\ snap_id s = x) /\
    (NoDup (snap_id <$> snaps) -> snap_id newest ∉ D).
Proof.
  intros _ Hmc Hsort.
  destruct (deletion_set_spec retain_days max_count (newest :: rest) w) as (D & Hrun & HD).
  exists D. split; [exact Hrun|].
  assert (Hpos : forall x, x ∈ D ->
    exists i s, (1 <= i)%nat /\ (newest :: rest) !! i = Some s /\ snap_id s = x).
  { intros x Hx. apply HD in Hx as [(s & Hs & Hid & _)|(s & Hs & Hid)].
    - simpl in Hs. apply list_elem_of_lookup in Hs as [j Hj].
      exists (S j), s. repeat split; [lia | exact Hj | exact Hid].
    - rewrite slice_from_tail in Hs by exact Hmc.
      apply elem_of_drop_lookup in Hs as (j & _ & Hj).
      exists (S j), s. repeat split; [lia | exact Hj | exact Hid]. }
  split; [exact Hpos|].
  intros Hnd Hin. apply sorted_backups_NoDup in Hnd. rewrite Hsort in Hnd.
  rewrite fmap_cons in Hnd. apply NoDup_cons in Hnd as [Hnotin _].
  destruct (Hpos _ Hin) as (i & s & Hi & Hs & Hid).
  destruct i as [|j]; [lia|]. simpl in Hs.
  apply Hnotin. rewrite <- Hid. apply list_elem_of_fmap. exists s. split; [reflexivity|].
  apply list_elem_of_lookup. eauto.
Qed.

Lemma NoDup_fmap_eq {A B} (f : A -> B) (l : list A) x y :
  NoDup (f <$> l) -> x ∈ l -> y ∈ l -> f x = f y -> x = y.
Proof.
  induction l as [|a l IH]; intros Hnd Hx Hy Hf; [inversion Hx|].
  rewrite fmap_cons in Hnd. apply NoDup_cons in Hnd as [Ha Hnd].
  apply elem_of_cons in Hx as [->|Hx]; apply elem_of_cons in Hy as [->|Hy]; auto.
  - exfalso. apply Ha. rewrite Hf. now apply list_elem_of_fmap_2.
  - exfalso. apply Ha. rewrite <- Hf. now apply list_elem_of_fmap_2.
Qed.

Lemma tail_NoDup {A B} (f : A -> B) (l : list A) :
  NoDup (f <$> l) -> NoDup (f <$> tail l).
Proof.
  destruct l as [|a l]; [auto|]. rewrite fmap_cons. intros H.
  now apply NoDup_cons in H as [_ H].
Qed.

Lemma age_days_gt now ymd retain_days :
  (age_days now ymd >? retain_days) = true <->
  midnight ymd + (retain_days + 1) * Calendar.us_per_day <= now.
Proof.
  unfold age_days. change Calendar.us_per_day with 86400000000.
  rewrite Z.gtb_ltb, Z.ltb_lt. split; intros H; Z.div_mod_to_equations; lia.
Qed.

(** C10: for a backup other than the newest whose date parses (ids being
    unique), rule 1 selects it exactly when the whole days elapsed since
    midnight of its date exceed [retain_days], that is when at least
    [retain_days + 1] full days have passed; a backup whose date lies
    exactly [retain_days] calendar days before today is kept by rule 1. *)
Theorem age_rule_strict retain_days backups w s y m d :
  NoDup (snap_id <$> backups) ->
  s ∈ tail backups ->
  Strptime.strptime_Ymd (date_str s) = Some (y, m, d) ->
  exists D,
    rule1 retain_days (tail backups) ∅ w = (Ok D, w) /\
    (snap_id s ∈ D <->
       retain_days < (clock w - midnight (y, m, d)) / Calendar.us_per_day) /\
    (snap_id s ∈ D <->
       midnight (y, m, d) + (retain_days + 1) * Calendar.us_per_day <= clock w) /\
    (clock w / Calendar.us_per_day = Calendar.days_from_civil y m d + retain_days ->
       snap_id s ∉ D).
Proof.
  intros Hnd Hs Hparse.
  destruct (rule1_spec retain_days (tail backups) ∅ w) as (D & Hrun & HD).
  exists D. split; [exact Hrun|].
  assert (Hsel : snap_id s ∈ D <-> selected_by_age retain_days (clock w) s = true).
  { rewrite HD. split.
    - intros [H|(s0 & Hs0 & Hid & Hsel)]; [inversion H|].
      apply tail_NoDup in Hnd.
      now rewrite <- (NoDup_fmap_eq snap_id _ _ _ Hnd Hs0 Hs Hid).
    - intros H. right. exists s. auto. }
  unfold selected_by_age in Hsel. rewrite Hparse in Hsel.
  assert (Hlt : snap_id s ∈ D <->
            midnight (y, m, d) + (retain_days + 1) * Calendar.us_per_day <= clock w).
  { now rewrite Hsel, age_days_gt. }
  repeat split.
  - intros H. apply Hsel in H. unfold age_days in H. lia.
  - intros H. apply Hsel. unfold age_days. lia.
  - apply Hlt.
  - apply Hlt.
  - intros Htoday Hin. apply Hlt in Hin. revert Htoday Hin.
    unfold midnight. change Calendar.us_per_day with 86400000000.
    generalize (Calendar.days_from_civil y m d). intros day ? ?.
    Z.div_mod_to_equations. lia.
Qed.

(** C8, as the code has it: a backup whose date string does not parse is
    never selected by rule 1 and makes the computation raise nothing; it is
    in the deletion set exactly when rule 2 selects it, that is when it lies
    in [backups[max_count:]] (ids being unique). *)
Theorem unparseable_backup_only_count_rule retain_days max_count backups w s :
  NoDup (snap_id <$> backups) ->
  s ∈ backups ->
  Strptime.strptime_Ymd (date_str s) = None ->
  (exists D1,
     rule1 retain_days (tail backups) ∅ w = (Ok D1, w) /\ snap_id s ∉ D1) /\
  (exists D,
     deletion_set retain_days max_count backups w = (Ok D, w) /\
     (snap_id s ∈ D <-> s ∈ Py.slice_from max_count backups)).
Proof.
  intros Hnd Hs Hparse.
  assert (Hage : forall s0, s0 ∈ tail backups -> snap_id s0 = snap_id s ->
            selected_by_age retain_days (clock w) s0 = true -> False).
  { intros s0 Hs0 Hid Hsel.
    assert (Hs0' : s0 ∈ backups).
    { destruct backups; [inversion Hs0 | now right]. }
    rewrite (NoDup_fmap_eq snap_id _ _ _ Hnd Hs0' Hs Hid) in Hsel.
    unfold selected_by_age in Hsel. rewrite Hparse in Hsel. discriminate. }
  split.
  - destruct (rule1_spec retain_days (tail backups) ∅ w) as (D1 & Hrun & HD1).
    exists D1. split; [exact Hrun|]. rewrite HD1.
    intros [H|(s0 & Hs0 & Hid & Hsel)]; [inversion H | eauto].
  - destruct (deletion_set_spec retain_days max_count backups w) as (D & Hrun & HD).
    exists D. split; [exact Hrun|]. rewrite HD. split.
    + intros [(s0 & Hs0 & Hid & Hsel)|(s0 & Hs0 & Hid)]; [exfalso; eauto|].
      assert (Hs0' : s0 ∈ backups).
      { unfold Py.slice_from in Hs0.
        destruct (max_count <? 0);
          apply list_elem_of_lookup in Hs0 as [j Hj]; rewrite lookup_drop in Hj;
          apply list_elem_of_lookup; eauto. }
      now rewrite <- (NoDup_fmap_eq snap_id _ _ _ Hnd Hs0' Hs Hid).
    + intros H. right. exists s. auto.
Qed.

(** ** The two retention scenarios *)

Definition backup (id date : string) : Snapshot :=
  {| snap_id := id; snap_description := BACKUP_PREFIX +:+ date; snap_status := "complete" |}.

(** Five daily backups, D0 the newest, listed in no particular order next
    to a snapshot that is not a backup. *)
Definition scenario1 : list Snapshot :=
  [ backup "D2" "20240103"; backup "D4" "20240101";
    {| snap_id := "base"; snap_description := "base image"; snap_status := "complete" |};
    backup "D0" "20240105"; backup "D3" "20240102"; backup "D1" "20240104" ].

(** D0 of today (2024-01-05), D1 forty days old, D2 two days old. *)
Definition scenario2 : list Snapshot :=
  [ backup "D0" "20240105"; backup "D1" "20231126"; backup "D2" "20240103" ].

Definition sorted_backups (snaps : list Snapshot) : list Snapshot :=
  Py.sort_desc snap_description (List.filter is_backup snaps).

Lemma rule1_cons_parsed retain_days s rest acc w ymd :
  Strptime.strptime_Ymd (date_str s) = Some ymd ->
  rule1 retain_days (s :: rest) acc w =
  rule1 retain_days rest
    (if midnight ymd + (retain_days + 1) * Calendar.us_per_day <=? clock w
     then {[ snap_id s ]} ∪ acc else acc) w.
Proof.
  intros H. simpl. fold (date_str s). rewrite H, bind_run. unfold utcnow.
  destruct (age_days (clock w) ymd >? retain_days) eqn:Hage.
  - apply age_days_gt in Hage. apply Z.leb_le in Hage. now rewrite Hage.
  - destruct (Z.leb_spec (midnight ymd + (retain_days + 1) * Calendar.us_per_day) (clock w))
      as [Hle|_]; [|reflexivity].
    apply age_days_gt in Hle. congruence.
Qed.

(** Runs rule 1 over a concrete list at a time known only by bounds. *)
Ltac run_rule1 :=
  repeat (erewrite rule1_cons_parsed by (vm_compute; reflexivity);
          match goal with
          | |- context [?a <=? clock ?w] =>
              let v := eval vm_compute in a in
              change a with v;
              destruct (Z.leb_spec v (clock w)); [try lia | try lia]
          end).

(** C7: on the two scenarios of the specification, at any time of the day
    2024-01-05, the deletion set is [{D3, D4}] for five daily backups with
    [max_count = 3] and a large [retain_days], and [{D1}] for backups of
    today, forty days ago and two days ago with [retain_days = 3] and
    [max_count = 10]. *)
Theorem retention_scenarios w :
  midnight (2024, 1, 5) <= clock w < midnight (2024, 1, 6) ->
  deletion_set 100000 3 (sorted_backups scenario1) w = (Ok {[ "D3"; "D4" ]}, w) /\
  deletion_set 3 10 (sorted_backups scenario2) w = (Ok {[ "D1" ]}, w).
Proof.
  intros Hw.
  let v := eval vm_compute in (midnight (2024, 1, 5)) in
  change (midnight (2024, 1, 5)) with v in Hw.
  let v := eval vm_compute in (midnight (2024, 1, 6)) in
  change (midnight (2024, 1, 6)) with v in Hw.
  split.
  - let l := eval vm_compute in (sorted_backups scenario1) in
    change (sorted_backups scenario1) with l.
    unfold deletion_set. rewrite bind_run. cbn [tail].
    run_rule1. cbn [rule1]. unfold mret, M_ret, ret. vm_compute. reflexivity.
  - let l := eval vm_compute in (sorted_backups scenario2) in
    change (sorted_backups scenario2) with l.
    unfold deletion_set. rewrite bind_run. cbn [tail].
    run_rule1. cbn [rule1]. unfold mret, M_ret, ret. vm_compute. reflexivity.
Qed.

(** ** Concrete runs of the retention rules *)

Definition at_time (now : Z) : World := {| clock := now; pending := []; trace := [] |}.

(** Noon of 2024-01-05. *)
Definition noon : Z := midnight (2024, 1, 5) + 12 * 3600 * Calendar.us_per_second.

Lemma retention_scenarios_witness :
  deletion_set 100000 3 (sorted_backups scenario1) (at_time noon)
    = (Ok {[ "D3"; "D4" ]}, at_time noon) /\
  deletion_set 3 10 (sorted_backups scenario2) (at_time noon)
    = (Ok {[ "D1" ]}, at_time noon).
Proof.
  apply (retention_scenarios (at_time noon)).
  split; [apply Z.leb_le | apply Z.ltb_lt]; vm_compute; reflexivity.
Defined.

Lemma newest_backup_never_selected_witness :
  exists D,
    deletion_set 3 3
      (backup "D0" "20240105" ::
       [backup "D1" "20240104"; backup "D2" "20240103";
        backup "D3" "20240102"; backup "D4" "20240101"]) (at_time noon)
      = (Ok D, at_time noon) /\
    (forall x, x ∈ D ->
       exists i s, (1 <= i)%nat /\
         (backup "D0" "20240105" ::
          [backup "D1" "20240104"; backup "D2" "20240103";
           backup "D3" "20240102"; backup "D4" "20240101"]) !! i = Some s /\
         snap_id s = x) /\
    (NoDup (snap_id <$> scenario1) -> snap_id (backup "D0" "20240105") ∉ D).
Proof.
  apply (newest_backup_never_selected scenario1 3 3 (at_time noon)).
  - lia.
  - lia.
  - vm_compute. reflexivity.
Defined.

Lemma age_rule_strict_witness :
  exists D,
    rule1 3 (tail (sorted_backups scenario2)) ∅ (at_time noon) = (Ok D, at_time noon) /\
    (snap_id (backup "D1" "20231126") ∈ D <->
       3 < (clock (at_time noon) - midnight (2023, 11, 26)) / Calendar.us_per_day) /\
    (snap_id (backup "D1" "20231126") ∈ D <->
       midnight (2023, 11, 26) + (3 + 1) * Calendar.us_per_day <= clock (at_time noon)) /\
    (clock (at_time noon) / Calendar.us_per_day = Calendar.days_from_civil 2023 11 26 + 3 ->
       snap_id (backup "D1" "20231126") ∉ D).
Proof.
  apply (age_rule_strict 3 (sorted_backups scenario2) (at_time noon)
           (backup "D1" "20231126") 2023 11 26).
  - apply (bool_decide_unpack _). vm_compute. exact I.
  - apply (bool_decide_unpack _). vm_compute. exact I.
  - vm_compute. reflexivity.
Defined.

(** A backup exactly [retain_days] days old is kept, one a day older goes. *)
Example age_rule_boundary :
  fst (rule1 3 [backup "A" "20240102"; backup "B" "20240101"] ∅ (at_time noon))
    = Ok {[ "B" ]}.
Proof. vm_compute. reflexivity. Qed.

(** The digits of a date need not be ASCII.  The fullwidth digit six
    (U+FF16, in UTF-8 the bytes EF BC 96) at the end of a date is read as
    a 6, so a backup dated that way is forty days old on 2024-01-05 and
    rule 1 selects it. *)
Definition fullwidth_six : string :=
  String (ascii_of_nat 239) (String (ascii_of_nat 188) (String (ascii_of_nat 150) "")).

Example strptime_fullwidth_digit :
  Strptime.strptime_Ymd ("2023112" +:+ fullwidth_six) = Some (2023, 11, 26) /\
  Strptime.strptime_Ymd ("2023112" +:+ String (ascii_of_nat 239) "") = None /\
  fst (deletion_set 3 10
         (sorted_backups [backup "old" ("2023112" +:+ fullwidth_six);
                          backup "new" "20240105"])
         (at_time noon)) = Ok {[ "old" ]}.
Proof. vm_compute. repeat split; reflexivity. Qed.

(** A listing with a backup whose description does not carry a date in the
    expected format. *)
Definition misdated : list Snapshot :=
  [ backup "good" "20240105"; backup "odd" "2024-01-04" ].

Lemma unparseable_backup_only_count_rule_witness :
  (exists D1,
     rule1 3 (tail (sorted_backups misdated)) ∅ (at_time noon) = (Ok D1, at_time noon) /\
     snap_id (backup "odd" "2024-01-04") ∉ D1) /\
  (exists D,
     deletion_set 3 1 (sorted_backups misdated) (at_time noon) = (Ok D, at_time noon) /\
     (snap_id (backup "odd" "2024-01-04") ∈ D <->
        backup "odd" "2024-01-04" ∈ Py.slice_from 1 (sorted_backups misdated))).
Proof.
  apply (unparseable_backup_only_count_rule 3 1 (sorted_backups misdated) (at_time noon)
           (backup "odd" "2024-01-04")).
  - apply (bool_decide_unpack _). vm_compute. exact I.
  - apply (bool_decide_unpack _). vm_compute. exact I.
  - vm_compute. reflexivity.
Defined.

(** The claim that an unparseable backup is never in the deletion set, for
    any [retain_days] and [max_count], fails: with [max_count = 1] the
    misdated backup is the second newest and rule 2 selects it. *)
Lemma unparseable_backup_can_be_pruned :
  ~ (forall retain_days max_count snaps w s D w',
       s ∈ sorted_backups snaps ->
       Strptime.strptime_Ymd (date_str s) = None ->
       deletion_set retain_days max_count (sorted_backups snaps) w = (Ok D, w') ->
       snap_id s ∉ D).
Proof.
  intros H.
  apply (H 3 1 misdated (at_time noon) (backup "odd" "2024-01-04") {[ "odd" ]} (at_time noon)).
  - apply (bool_decide_unpack _). vm_compute. exact I.
  - vm_compute. reflexivity.
  - vm_compute. reflexivity.
  - apply elem_of_singleton. reflexivity.
Qed.

(** The whole of [prune_old_snapshots] on that listing: the misdated
    backup is deleted at the provider. *)
Example misdated_backup_deleted :
  let w := {| clock := noon;
              pending := [ ok_exchange (snapshots_body misdated);
                           {| latency := 100000;
                              outcome := Responded {| status_code := 204; content := NoContent |} |} ];
              trace := [] |} in
  fst (prune_old_snapshots 3 1 w) = Ok tt /\
  List.filter is_http (trace (snd (prune_old_snapshots 3 1 w))) =
    [ EvHttp "GET" "https://api.vultr.com/v2/snapshots" NoPayload
        (Responded {| status_code := 200; content := Json (snapshots_body misdated) |});
      EvHttp "DELETE" "https://api.vultr.com/v2/snapshots/odd" NoPayload
        (Responded {| status_code := 204; content := NoContent |}) ].
Proof. vm_compute. split; reflexivity. Qed.

(** ** A logic of emitted events

    [emits m P]: whenever [m] runs, the trace grows by some events [evs],
    and [P] holds of the result and of [evs]. *)

Definition emits {A} (m : M A) (P : Result A -> list Event -> Prop) : Prop :=
  forall w r w', m w = (r, w') -> exists evs, trace w' = trace w ++ evs /\ P r evs.

Lemma emits_conseq {A} (m : M A) (P Q : Result A -> list Event -> Prop) :
  emits m P -> (forall r evs, P r evs -> Q r evs) -> emits m Q.
Proof.
  intros Hm HPQ w r w' H. destruct (Hm w r w' H) as (evs & Ht & HP). eauto.
Qed.

Lemma emits_and {A} (m : M A) (P Q : Result A -> list Event -> Prop) :
  emits m P -> emits m Q -> emits m (fun r evs => P r evs /\ Q r evs).
Proof.
  intros HP HQ w r w' H.
  destruct (HP w r w' H) as (evs & Ht & Hp). destruct (HQ w r w' H) as (evs' & Ht' & Hq).
  assert (evs = evs') by (apply (app_inv_head (trace w)); congruence). subst evs'.
  exists evs. auto.
Qed.

Lemma emits_ret {A} (a : A) (P : Result A -> list Event -> Prop) :
  P (Ok a) [] -> emits (mret a) P.
Proof. intros HP w r w' H. invert H. exists []. now rewrite app_nil_r. Qed.

Lemma emits_raise {A} (e : Exn) (P : Result A -> list Event -> Prop) :
  P (Raise e) [] -> emits (raise e) P.
Proof. intros HP w r w' H. invert H. exists []. now rewrite app_nil_r. Qed.

Lemma emits_log lvl msg (P : Result unit -> list Event -> Prop) :
  P (Ok tt) [EvLog lvl msg] -> emits (log lvl msg) P.
Proof. intros HP w r w' H. invert H. eexists. split; [reflexivity | exact HP]. Qed.

Lemma emits_sleep s (P : Result unit -> list Event -> Prop) :
  P (Ok tt) [EvSleep s] -> emits (sleep s) P.
Proof. intros HP w r w' H. invert H. eexists. split; [reflexivity | exact HP]. Qed.

Lemma emits_clock (P : Result Z -> list Event -> Prop) :
  (forall now, P (Ok now) []) -> emits time_time P /\ emits utcnow P.
Proof.
  intros HP. split; intros w r w' H; invert H; exists []; now rewrite app_nil_r.
Qed.

Lemma emits_subscript {A} key (field : option A) (P : Result A -> list Event -> Prop) :
  (forall a, field = Some a -> P (Ok a) []) ->
  (field = None -> P (Raise (KeyError key)) []) ->
  emits (subscript key field) P.
Proof.
  intros Hs Hn. destruct field; simpl; [apply emits_ret | apply emits_raise]; auto.
Qed.

Lemma emits_bind {A B} (m : M A) (k : A -> M B)
    (Q : Result A -> list Event -> Prop) (P : Result B -> list Event -> Prop) :
  emits m Q ->
  (forall a evs1, Q (Ok a) evs1 -> emits (k a) (fun r evs2 => P r (evs1 ++ evs2))) ->
  (forall e evs1, Q (Raise e) evs1 -> P (Raise e) evs1) ->
  emits (m ≫= k) P.
Proof.
  intros Hm Hk He w r w' H. rewrite bind_run in H.
  destruct (m w) as [[a|e] w1] eqn:Hmw.
  - destruct (Hm _ _ _ Hmw) as (evs1 & Ht1 & HQ).
    destruct (Hk a evs1 HQ _ _ _ H) as (evs2 & Ht2 & HP).
    exists (evs1 ++ evs2). split; [|exact HP]. now rewrite Ht2, Ht1, app_assoc.
  - invert H. destruct (Hm _ _ _ Hmw) as (evs1 & Ht1 & HQ). eauto.
Qed.

Lemma emits_try {A} (m : M A) (h : Exn -> M A)
    (Q P : Result A -> list Event -> Prop) :
  emits m Q ->
  (forall a evs, Q (Ok a) evs -> P (Ok a) evs) ->
  (forall e evs, Q (Raise e) evs -> is_Exception e = false -> P (Raise e) evs) ->
  (forall e evs1, Q (Raise e) evs1 -> is_Exception e = true ->
     emits (h e) (fun r evs2 => P r (evs1 ++ evs2))) ->
  emits (try_except_Exception m h) P.
Proof.
  intros Hm Hok Hpass Hcatch w r w' H. unfold try_except_Exception in H.
  destruct (m w) as [[a|e] w1] eqn:Hmw.
  - invert H. destruct (Hm _ _ _ Hmw) as (evs & Ht & HQ). eauto.
  - destruct (Hm _ _ _ Hmw) as (evs1 & Ht1 & HQ).
    destruct (is_Exception e) eqn:He.
    + destruct (Hcatch e evs1 HQ He _ _ _ H) as (evs2 & Ht2 & HP).
      exists (evs1 ++ evs2). split; [|exact HP]. now rewrite Ht2, Ht1, app_assoc.
    + invert H. eauto.
Qed.

(** The loop rule: [I] holds of the events of the rounds that fell
    through. *)
Lemma emits_while {A} deadline (body : M (option A)) Hbody (orelse : M A)
    (Qb : Result (option A) -> list Event -> Prop)
    (Qo : Result A -> list Event -> Prop)
    (I : list Event -> Prop) (P : Result A -> list Event -> Prop) :
  emits body Qb ->
  emits orelse Qo ->
  I [] ->
  (forall acc evs, I acc -> Qb (Ok None) evs -> I (acc ++ evs)) ->
  (forall acc evs a, I acc -> Qb (Ok (Some a)) evs -> P (Ok a) (acc ++ evs)) ->
  (forall acc evs e, I acc -> Qb (Raise e) evs -> P (Raise e) (acc ++ evs)) ->
  (forall acc evs r, I acc -> Qo r evs -> P r (acc ++ evs)) ->
  emits (while_before deadline body Hbody orelse) P.
Proof.
  intros Hb Ho HI0 Hnext Hret Hraise Hexit.
  assert (Hgen : forall n w, length (pending w) = n -> forall acc, I acc ->
    forall r w', while_before deadline body Hbody orelse w = (r, w') ->
    exists evs, trace w' = trace w ++ evs /\ P r (acc ++ evs)).
  { induction n as [n IH] using lt_wf_ind. intros w Hn acc Hacc r w' H.
    rewrite while_before_equation_1 in H. simpl in H.
    destruct (clock w <? deadline).
    - simpl in H. destruct (body w) as [[[a|]|e] w1] eqn:Hbw; simpl in H.
      + invert H. destruct (Hb _ _ _ Hbw) as (evs & Ht & HQ). eauto.
      + destruct (Hb _ _ _ Hbw) as (evs1 & Ht1 & HQ).
        pose proof (Hbody _ _ Hbw) as Hdec.
        destruct (IH (length (pending w1)) ltac:(lia) w1 eq_refl (acc ++ evs1)
                    (Hnext _ _ Hacc HQ) _ _ H) as (evs2 & Ht2 & HP).
        exists (evs1 ++ evs2). split; [now rewrite Ht2, Ht1, app_assoc|].
        now rewrite app_assoc.
      + invert H. destruct (Hb _ _ _ Hbw) as (evs & Ht & HQ). eauto.
    - simpl in H. destruct (Ho _ _ _ H) as (evs & Ht & HQ). eauto. }
  intros w r w' H. destruct (Hgen _ w eq_refl [] HI0 _ _ H) as (evs & Ht & HP).
  exists evs. auto.
Qed.

(** ** Pruning failures inside [action_stop] *)

(** [SystemExit] is not an [Exception]: the [except Exception] clause lets
    it through. *)
Lemma try_except_SystemExit {A} (m : M A) (h : Exn -> M A) w code w' :
  m w = (Raise (SystemExit code), w') ->
  try_except_Exception m h w = (Raise (SystemExit code), w').
Proof. intros H. unfold try_except_Exception. now rewrite H. Qed.

Definition snapshot_body (s : Snapshot) : Body :=
  {| instances := None; instance := None; snapshots := None; snapshot := Some s |}.

Definition status_exchange (code : Z) : Exchange :=
  {| latency := 150000; outcome := Responded {| status_code := code; content := NoContent |} |}.

(** An answer whose content is not JSON, an HTML page of a proxy say. *)
Definition junk_exchange (code : Z) : Exchange :=
  {| latency := 150000; outcome := Responded {| status_code := code; content := Undecodable |} |}.

(** A stop run in which everything up to the destruction of the instance
    succeeds and the listing made by [prune_old_snapshots] is answered with
    [answer]. *)
Definition stop_world (answer : list Exchange) : World :=
  {| clock := noon;
     pending :=
       [ ok_exchange (instances_body [live_instance]);
         ok_exchange (snapshot_body
           {| snap_id := "snap-9"; snap_description := "Quant-Backup-20240105";
              snap_status := "pending" |});
         ok_exchange (snapshot_body
           {| snap_id := "snap-9"; snap_description := "Quant-Backup-20240105";
              snap_status := "complete" |});
         status_exchange 204 ] ++ answer;
     trace := [] |}.

(** The outcome of a stop run whose pruning step was cut short. *)
Definition aborted_after_destroy (answer : list Exchange) : Prop :=
  let run := action_stop witness_config (stop_world answer) in
  (fst run = Raise (SystemExit 1) /\
  EvHttp "DELETE" "https://api.vultr.com/v2/instances/i-1" NoPayload
    (Responded {| status_code := 204; content := NoContent |}) ∈ trace (snd run) /\
  (EvLog WARNING "Snapshot pruning failed (non-fatal): %s" ∉ trace (snd run)) /\
  (EvLog INFO "Stop sequence complete." ∉ trace (snd run))).

(** C2, on the code: when the listing request of the pruning step is
    answered with 404, or with 503 on each of its three attempts,
    [action_stop] ends in [SystemExit(1)] after the instance has been
    destroyed; no warning is logged and the final line
    "Stop sequence complete." is never reached.  The claim that every
    pruning failure is caught does not hold of the code. *)
Theorem action_stop_prune_failure_escapes :
  aborted_after_destroy [status_exchange 404] /\
  aborted_after_destroy [status_exchange 503; status_exchange 503; status_exchange 503].
Proof.
  unfold aborted_after_destroy.
  split; repeat split;
    first [ vm_compute; reflexivity
          | apply (bool_decide_unpack _); vm_compute; exact I ].
Qed.

(** The same run completes when pruning finds nothing to do. *)
Example action_stop_completes :
  let run := action_stop witness_config (stop_world [ok_exchange (snapshots_body [])]) in
  (fst run = Ok tt /\ EvLog INFO "Stop sequence complete." ∈ trace (snd run)).
Proof.
  split; [vm_compute; reflexivity | apply (bool_decide_unpack _); vm_compute; exact I].
Qed.

(** ** What a call of [_request] leaves in the trace *)

(** The body a response is decoded to, when its status is a success and
    its content is empty or decodes. *)
Definition response_body (out : HttpOutcome) : option Body :=
  match out with
  | Responded resp => if is_success (status_code resp) then decoded resp else None
  | RequestException => None
  end.

(** Log lines are those of [_request]. *)
Definition req_log (e : Event) : bool :=
  match e with
  | EvLog _ msg =>
      String.eqb msg "All %d attempts failed for %s %s"
      || String.eqb msg "Client error %s: %s"
      || String.eqb msg "Attempt %d/%d - HTTP %s: %s"
      || String.eqb msg "Attempt %d/%d - network error: %s"
  | _ => true
  end.

Lemma request_loop_logs method path url json retries attempts :
  emits (request_loop method path url json retries attempts)
        (fun _ evs => Forall (fun e => req_log e = true) evs).
Proof.
  induction attempts as [|a rest IH]; simpl.
  - intros w r w' H. mrun H. invert H.
    eexists. split; [reflexivity | repeat constructor].
  - intros w r w' H. rewrite bind_run in H. unfold requests_request in H at 1.
    assert (Hgo : forall w1 evs1,
      trace w1 = trace w ++ evs1 -> Forall (fun e => req_log e = true) evs1 ->
      ((if a <? retries then sleep (10 * a) else mret tt) ≫=
         (fun _ => request_loop method path url json retries rest)) w1 = (r, w') ->
      exists evs, trace w' = trace w ++ evs /\ Forall (fun e => req_log e = true) evs).
    { intros w1 evs1 Ht1 Hf1 Hrun. rewrite bind_run in Hrun.
      destruct (a <? retries); simpl in Hrun;
        apply IH in Hrun as (evs2 & Ht2 & Hf2); simpl in Ht2; rewrite Ht1 in Ht2.
      - exists (evs1 ++ [EvSleep (10 * a)] ++ evs2). split.
        + rewrite Ht2. now rewrite <- !app_assoc.
        + apply Forall_app; split; [exact Hf1|]. constructor; [reflexivity | exact Hf2].
      - exists (evs1 ++ evs2). split; [now rewrite Ht2, app_assoc|].
        apply Forall_app; auto. }
    destruct (pending w) as [|x ps].
    + rewrite bind_run in H. simpl in H.
      eapply Hgo in H; [exact H | simpl; rewrite <- app_assoc; reflexivity |].
      repeat constructor.
    + destruct (outcome x) as [resp|].
      * destruct (is_success (status_code resp)).
        { destruct (decoded resp) as [b0|].
          - invert H. eexists. split; [reflexivity | repeat constructor].
          - rewrite bind_run in H. simpl in H.
            eapply Hgo in H; [exact H | simpl; rewrite <- app_assoc; reflexivity |].
            repeat constructor. }
        destruct (is_client_error (status_code resp)).
        { mrun H. invert H. eexists. split; [simpl; rewrite <- app_assoc; reflexivity|].
          repeat constructor. }
        rewrite bind_run in H. simpl in H.
        eapply Hgo in H; [exact H | simpl; rewrite <- app_assoc; reflexivity |].
        repeat constructor.
      * rewrite bind_run in H. simpl in H.
        eapply Hgo in H; [exact H | simpl; rewrite <- app_assoc; reflexivity |].
        repeat constructor.
Qed.

Lemma served_ok n outs r b :
  served n outs r -> r = Ok b ->
  exists out, out ∈ outs /\ response_body out = Some b.
Proof.
  induction 1 as [|n resp b0 Hs Hd|n resp Hc|n out outs r Hr Hrun IH]; intros Hb.
  - discriminate.
  - exists (Responded resp). split; [left|]. simpl. rewrite Hs. congruence.
  - discriminate.
  - destruct (IH Hb) as (o & Ho & Hbody). exists o. split; [now right | exact Hbody].
Qed.

Lemma served_body_in n outs r out b :
  served n outs r -> out ∈ outs -> response_body out = Some b -> r = Ok b.
Proof.
  induction 1 as [|n resp b0 Hs Hd|n resp Hc|n out0 outs r Hr Hrun IH]; intros Hin Hbody.
  - inversion Hin.
  - apply list_elem_of_singleton in Hin as ->. simpl in Hbody. rewrite Hs in Hbody. congruence.
  - apply list_elem_of_singleton in Hin as ->. unfold client_error in Hc. simpl in Hbody.
    destruct (is_success (status_code resp)); simpl in Hc; discriminate.
  - apply elem_of_cons in Hin as [->|Hin]; [|auto].
    destruct out0 as [resp|]; simpl in *; [|discriminate].
    destruct (is_success (status_code resp)); [|discriminate].
    destruct (decoded resp); discriminate.
Qed.

Lemma schedule_outs a outs out :
  KHttp out ∈ schedule a outs <-> out ∈ outs.
Proof.
  revert a. induction outs as [|o [|o' outs] IH]; intros a.
  - simpl. split; inversion 1.
  - simpl. rewrite !list_elem_of_singleton. split; congruence.
  - change (schedule a (o :: o' :: outs))
      with (KHttp o :: KSleep (10 * a) :: schedule (a + 1) (o' :: outs)).
    rewrite !elem_of_cons, IH, !elem_of_cons. split.
    + intros [H|[H|H]]; [left; congruence | discriminate | right; exact H].
    + intros [->|H]; auto.
Qed.

Lemma kinds_http evs out :
  KHttp out ∈ kinds evs <-> exists m u j, EvHttp m u j out ∈ evs.
Proof.
  unfold kinds. rewrite list_elem_of_omap. split.
  - intros ([m u j o|s|l msg] & Hin & Hk); simpl in Hk; try discriminate.
    invert Hk. eauto.
  - intros (m & u & j & Hin). exists (EvHttp m u j out). auto.
Qed.

Lemma calls_only_in method path json evs m u j out :
  calls_only method path json evs -> EvHttp m u j out ∈ evs ->
  m = method /\ u = BASE_URL +:+ path /\ j = json.
Proof.
  unfold calls_only. rewrite Forall_forall. intros Hall Hin.
  first [exact (Hall _ Hin) | apply list_elem_of_In in Hin; exact (Hall _ Hin)].
Qed.

Lemma request_facts method path retries json w res w' :
  _request method path retries json w = (res, w') ->
  exists evs,
    trace w' = trace w ++ evs /\
    calls_only method path json evs /\
    Forall (fun e => req_log e = true) evs /\
    (forall b, res = Ok b ->
       exists out, EvHttp method (BASE_URL +:+ path) json out ∈ evs /\
                   response_body out = Some b) /\
    (forall m u j out b,
       EvHttp m u j out ∈ evs -> response_body out = Some b -> res = Ok b) /\
    (forall e, res = Raise e -> e = SystemExit 1).
Proof.
  intros H. pose proof H as Hlogs.
  apply _request_served in H as (evs & outs & Ht & Hc & Hk & Hs).
  unfold _request in Hlogs. apply request_loop_logs in Hlogs as (evs' & Ht' & Hl).
  assert (evs' = evs) by (apply (app_inv_head (trace w)); congruence). subst evs'.
  exists evs. repeat split; auto.
  - intros b Hb. destruct (served_ok _ _ _ _ Hs Hb) as (out & Hin & Hbody).
    apply (schedule_outs 1) in Hin. rewrite <- Hk in Hin.
    apply kinds_http in Hin as (m & u & j & Hin).
    destruct (calls_only_in _ _ _ _ _ _ _ _ Hc Hin) as (-> & -> & ->). eauto.
  - intros m u j out b Hin Hbody. eapply served_body_in; eauto.
    apply (schedule_outs 1). rewrite <- Hk. apply kinds_http. eauto.
  - intros e He. eapply served_raise; eauto.
Qed.


(** ** Trace properties that sequencing preserves

    A property [P] of the exception a fragment ended with ([None]: it ran
    to its end) and of the events it emitted is sequential when it holds of
    the empty run, and of a completed run followed by any run of which it
    holds.  Such a property is carried through the script statement by
    statement. *)

Definition exn_of {A} (r : Result A) : option Exn :=
  match r with Ok _ => None | Raise e => Some e end.

Record sequential (P : option Exn -> list Event -> Prop) : Prop := {
  seq_nil : P None [];
  seq_app : forall x evs1 evs2, P None evs1 -> P x evs2 -> P x (evs1 ++ evs2)
}.

Definition respects {A} (P : option Exn -> list Event -> Prop) (m : M A) : Prop :=
  emits m (fun r evs => P (exn_of r) evs).

Section Respects.
Context (P : option Exn -> list Event -> Prop) (HP : sequential P).

Lemma respects_ret {A} (a : A) : respects P (mret a).
Proof. apply emits_ret. apply (seq_nil P HP). Qed.

Lemma respects_raise {A} (e : Exn) : P (Some e) [] -> respects P (@raise A e).
Proof. intros H. apply emits_raise. exact H. Qed.

Lemma respects_log lvl msg : P None [EvLog lvl msg] -> respects P (log lvl msg).
Proof. intros H. apply emits_log. exact H. Qed.

Lemma respects_sleep s : P None [EvSleep s] -> respects P (sleep s).
Proof. intros H. apply emits_sleep. exact H. Qed.

Lemma respects_time : respects P time_time.
Proof.
  destruct (emits_clock (fun r evs => P (exn_of r) evs)) as [H _]; [|exact H].
  intros now. apply (seq_nil P HP).
Qed.

Lemma respects_utcnow : respects P utcnow.
Proof.
  destruct (emits_clock (fun r evs => P (exn_of r) evs)) as [_ H]; [|exact H].
  intros now. apply (seq_nil P HP).
Qed.

Lemma respects_subscript {A} key (field : option A) :
  P (Some (KeyError key)) [] -> respects P (subscript key field).
Proof.
  intros H. apply emits_subscript; intros; [apply (seq_nil P HP) | exact H].
Qed.

(** A fragment that emits nothing and always runs to its end. *)
Lemma respects_silent {A} (m : M A) :
  (forall w, exists a, m w = (Ok a, w)) -> respects P m.
Proof.
  intros H w r w' Hrun. destruct (H w) as [a Ha]. rewrite Ha in Hrun. invert Hrun.
  exists []. split; [now rewrite app_nil_r | apply (seq_nil P HP)].
Qed.

Lemma respects_bind {A B} (m : M A) (k : A -> M B) :
  respects P m -> (forall a, respects P (k a)) -> respects P (m ≫= k).
Proof.
  intros Hm Hk. eapply emits_bind; [exact Hm | |].
  - intros a evs1 H1. eapply emits_conseq; [apply Hk|].
    intros r evs2 H2. apply (seq_app P HP); [exact H1 | exact H2].
  - intros e evs1 H. exact H.
Qed.

(** A statement that logs an error and exits. *)
Lemma respects_fatal {A} msg :
  P (Some (SystemExit 1)) [EvLog ERROR msg] ->
  respects P (log ERROR msg ≫= fun _ => @raise A (SystemExit 1)).
Proof.
  intros H w r w' Hrun. mrun Hrun. invert Hrun.
  eexists. split; [reflexivity | exact H].
Qed.

Lemma respects_while {A} deadline (body : M (option A)) Hbody (orelse : M A) :
  respects P body -> respects P orelse ->
  respects P (while_before deadline body Hbody orelse).
Proof.
  intros Hb Ho.
  eapply (emits_while deadline body Hbody orelse _ _ (fun acc => P None acc));
    [exact Hb | exact Ho | apply (seq_nil P HP) | | | |].
  - intros acc evs HI HQ. apply (seq_app P HP); [exact HI | exact HQ].
  - intros acc evs a HI HQ. apply (seq_app P HP); [exact HI | exact HQ].
  - intros acc evs e HI HQ. apply (seq_app P HP); [exact HI | exact HQ].
  - intros acc evs r HI HQ. apply (seq_app P HP); [exact HI | exact HQ].
Qed.

(** [try ... except Exception]: the handler runs after a run that ended
    in an exception, so [P] has to survive the catch. *)
Lemma respects_try {A} (m : M A) (h : Exn -> M A) :
  respects P m ->
  (forall e evs, is_Exception e = true -> P (Some e) evs -> P None evs) ->
  (forall e, is_Exception e = true -> respects P (h e)) ->
  respects P (try_except_Exception m h).
Proof.
  intros Hm Hrec Hh. eapply emits_try; [exact Hm | | |].
  - intros a evs H. exact H.
  - intros e evs H _. exact H.
  - intros e evs1 H He. eapply emits_conseq; [apply (Hh e He)|].
    intros r evs2 H2. apply (seq_app P HP); [exact (Hrec e evs1 He H) | exact H2].
Qed.

End Respects.

(** *** Laws that carry a property through the whole script

    [C] names the calls a fragment may make.  A property is lawful for [C]
    when it is sequential, holds of every call in [C] made through
    [_request], of the script's own log lines and sleeps, of its fatal
    exits and missing keys, and survives [except Exception]. *)

Record lawful (C : string -> string -> Payload -> Prop)
    (P : option Exn -> list Event -> Prop) : Prop := {
  law_seq : sequential P;
  law_request : forall m p r j, C m p j -> respects P (_request m p r j);
  law_info : forall msg, P None [EvLog INFO msg];
  law_warning : forall msg, P None [EvLog WARNING msg];
  law_sleep : forall s, P None [EvSleep s];
  law_fatal : forall msg, P (Some (SystemExit 1)) [EvLog ERROR msg];
  law_key : forall k, P (Some (KeyError k)) [];
  law_catch : forall e evs, is_Exception e = true -> P (Some e) evs -> P None evs
}.

(** One step through the statement at the head of a fragment. *)
Ltac lawful_step HL :=
  lazymatch goal with
  | |- respects _ (log ERROR _ ≫= fun _ => raise _) =>
      apply respects_fatal; apply (law_fatal _ _ HL)
  | |- respects _ (_ ≫= _) =>
      apply (respects_bind _ (law_seq _ _ HL)); [|intros ?]
  | |- respects _ (mret _) => apply (respects_ret _ (law_seq _ _ HL))
  | |- respects _ (log INFO _) => apply respects_log; apply (law_info _ _ HL)
  | |- respects _ (log WARNING _) => apply respects_log; apply (law_warning _ _ HL)
  | |- respects _ (sleep _) => apply respects_sleep; apply (law_sleep _ _ HL)
  | |- respects _ time_time => apply (respects_time _ (law_seq _ _ HL))
  | |- respects _ utcnow => apply (respects_utcnow _ (law_seq _ _ HL))
  | |- respects _ (subscript _ _) =>
      apply (respects_subscript _ (law_seq _ _ HL)); apply (law_key _ _ HL)
  | |- respects _ (_request _ _ _ _) => apply (law_request _ _ HL)
  | |- respects _ (while_before _ _ _ _) =>
      apply (respects_while _ (law_seq _ _ HL))
  | |- respects _ (let _ := _ in _) => cbv zeta
  | |- respects _ (if ?c then _ else _) => destruct c
  | |- respects _ (match ?x with _ => _ end) => destruct x
  end.

Section Lawful.
Context (C : string -> string -> Payload -> Prop)
        (P : option Exn -> list Event -> Prop) (HL : lawful C P).

Lemma find_instance_lawful :
  C "GET" "/instances" NoPayload -> respects P find_instance.
Proof. intros Hc. unfold find_instance. repeat lawful_step HL. exact Hc. Qed.

Lemma latest_backup_snapshot_lawful :
  C "GET" "/snapshots" NoPayload -> respects P latest_backup_snapshot.
Proof.
  intros Hc. unfold latest_backup_snapshot.
  lawful_step HL; [lawful_step HL; exact Hc|]. cbv zeta.
  destruct (List.filter is_complete_backup (get_list (snapshots a))) as [|b bs];
    [lawful_step HL|].
  destruct (Py.sort_desc snap_description (b :: bs)) as [|x rest] eqn:Hs.
  - apply sort_desc_nil in Hs. discriminate.
  - repeat lawful_step HL.
Qed.

Lemma _wait_for_instance_lawful instance_id timeout :
  C "GET" ("/instances/" +:+ instance_id) NoPayload ->
  respects P (_wait_for_instance instance_id timeout).
Proof.
  intros Hc. unfold _wait_for_instance, _wait_for_instance_body.
  repeat lawful_step HL. exact Hc.
Qed.

Lemma create_instance_lawful cfg :
  C "GET" "/snapshots" NoPayload ->
  (forall sid, C "POST" "/instances"
     (InstancePayload (REGION cfg) (PLAN cfg) sid LABEL "disabled" (user_data cfg))) ->
  (forall id, C "GET" ("/instances/" +:+ id) NoPayload) ->
  respects P (create_instance cfg).
Proof.
  intros Hl Hp Hg. unfold create_instance.
  lawful_step HL; [now apply latest_backup_snapshot_lawful|]. cbv zeta.
  lawful_step HL; [lawful_step HL|].
  lawful_step HL; [lawful_step HL; apply Hp|].
  lawful_step HL; [lawful_step HL|].
  lawful_step HL; [lawful_step HL|].
  apply _wait_for_instance_lawful, Hg.
Qed.

Lemma destroy_instance_lawful instance_id :
  C "DELETE" ("/instances/" +:+ instance_id) NoPayload ->
  respects P (destroy_instance instance_id).
Proof. intros Hc. unfold destroy_instance. repeat lawful_step HL. exact Hc. Qed.

Lemma create_snapshot_lawful instance_id :
  (forall desc, C "POST" "/snapshots" (SnapshotPayload instance_id desc)) ->
  respects P (create_snapshot instance_id).
Proof. intros Hc. unfold create_snapshot. repeat lawful_step HL. apply Hc. Qed.

Lemma wait_for_snapshot_lawful snap_id timeout :
  C "GET" ("/snapshots/" +:+ snap_id) NoPayload ->
  respects P (wait_for_snapshot snap_id timeout).
Proof.
  intros Hc. unfold wait_for_snapshot, wait_for_snapshot_body.
  repeat lawful_step HL. exact Hc.
Qed.

Lemma deletion_set_lawful retain_days max_count backups :
  respects P (deletion_set retain_days max_count backups).
Proof.
  apply (respects_silent _ (law_seq _ _ HL)). intros w.
  destruct (deletion_set_spec retain_days max_count backups w) as (D & H & _). eauto.
Qed.

Lemma delete_selected_lawful backups to_delete :
  (forall s, s ∈ backups -> snap_id s ∈ to_delete ->
     C "DELETE" ("/snapshots/" +:+ snap_id s) NoPayload) ->
  respects P (delete_selected backups to_delete).
Proof.
  induction backups as [|s rest IH]; intros Hc; simpl.
  - lawful_step HL.
  - lawful_step HL.
    + destruct (decide (snap_id s ∈ to_delete)) as [Hin|_];
        repeat lawful_step HL. apply Hc; [left | exact Hin].
    + apply IH. intros s' Hs'. apply Hc. now right.
Qed.

Lemma prune_old_snapshots_lawful retain_days max_count :
  C "GET" "/snapshots" NoPayload ->
  (forall sid, C "DELETE" ("/snapshots/" +:+ sid) NoPayload) ->
  respects P (prune_old_snapshots retain_days max_count).
Proof.
  intros Hl Hd. unfold prune_old_snapshots.
  lawful_step HL; [lawful_step HL; exact Hl|]. cbv zeta.
  destruct (List.filter is_backup (get_list (snapshots a))) as [|b bs];
    [lawful_step HL|].
  lawful_step HL; [apply deletion_set_lawful|].
  destruct (decide (a0 = ∅)); repeat lawful_step HL.
  apply delete_selected_lawful. intros s _ _. apply Hd.
Qed.

Lemma action_start_lawful cfg :
  C "GET" "/instances" NoPayload ->
  C "GET" "/snapshots" NoPayload ->
  (forall sid, C "POST" "/instances"
     (InstancePayload (REGION cfg) (PLAN cfg) sid LABEL "disabled" (user_data cfg))) ->
  (forall id, C "GET" ("/instances/" +:+ id) NoPayload) ->
  respects P (action_start cfg).
Proof.
  intros Hi Hl Hp Hg. unfold action_start.
  lawful_step HL; [now apply find_instance_lawful|].
  destruct a as [inst|]; [lawful_step HL|].
  lawful_step HL; [now apply create_instance_lawful | lawful_step HL].
Qed.

(** What [action_stop] does once it has found the instance. *)
Lemma stop_sequence_lawful cfg instance_id :
  (forall desc, C "POST" "/snapshots" (SnapshotPayload instance_id desc)) ->
  (forall sid, C "GET" ("/snapshots/" +:+ sid) NoPayload) ->
  C "DELETE" ("/instances/" +:+ instance_id) NoPayload ->
  C "GET" "/snapshots" NoPayload ->
  (forall sid, C "DELETE" ("/snapshots/" +:+ sid) NoPayload) ->
  respects P
    (snap_id ← create_snapshot instance_id;
     wait_for_snapshot snap_id 3600;;
     destroy_instance instance_id;;
     try_except_Exception
       (prune_old_snapshots (SNAPSHOT_RETAIN_DAYS cfg) (SNAPSHOT_MAX_COUNT cfg))
       (fun exc => log WARNING "Snapshot pruning failed (non-fatal): %s");;
     log INFO "Stop sequence complete.").
Proof.
  intros Hp Hg Hd Hl Hds.
  lawful_step HL; [now apply create_snapshot_lawful|].
  lawful_step HL; [apply wait_for_snapshot_lawful, Hg|].
  lawful_step HL; [now apply destroy_instance_lawful|].
  lawful_step HL; [|lawful_step HL].
  apply (respects_try _ (law_seq _ _ HL)).
  - now apply prune_old_snapshots_lawful.
  - apply (law_catch _ _ HL).
  - intros e _. lawful_step HL.
Qed.

Lemma action_stop_lawful cfg :
  C "GET" "/instances" NoPayload ->
  (forall id desc, C "POST" "/snapshots" (SnapshotPayload id desc)) ->
  (forall sid, C "GET" ("/snapshots/" +:+ sid) NoPayload) ->
  (forall id, C "DELETE" ("/instances/" +:+ id) NoPayload) ->
  C "GET" "/snapshots" NoPayload ->
  (forall sid, C "DELETE" ("/snapshots/" +:+ sid) NoPayload) ->
  respects P (action_stop cfg).
Proof.
  intros Hi Hp Hg Hd Hl Hds. unfold action_stop.
  lawful_step HL; [now apply find_instance_lawful|].
  destruct a as [inst|]; [|lawful_step HL]. cbv zeta.
  apply stop_sequence_lawful; auto.
Qed.

End Lawful.

(** *** What a property must grant for [_request] to respect it

    The loop of [_request] emits its events in groups: a successful call; a
    rejected call and its error line; a failed call and its warning; a
    sleep; the final error line. *)

Definition retry_line (out : HttpOutcome) : string :=
  match out with
  | Responded resp =>
      if is_success (status_code resp)
      then "Attempt %d/%d - network error: %s"
      else "Attempt %d/%d - HTTP %s: %s"
  | RequestException => "Attempt %d/%d - network error: %s"
  end.

Record request_law (P : option Exn -> list Event -> Prop)
    (method url : string) (json : Payload) : Prop := {
  rl_exhausted :
    P (Some (SystemExit 1)) [EvLog ERROR "All %d attempts failed for %s %s"];
  rl_success : forall resp,
    is_success (status_code resp) = true ->
    P None [EvHttp method url json (Responded resp)];
  rl_rejected : forall resp,
    client_error (Responded resp) = true ->
    P (Some (SystemExit 1))
      [EvHttp method url json (Responded resp); EvLog ERROR "Client error %s: %s"];
  rl_retry : forall out,
    retryable out = true ->
    P None [EvHttp method url json out; EvLog WARNING (retry_line out)];
  rl_sleep : forall s, P None [EvSleep s]
}.

Lemma request_loop_respects P method path url json retries attempts :
  sequential P -> request_law P method url json ->
  respects P (request_loop method path url json retries attempts).
Proof.
  intros HP HR. induction attempts as [|a rest IH]; simpl.
  - intros w r w' H. mrun H. invert H.
    eexists. split; [reflexivity|]. apply (rl_exhausted _ _ _ _ HR).
  - intros w r w' H. rewrite bind_run in H. unfold requests_request in H at 1.
    assert (Hgo : forall out w1, retryable out = true ->
      trace w1 = trace w ++ [EvHttp method url json out; EvLog WARNING (retry_line out)] ->
      ((if a <? retries then sleep (10 * a) else mret tt) ≫=
         (fun _ => request_loop method path url json retries rest)) w1 = (r, w') ->
      exists evs, trace w' = trace w ++ evs /\ P (exn_of r) evs).
    { intros out w1 Hret Ht1 Hrun.
      assert (Hrest : respects P
        ((if a <? retries then sleep (10 * a) else mret tt) ≫=
           (fun _ => request_loop method path url json retries rest))).
      { apply (respects_bind _ HP); [|intros _; exact IH].
        destruct (a <? retries);
          [apply respects_sleep, (rl_sleep _ _ _ _ HR) | apply (respects_ret _ HP)]. }
      destruct (Hrest _ _ _ Hrun) as (evs2 & Ht2 & HP2).
      eexists. split; [rewrite Ht2, Ht1, <- app_assoc; reflexivity|].
      apply (seq_app _ HP); [apply (rl_retry _ _ _ _ HR), Hret | exact HP2]. }
    destruct (pending w) as [|x ps].
    + rewrite bind_run in H. simpl in H.
      eapply (Hgo RequestException) in H;
        [exact H | reflexivity | simpl; rewrite <- app_assoc; reflexivity].
    + destruct (outcome x) as [resp|] eqn:Hout.
      * destruct (is_success (status_code resp)) eqn:Hs.
        { destruct (decoded resp) as [b0|] eqn:Hd.
          - invert H. eexists. split; [reflexivity|]. apply (rl_success _ _ _ _ HR), Hs.
          - rewrite bind_run in H. simpl in H.
            eapply (Hgo (Responded resp)) in H;
              [exact H | simpl; now rewrite Hs, Hd
              | simpl; rewrite Hs, <- app_assoc; reflexivity]. }
        destruct (is_client_error (status_code resp)) eqn:Hc.
        { mrun H. invert H. eexists. split; [simpl; rewrite <- app_assoc; reflexivity|].
          apply (rl_rejected _ _ _ _ HR). unfold client_error. now rewrite Hs, Hc. }
        rewrite bind_run in H. simpl in H.
        eapply (Hgo (Responded resp)) in H;
          [exact H | simpl; now rewrite Hs, Hc
          | simpl; rewrite Hs, <- app_assoc; reflexivity].
      * rewrite bind_run in H. simpl in H.
        eapply (Hgo RequestException) in H;
          [exact H | reflexivity | simpl; rewrite <- app_assoc; reflexivity].
Qed.

Lemma request_respects P method path retries json :
  sequential P -> request_law P method (BASE_URL +:+ path) json ->
  respects P (_request method path retries json).
Proof. intros HP HR. unfold _request. now apply request_loop_respects. Qed.

(** A property that holds of the groups of every call, of every log line
    of the script and of every sleep is lawful. *)
Lemma lawful_intro (C : string -> string -> Payload -> Prop) P :
  sequential P ->
  (forall m p j, C m p j -> request_law P m (BASE_URL +:+ p) j) ->
  (forall msg, P None [EvLog INFO msg]) ->
  (forall msg, P None [EvLog WARNING msg]) ->
  (forall s, P None [EvSleep s]) ->
  (forall msg, P (Some (SystemExit 1)) [EvLog ERROR msg]) ->
  (forall k, P (Some (KeyError k)) []) ->
  (forall e evs, is_Exception e = true -> P (Some e) evs -> P None evs) ->
  lawful C P.
Proof.
  intros HP HR. intros. split; auto.
  intros m p r j Hc. apply request_respects; auto.
Qed.

(** *** Every event has a property *)

Definition every (Φ : Event -> Prop) : option Exn -> list Event -> Prop :=
  fun _ evs => Forall Φ evs.

Lemma every_lawful (C : string -> string -> Payload -> Prop) (Φ : Event -> Prop) :
  (forall m p j out, C m p j -> Φ (EvHttp m (BASE_URL +:+ p) j out)) ->
  (forall s, Φ (EvSleep s)) ->
  (forall l msg, Φ (EvLog l msg)) ->
  lawful C (every Φ).
Proof.
  intros Hh Hs Hl. apply lawful_intro; unfold every;
    [ split; [constructor | intros x evs1 evs2 H1 H2; apply Forall_app; auto]
    | intros m p j Hc; split; intros; repeat constructor; auto
    | intros; repeat constructor; auto .. ].
Qed.

(** *** A rejected call is the last call *)

(** A call answered with a 4xx status. *)
Definition rejected (e : Event) : bool :=
  match e with EvHttp _ _ _ out => client_error out | _ => false end.

Definition rejection_final : option Exn -> list Event -> Prop :=
  fun x evs =>
    forall pre e post, evs = pre ++ e :: post -> rejected e = true ->
      x = Some (SystemExit 1) /\ Forall (fun e' => is_http e' = false) post.

Lemma split_app {A} (l1 l2 pre : list A) e post :
  l1 ++ l2 = pre ++ e :: post ->
  (exists post1, l1 = pre ++ e :: post1 /\ post = post1 ++ l2) \/
  (exists pre2, pre = l1 ++ pre2 /\ l2 = pre2 ++ e :: post).
Proof.
  revert pre. induction l1 as [|a l1 IH]; intros pre H.
  - right. exists pre. auto.
  - destruct pre as [|b pre]; simpl in H; invert H.
    + left. exists l1. auto.
    + destruct (IH pre H2) as [(post1 & -> & ->)|(pre2 & -> & ->)].
      * left. exists post1. auto.
      * right. exists pre2. auto.
Qed.

Lemma rejection_final_free evs x :
  Forall (fun e => rejected e = false) evs -> rejection_final x evs.
Proof.
  intros Hall pre e post -> He. rewrite Forall_app, Forall_cons in Hall.
  destruct Hall as (_ & Hrej & _). congruence.
Qed.

Lemma rejection_final_sequential : sequential rejection_final.
Proof.
  split.
  - intros pre e post H. destruct pre; discriminate.
  - intros x evs1 evs2 H1 H2 pre e post Hsplit He.
    apply split_app in Hsplit as [(post1 & -> & ->)|(pre2 & -> & ->)].
    + destruct (H1 _ _ _ eq_refl He) as [Hx _]. discriminate.
    + exact (H2 _ _ _ eq_refl He).
Qed.

Lemma retryable_not_rejected out : retryable out = true -> client_error out = false.
Proof.
  destruct out as [resp|]; simpl; auto.
  destruct (is_success (status_code resp)), (is_client_error (status_code resp)); auto.
Qed.

Lemma rejection_final_lawful : lawful (fun _ _ _ => True) rejection_final.
Proof.
  apply lawful_intro; try (intros; apply rejection_final_free; repeat constructor; fail).
  - apply rejection_final_sequential.
  - intros m p j _. split; try (intros; apply rejection_final_free; repeat constructor; fail).
    + intros resp Hs. apply rejection_final_free. repeat constructor.
      simpl. now rewrite Hs.
    + intros resp Hc pre e post H He.
      destruct pre as [|a pre]; simpl in H; invert H.
      * split; [reflexivity | repeat constructor].
      * destruct pre as [|b pre]; simpl in H2; invert H2; [discriminate|].
        destruct pre; discriminate.
    + intros out Hr. apply rejection_final_free. repeat constructor.
      simpl. now apply retryable_not_rejected.
  - intros e evs He H pre e' post Hsplit Hrej.
    destruct (H _ _ _ Hsplit Hrej) as [Hx _]. invert Hx. discriminate.
Qed.

(** *** Error lines and exits go together *)

Definition is_error (e : Event) : bool :=
  match e with EvLog ERROR _ => true | _ => false end.

Definition fatal_logged : option Exn -> list Event -> Prop :=
  fun x evs =>
    (forall pre e post, evs = pre ++ e :: post -> is_error e = true ->
       x = Some (SystemExit 1) /\ post = []) /\
    (forall code, x = Some (SystemExit code) ->
       code = 1 /\ exists pre msg, evs = pre ++ [EvLog ERROR msg]).

Lemma fatal_logged_free evs x :
  Forall (fun e => is_error e = false) evs ->
  (forall code, x <> Some (SystemExit code)) ->
  fatal_logged x evs.
Proof.
  intros Hall Hx. split.
  - intros pre e post -> He. rewrite Forall_app, Forall_cons in Hall.
    destruct Hall as (_ & Hrej & _). congruence.
  - intros code H. destruct (Hx code H).
Qed.

Lemma fatal_logged_exit evs msg :
  Forall (fun e => is_error e = false) evs ->
  fatal_logged (Some (SystemExit 1)) (evs ++ [EvLog ERROR msg]).
Proof.
  intros Hall. split.
  - intros pre e post H He. split; [reflexivity|].
    apply split_app in H as [(post1 & -> & ->)|(pre2 & -> & H)].
    + rewrite Forall_app, Forall_cons in Hall. destruct Hall as (_ & Hrej & _). congruence.
    + destruct pre2 as [|a pre2]; simpl in H; invert H; [reflexivity|].
      destruct pre2; discriminate.
  - intros code H. invert H. eauto.
Qed.

Lemma fatal_logged_sequential : sequential fatal_logged.
Proof.
  split.
  - apply fatal_logged_free; [constructor | discriminate].
  - intros x evs1 evs2 [H1 _] [H2 H2'] . split.
    + intros pre e post Hsplit He.
      apply split_app in Hsplit as [(post1 & -> & ->)|(pre2 & -> & ->)].
      * destruct (H1 _ _ _ eq_refl He) as [Hx _]. discriminate.
      * exact (H2 _ _ _ eq_refl He).
    + intros code Hx. destruct (H2' code Hx) as (-> & pre & msg & ->).
      split; [reflexivity|]. exists (evs1 ++ pre), msg. now rewrite app_assoc.
Qed.

Lemma fatal_logged_lawful : lawful (fun _ _ _ => True) fatal_logged.
Proof.
  apply lawful_intro;
    try (intros; apply fatal_logged_free; [repeat constructor | discriminate]; fail).
  - apply fatal_logged_sequential.
  - intros m p j _. split;
      try (intros; apply fatal_logged_free; [repeat constructor | discriminate]; fail).
    + apply (fatal_logged_exit []). constructor.
    + intros resp _.
      apply (fatal_logged_exit [EvHttp m (BASE_URL +:+ p) j (Responded resp)]).
      repeat constructor.
  - intros msg. apply (fatal_logged_exit []). constructor.
  - intros e evs He [H _]. split.
    + intros pre e' post Hsplit Herr. destruct (H _ _ _ Hsplit Herr) as [Hx _].
      invert Hx. discriminate.
    + discriminate.
Qed.

(** ** Fatal conditions across the two actions *)

(** X1: Wherever a call of [action_start] or [action_stop] is answered with a
    4xx status (listing, creation, polling, destruction or pruning), the
    action ends in [SystemExit(1)] and no call is made after it. *)
Theorem rejected_call_ends_the_run cfg w r w' :
  action_start cfg w = (r, w') \/ action_stop cfg w = (r, w') ->
  exists evs,
    trace w' = trace w ++ evs /\
    forall pre e post, evs = pre ++ e :: post -> rejected e = true ->
      r = Raise (SystemExit 1) /\ Forall (fun e' => is_http e' = false) post.
Proof.
  intros H.
  assert (Hrun : exists evs, trace w' = trace w ++ evs /\ rejection_final (exn_of r) evs).
  { destruct H as [H|H].
    - apply (action_start_lawful _ _ rejection_final_lawful cfg) in H; auto.
    - apply (action_stop_lawful _ _ rejection_final_lawful cfg) in H; auto. }
  destruct Hrun as (evs & Ht & HP). exists evs. split; [exact Ht|].
  intros pre e post Hs He. destruct (HP _ _ _ Hs He) as [Hx Hpost].
  split; [|exact Hpost]. destruct r; simpl in Hx; congruence.
Qed.

Lemma rejected_call_ends_the_run_witness :
  let w := stop_world [status_exchange 404] in
  let run := action_stop witness_config w in
  exists evs,
    trace (snd run) = trace w ++ evs /\
    forall pre e post, evs = pre ++ e :: post -> rejected e = true ->
      fst run = Raise (SystemExit 1) /\ Forall (fun e' => is_http e' = false) post.
Proof.
  intros w run.
  apply (rejected_call_ends_the_run witness_config w (fst run) (snd run)).
  right. vm_compute. reflexivity.
Defined.

(** X2: In [action_start] and [action_stop] an ERROR line and a fatal exit
    always go together: an ERROR line is the last event of the run and the
    run ends in [SystemExit(1)]; and a run that ends in [SystemExit] does
    so with code 1, right after an ERROR line. *)
Theorem error_line_iff_exit cfg w r w' :
  action_start cfg w = (r, w') \/ action_stop cfg w = (r, w') ->
  exists evs,
    trace w' = trace w ++ evs /\
    (forall pre e post, evs = pre ++ e :: post -> is_error e = true ->
       r = Raise (SystemExit 1) /\ post = []) /\
    (forall code, r = Raise (SystemExit code) ->
       code = 1 /\ exists pre msg, evs = pre ++ [EvLog ERROR msg]).
Proof.
  intros H.
  assert (Hrun : exists evs, trace w' = trace w ++ evs /\ fatal_logged (exn_of r) evs).
  { destruct H as [H|H].
    - apply (action_start_lawful _ _ fatal_logged_lawful cfg) in H; auto.
    - apply (action_stop_lawful _ _ fatal_logged_lawful cfg) in H; auto. }
  destruct Hrun as (evs & Ht & HP1 & HP2). exists evs. split; [exact Ht|]. split.
  - intros pre e post Hs He. destruct (HP1 _ _ _ Hs He) as [Hx Hpost].
    split; [|exact Hpost]. destruct r; simpl in Hx; congruence.
  - intros code ->. apply HP2. reflexivity.
Qed.

Lemma error_line_iff_exit_witness :
  let w := stop_world [status_exchange 503; status_exchange 503; status_exchange 503] in
  let run := action_stop witness_config w in
  exists evs,
    trace (snd run) = trace w ++ evs /\
    (forall pre e post, evs = pre ++ e :: post -> is_error e = true ->
       fst run = Raise (SystemExit 1) /\ post = []) /\
    (forall code, fst run = Raise (SystemExit code) ->
       code = 1 /\ exists pre msg, evs = pre ++ [EvLog ERROR msg]).
Proof.
  intros w run.
  apply (error_line_iff_exit witness_config w (fst run) (snd run)).
  right. vm_compute. reflexivity.
Defined.

(** ** The retry helper: result, budget and backoff *)

Lemma retryable_no_body out : retryable out = true -> response_body out = None.
Proof.
  destruct out as [resp|]; simpl; auto.
  destruct (is_success (status_code resp)); [|auto].
  destruct (decoded resp); [discriminate | auto].
Qed.

Lemma served_last n outs r :
  served n outs r ->
  (forall b, r = Ok b <-> exists out, last outs = Some out /\ response_body out = Some b) /\
  (forall i out, outs !! i = Some out -> (S i < length outs)%nat -> retryable out = true).
Proof.
  induction 1 as [|n resp b0 Hs Hd|n resp Hc|n out outs r Hr Hrun [IH1 IH2]].
  - split; [|intros i out H; discriminate].
    intros b. split; [discriminate|]. intros (out & H & _). discriminate.
  - split.
    + intros b. split.
      * intros Hb. invert Hb. exists (Responded resp). simpl. rewrite Hs. auto.
      * intros (out & Hl & Hb). invert Hl. simpl in Hb. rewrite Hs in Hb. congruence.
    + intros [|i] out Hi Hlt; simpl in *; lia.
  - split.
    + intros b. split; [discriminate|]. intros (out & Hl & Hb). invert Hl.
      unfold client_error in Hc. simpl in Hb.
      destruct (is_success (status_code resp)); simpl in Hc; discriminate.
    + intros [|i] out Hi Hlt; simpl in *; lia.
  - split.
    + intros b. destruct outs as [|o outs'].
      * invert Hrun. split; [discriminate|]. intros (o & Hl & Hb). invert Hl.
        rewrite retryable_no_body in Hb by assumption. discriminate.
      * rewrite IH1. reflexivity.
    + intros [|i] o Hi Hlt; simpl in Hi.
      * invert Hi. exact Hr.
      * apply (IH2 i o Hi). simpl in Hlt. lia.
Qed.

(** X3: The result of a call is decided by the last answer it received: it is
    the decoded body of that answer when its status is 200, 201, 202 or
    204 and its content is empty (the empty mapping then) or decodes, and
    [SystemExit(1)] otherwise; every answer before the last one was a
    retryable failure: a network error, a status that is neither a success
    nor a 4xx, or a success whose content did not decode. *)
Theorem request_result_is_last_answer method path retries json w r w' :
  _request method path retries json w = (r, w') ->
  exists evs outs,
    trace w' = trace w ++ evs /\
    kinds evs = schedule 1 outs /\
    (forall b, r = Ok b <->
       exists out, last outs = Some out /\ response_body out = Some b) /\
    (forall e, r = Raise e -> e = SystemExit 1) /\
    (forall i out, outs !! i = Some out -> (S i < length outs)%nat ->
       retryable out = true).
Proof.
  intros H. apply _request_served in H as (evs & outs & Ht & _ & Hk & Hs).
  exists evs, outs. destruct (served_last _ _ _ Hs) as [H1 H2].
  repeat split; auto; try apply H1.
  intros e He. eapply served_raise; eauto.
Qed.

Lemma request_result_is_last_answer_witness :
  let w := {| clock := 0;
              pending := [junk_exchange 200; status_exchange 503;
                          ok_exchange (snapshots_body [])];
              trace := [] |} in
  let run := _request "GET" "/snapshots" 3 NoPayload w in
  exists evs outs,
    trace (snd run) = trace w ++ evs /\
    kinds evs = schedule 1 outs /\
    (forall b, fst run = Ok b <->
       exists out, last outs = Some out /\ response_body out = Some b) /\
    (forall e, fst run = Raise e -> e = SystemExit 1) /\
    (forall i out, outs !! i = Some out -> (S i < length outs)%nat ->
       retryable out = true).
Proof.
  intros w run.
  apply (request_result_is_last_answer "GET" "/snapshots" 3 NoPayload w (fst run) (snd run)).
  vm_compute. reflexivity.
Defined.

(** A success status does not make a success: content that is not JSON
    is handled as a network error.  A GET is tried again, and ends fatally
    when its last attempt fares no better; a POST has no second attempt. *)
Example request_undecodable_body :
  let w := {| clock := 0;
              pending := [junk_exchange 200; junk_exchange 200; junk_exchange 200];
              trace := [] |} in
  let get := _request "GET" "/snapshots" 3 NoPayload w in
  let post := _request "POST" "/snapshots" 3 (SnapshotPayload "i-1" "Quant-Backup-20240105") w in
  fst get = Raise (SystemExit 1) /\
  List.filter (fun e => negb (is_http e)) (trace (snd get)) =
    [ EvLog WARNING "Attempt %d/%d - network error: %s"; EvSleep 10;
      EvLog WARNING "Attempt %d/%d - network error: %s"; EvSleep 20;
      EvLog WARNING "Attempt %d/%d - network error: %s";
      EvLog ERROR "All %d attempts failed for %s %s" ] /\
  attempts (trace (snd get)) = 3%nat /\
  fst post = Raise (SystemExit 1) /\
  attempts (trace (snd post)) = 1%nat.
Proof. vm_compute. repeat split; reflexivity. Qed.

(** X4: With no attempt to make, a call other than POST or PATCH sends nothing
    to the provider and is fatal at once. *)
Theorem request_without_budget method path retries json w :
  non_idempotent method = false ->
  retries <= 0 ->
  _request method path retries json w =
    (Raise (SystemExit 1),
     {| clock := clock w; pending := pending w;
        trace := trace w ++ [EvLog ERROR "All %d attempts failed for %s %s"] |}).
Proof.
  intros Hm Hr. unfold _request. rewrite Hm. rewrite range_nil by lia. reflexivity.
Qed.

Lemma request_without_budget_witness :
  _request "GET" "/instances" 0 NoPayload request_witness_world =
    (Raise (SystemExit 1),
     {| clock := clock request_witness_world; pending := pending request_witness_world;
        trace := trace request_witness_world
                   ++ [EvLog ERROR "All %d attempts failed for %s %s"] |}).
Proof.
  apply (request_without_budget "GET" "/instances" 0 NoPayload request_witness_world).
  - reflexivity.
  - lia.
Defined.

(** The seconds slept in a stretch of trace. *)
Fixpoint slept (evs : list Event) : Z :=
  match evs with
  | [] => 0
  | EvSleep s :: evs' => s + slept evs'
  | _ :: evs' => slept evs'
  end.

Fixpoint pauses (ks : list Kind) : Z :=
  match ks with
  | [] => 0
  | KSleep s :: ks' => s + pauses ks'
  | KHttp _ :: ks' => pauses ks'
  end.

Lemma slept_kinds evs : slept evs = pauses (kinds evs).
Proof.
  unfold kinds. induction evs as [|[m u j o|s|l msg] evs IH]; simpl; auto. now rewrite IH.
Qed.

Lemma pauses_schedule outs :
  forall a, outs <> [] ->
    pauses (schedule a outs) =
      5 * (Z.of_nat (length outs) - 1) * (2 * a + Z.of_nat (length outs) - 2).
Proof.
  induction outs as [|o [|o' outs] IH]; intros a Hne; [congruence | simpl; lia |].
  change (schedule a (o :: o' :: outs))
    with (KHttp o :: KSleep (10 * a) :: schedule (a + 1) (o' :: outs)).
  cbn [pauses]. rewrite IH by discriminate.
  change (length (o :: o' :: outs)) with (S (length (o' :: outs))).
  generalize (length (o' :: outs)). intros n. nia.
Qed.

(** X5: A call that made [k] attempts slept ten seconds times the attempt
    number after each attempt but the last, [5 k (k - 1)] seconds in all,
    and [k] is within the budget; with the default budget of three
    attempts a call sleeps thirty seconds at most. *)
Theorem request_backoff method path retries json w r w' :
  _request method path retries json w = (r, w') ->
  exists evs,
    trace w' = trace w ++ evs /\
    slept evs = 5 * Z.of_nat (attempts evs) * (Z.of_nat (attempts evs) - 1) /\
    Z.of_nat (attempts evs) <= Z.max 0 (budget method retries) /\
    (retries = 3 -> slept evs <= 30).
Proof.
  intros H. apply _request_served in H as (evs & outs & Ht & _ & Hk & Hs).
  exists evs. pose proof (attempts_schedule _ _ _ Hk) as Ha.
  pose proof (served_length _ _ _ Hs) as Hlen.
  assert (Hsl : slept evs = 5 * Z.of_nat (attempts evs) * (Z.of_nat (attempts evs) - 1)).
  { rewrite slept_kinds, Hk, Ha. destruct outs as [|o outs]; [reflexivity|].
    rewrite pauses_schedule by discriminate. lia. }
  repeat split; auto; [lia|].
  intros ->. rewrite Hsl.
  assert (Z.of_nat (attempts evs) <= 3).
  { unfold budget in Hlen. destruct (non_idempotent method); lia. }
  nia.
Qed.

Lemma request_backoff_witness :
  let w := {| clock := 0;
              pending := [status_exchange 503; status_exchange 502; status_exchange 500];
              trace := [] |} in
  let run := _request "DELETE" "/instances/i-1" 3 NoPayload w in
  exists evs,
    trace (snd run) = trace w ++ evs /\
    slept evs = 5 * Z.of_nat (attempts evs) * (Z.of_nat (attempts evs) - 1) /\
    Z.of_nat (attempts evs) <= Z.max 0 (budget "DELETE" 3) /\
    (3 = 3 -> slept evs <= 30).
Proof.
  intros w run.
  apply (request_backoff "DELETE" "/instances/i-1" 3 NoPayload w (fst run) (snd run)).
  vm_compute. reflexivity.
Defined.

(** Time does not run backwards during a call. *)
Lemma request_loop_clock method path url json retries attempts :
  Forall (fun a => 0 <= a) attempts ->
  forall w r w',
    request_loop method path url json retries attempts w = (r, w') -> clock w <= clock w'.
Proof.
  induction 1 as [|a rest Ha _ IH]; intros w r w' H; simpl in H.
  - mrun H. invert H. simpl. lia.
  - rewrite bind_run in H. unfold requests_request in H at 1.
    assert (Hgo : forall w1, clock w <= clock w1 ->
      ((if a <? retries then sleep (10 * a) else mret tt) ≫=
         (fun _ => request_loop method path url json retries rest)) w1 = (r, w') ->
      clock w <= clock w').
    { intros w1 Hw1 Hrun. rewrite bind_run in Hrun.
      destruct (a <? retries); simpl in Hrun; apply IH in Hrun; simpl in Hrun;
        unfold Calendar.us_per_second in *; lia. }
    destruct (pending w) as [|x ps].
    + rewrite bind_run in H. simpl in H. eapply Hgo in H; [exact H | simpl; lia].
    + destruct (outcome x) as [resp|].
      * destruct (is_success (status_code resp)).
        { destruct (decoded resp) as [b0|].
          - invert H. simpl. lia.
          - rewrite bind_run in H. simpl in H. eapply Hgo in H; [exact H | simpl; lia]. }
        destruct (is_client_error (status_code resp)).
        { mrun H. invert H. simpl. lia. }
        rewrite bind_run in H. simpl in H. eapply Hgo in H; [exact H | simpl; lia].
      * rewrite bind_run in H. simpl in H. eapply Hgo in H; [exact H | simpl; lia].
Qed.

Lemma range_nonneg lo hi : 0 <= lo -> Forall (fun a => 0 <= a) (Py.range lo hi).
Proof.
  intros Hlo. unfold Py.range. rewrite Forall_forall. intros a Ha.
  first [apply list_elem_of_In in Ha | idtac].
  apply in_map_iff in Ha as (i & <- & _). lia.
Qed.

Lemma request_clock method path retries json w r w' :
  _request method path retries json w = (r, w') -> clock w <= clock w'.
Proof.
  unfold _request. apply request_loop_clock. apply range_nonneg. lia.
Qed.

(** ** Which instance and which backup are picked *)

Lemma find_split {A} (f : A -> bool) (l : list A) x :
  List.find f l = Some x ->
  exists pre post, l = pre ++ x :: post /\ f x = true /\ Forall (fun y => f y = false) pre.
Proof.
  induction l as [|a l IH]; simpl; [discriminate|].
  destruct (f a) eqn:Hfa; intros H.
  - invert H. exists [], l. auto.
  - destruct (IH H) as (pre & post & -> & Hx & Hpre).
    exists (a :: pre), post. auto.
Qed.

Lemma find_none_Forall {A} (f : A -> bool) (l : list A) :
  List.find f l = None -> Forall (fun y => f y = false) l.
Proof.
  induction l as [|a l IH]; simpl; [constructor|].
  destruct (f a) eqn:Hfa; [discriminate|]. auto.
Qed.

Lemma is_managed_spec inst :
  is_managed inst = true <-> inst_label inst = LABEL /\ inst_status inst <> "dead".
Proof.
  unfold is_managed. rewrite andb_true_iff, negb_true_iff, String.eqb_eq, String.eqb_neq.
  reflexivity.
Qed.

(** X6: On the listing the provider returns, [find_instance] gives the first
    instance that carries the label and is not dead, whatever follows it in
    the listing, and [None] when no instance of the listing is such (in
    particular when the answer has no "instances" key). *)
Theorem find_instance_first_live w data w1 :
  _request "GET" "/instances" 3 NoPayload w = (Ok data, w1) ->
  exists r,
    find_instance w = (Ok r, w1) /\
    match r with
    | Some inst =>
        inst_label inst = LABEL /\ inst_status inst <> "dead" /\
        exists pre post,
          get_list (instances data) = pre ++ inst :: post /\
          Forall (fun i => ~ (inst_label i = LABEL /\ inst_status i <> "dead")) pre
    | None =>
        Forall (fun i => ~ (inst_label i = LABEL /\ inst_status i <> "dead"))
          (get_list (instances data))
    end.
Proof.
  intros Hreq. unfold find_instance. rewrite bind_run, Hreq.
  eexists. split; [reflexivity|].
  destruct (List.find is_managed (get_list (instances data))) as [inst|] eqn:Hfind.
  - apply find_split in Hfind as (pre & post & Hl & Hm & Hpre).
    apply is_managed_spec in Hm as [Hlab Hst]. repeat split; auto.
    exists pre, post. split; [exact Hl|].
    eapply Forall_impl; [exact Hpre|]. intros i Hi Hm. apply is_managed_spec in Hm. congruence.
  - apply find_none_Forall in Hfind.
    eapply Forall_impl; [exact Hfind|]. intros i Hi Hm. apply is_managed_spec in Hm. congruence.
Qed.

Lemma find_instance_first_live_witness :
  exists r,
    find_instance start_witness_world =
      (Ok r, snd (_request "GET" "/instances" 3 NoPayload start_witness_world)) /\
    match r with
    | Some inst =>
        inst_label inst = LABEL /\ inst_status inst <> "dead" /\
        exists pre post,
          get_list (instances start_witness_data) = pre ++ inst :: post /\
          Forall (fun i => ~ (inst_label i = LABEL /\ inst_status i <> "dead")) pre
    | None =>
        Forall (fun i => ~ (inst_label i = LABEL /\ inst_status i <> "dead"))
          (get_list (instances start_witness_data))
    end.
Proof.
  apply (find_instance_first_live start_witness_world start_witness_data).
  vm_compute. reflexivity.
Defined.

Lemma filter_split {A} (f : A -> bool) (l : list A) :
  forall pre x post,
    List.filter f l = pre ++ x :: post ->
    exists pre' post',
      l = pre' ++ x :: post' /\ List.filter f pre' = pre /\ List.filter f post' = post.
Proof.
  induction l as [|a l IH]; intros pre x post H; simpl in H.
  - destruct pre; discriminate.
  - destruct (f a) eqn:Hfa.
    + destruct pre as [|p pre]; simpl in H; invert H.
      * exists [], l. auto.
      * destruct (IH _ _ _ H2) as (pre' & post' & -> & Hp & Hq).
        exists (p :: pre'), post'. simpl. rewrite Hfa, Hp. auto.
    + destruct (IH _ _ _ H) as (pre' & post' & -> & Hp & Hq).
      exists (a :: pre'), post'. simpl. rewrite Hfa. auto.
Qed.

(** The sort is stable: the first element after sorting is the first of
    the elements with the greatest key. *)
Lemma sort_desc_first {A} (key : A -> string) (l : list A) :
  forall x rest,
    Py.sort_desc key l = x :: rest ->
    exists pre post,
      l = pre ++ x :: post /\
      Forall (fun y => String.ltb (key y) (key x) = true) pre /\
      Forall (fun y => String.leb (key y) (key x) = true) post.
Proof.
  induction l as [|a l IH]; intros x rest H; simpl in H; [discriminate|].
  destruct (Py.sort_desc key l) as [|y r] eqn:Hs.
  - apply sort_desc_nil in Hs. subst l. simpl in H. invert H.
    exists [], []. auto.
  - simpl in H. destruct (String.ltb (key a) (key y)) eqn:Hay.
    + invert H. destruct (IH _ _ eq_refl) as (pre & post & -> & Hpre & Hpost).
      exists (a :: pre), post. auto.
    + invert H. exists [], l. repeat split; auto.
      apply sort_desc_head in Hs as [_ Hmax].
      rewrite Forall_forall. intros z Hz.
      apply ltb_false_leb. apply (not_below_trans key x y z); [exact Hay|].
      apply ltb_false_leb. apply Hmax.
      first [exact Hz | now apply list_elem_of_In].
Qed.

(** X7: When several complete backups share the greatest description (two
    stops on the same day), [latest_backup_snapshot] returns the one the
    provider lists first: every complete backup listed before the chosen
    one has a strictly smaller description, every one listed after it a
    smaller or equal one. *)
Theorem latest_backup_snapshot_first_of_equals w data w1 id w' :
  _request "GET" "/snapshots" 3 NoPayload w = (Ok data, w1) ->
  latest_backup_snapshot w = (Ok (Some id), w') ->
  exists pre s post,
    get_list (snapshots data) = pre ++ s :: post /\
    snap_id s = id /\ is_complete_backup s = true /\
    Forall (fun t => is_complete_backup t = true ->
                     String.ltb (snap_description t) (snap_description s) = true) pre /\
    Forall (fun t => is_complete_backup t = true ->
                     String.leb (snap_description t) (snap_description s) = true) post.
Proof.
  intros Hreq H. unfold latest_backup_snapshot in H. rewrite bind_run, Hreq in H.
  destruct (List.filter is_complete_backup (get_list (snapshots data)))
    as [|b bs] eqn:Hf; [discriminate|].
  destruct (Py.sort_desc snap_description (b :: bs)) as [|x rest] eqn:Hs; [discriminate|].
  mrun H. invert H.
  apply sort_desc_first in Hs as (pre & post & Hl & Hpre & Hpost).
  rewrite <- Hf in Hl.
  assert (Hx : is_complete_backup x = true).
  { assert (Hin : x ∈ List.filter is_complete_backup (get_list (snapshots data))).
    { rewrite Hl. apply elem_of_app. right. left. }
    now apply filter_elem_of in Hin. }
  apply filter_split in Hl as (pre' & post' & Hl & <- & <-).
  exists pre', x, post'. repeat split; auto.
  - rewrite Forall_forall in *. intros t Ht Hc. apply Hpre.
    first [apply filter_elem_of | apply filter_In]; auto.
  - rewrite Forall_forall in *. intros t Ht Hc. apply Hpost.
    first [apply filter_elem_of | apply filter_In]; auto.
Qed.

Definition same_day_backups : Body :=
  snapshots_body
    [ backup "old" "20240103"; backup "morning" "20240104";
      {| snap_id := "failed"; snap_description := "Quant-Backup-20240105";
         snap_status := "error" |};
      backup "evening" "20240104" ].

Lemma latest_backup_snapshot_first_of_equals_witness :
  let w := {| clock := noon; pending := [ok_exchange same_day_backups]; trace := [] |} in
  exists pre s post,
    get_list (snapshots same_day_backups) = pre ++ s :: post /\
    snap_id s = "morning" /\ is_complete_backup s = true /\
    Forall (fun t => is_complete_backup t = true ->
                     String.ltb (snap_description t) (snap_description s) = true) pre /\
    Forall (fun t => is_complete_backup t = true ->
                     String.leb (snap_description t) (snap_description s) = true) post.
Proof.
  intros w.
  apply (latest_backup_snapshot_first_of_equals w same_day_backups
           (snd (_request "GET" "/snapshots" 3 NoPayload w)) "morning"
           (snd (latest_backup_snapshot w))).
  - vm_compute. reflexivity.
  - vm_compute. reflexivity.
Defined.

(** ** The polling loops *)

Lemma while_before_expired {A} deadline (body : M (option A)) Hbody (orelse : M A) w :
  deadline <= clock w -> while_before deadline body Hbody orelse w = orelse w.
Proof.
  intros H. rewrite while_before_equation_1. simpl.
  pose proof (Z.ltb_spec (clock w) deadline) as Hs.
  destruct (clock w <? deadline); [invert Hs; lia | reflexivity].
Qed.

(** X8: With a timeout of zero or less both polling loops give up before
    their first poll: nothing is requested and the exit is fatal. *)
Theorem waiting_with_no_time_left instance_id snap_id timeout w :
  timeout <= 0 ->
  _wait_for_instance instance_id timeout w =
    (Raise (SystemExit 1),
     {| clock := clock w; pending := pending w;
        trace := trace w ++ [EvLog ERROR "Instance did not become active within %ds"] |}) /\
  wait_for_snapshot snap_id timeout w =
    (Raise (SystemExit 1),
     {| clock := clock w; pending := pending w;
        trace := (trace w ++ [EvLog INFO "Waiting for snapshot %s to complete ..."])
                   ++ [EvLog ERROR "Snapshot %s did not complete within %ds"] |}).
Proof.
  intros Ht. split.
  - unfold _wait_for_instance. rewrite bind_run. unfold time_time. cbn beta iota.
    rewrite while_before_expired; [reflexivity|].
    unfold Calendar.us_per_second. lia.
  - change (wait_for_snapshot snap_id timeout w) with
      (while_before (clock w + timeout * Calendar.us_per_second)
         (wait_for_snapshot_body snap_id) (wait_for_snapshot_body_consumes snap_id)
         (log ERROR "Snapshot %s did not complete within %ds";; raise (SystemExit 1))
         {| clock := clock w; pending := pending w;
            trace := trace w ++ [EvLog INFO "Waiting for snapshot %s to complete ..."] |}).
    rewrite while_before_expired; [reflexivity|].
    simpl. unfold Calendar.us_per_second. lia.
Qed.

Lemma waiting_with_no_time_left_witness :
  _wait_for_instance "i-1" 0 start_witness_world =
    (Raise (SystemExit 1),
     {| clock := clock start_witness_world; pending := pending start_witness_world;
        trace := trace start_witness_world
                   ++ [EvLog ERROR "Instance did not become active within %ds"] |}) /\
  wait_for_snapshot "snap-9" 0 start_witness_world =
    (Raise (SystemExit 1),
     {| clock := clock start_witness_world; pending := pending start_witness_world;
        trace := (trace start_witness_world
                    ++ [EvLog INFO "Waiting for snapshot %s to complete ..."])
                   ++ [EvLog ERROR "Snapshot %s did not complete within %ds"] |}).
Proof.
  apply (waiting_with_no_time_left "i-1" "snap-9" 0 start_witness_world). lia.
Defined.

(** The body a call was answered with, when the answer was a success. *)
Definition observed (e : Event) : option Body :=
  match e with
  | EvHttp _ _ _ out => response_body out
  | _ => None
  end.

(** The status of the snapshot in a successful answer. *)
Definition observed_status (e : Event) : option string :=
  match observed e with
  | Some b => snap_status <$> snapshot b
  | None => None
  end.

(** The instance in a successful answer. *)
Definition observed_instance (e : Event) : option Instance :=
  match observed e with
  | Some b => instance b
  | None => None
  end.

Definition is_live (inst : Instance) : bool :=
  String.eqb (inst_status inst) "active" && String.eqb (inst_power_status inst) "running".

(** What a call leaves in the trace, in terms of what was observed. *)
Lemma request_observed method path retries json :
  emits (_request method path retries json)
    (fun r evs =>
       calls_only method path json evs /\
       (forall b, r = Ok b -> exists e, e ∈ evs /\ observed e = Some b) /\
       (forall e b, e ∈ evs -> observed e = Some b -> r = Ok b) /\
       (forall x, r = Raise x -> x = SystemExit 1)).
Proof.
  intros w r w' H. apply request_facts in H as (evs & Ht & Hc & _ & Hok & Hbody & Hx).
  exists evs. repeat split; auto.
  - intros b Hb. destruct (Hok b Hb) as (out & Hin & Hout). eauto.
  - intros [m u j out|s|l msg] b He Hobs; simpl in Hobs; try discriminate. eauto.
Qed.

(** Log lines and sleeps carry no observation. *)
Lemma observed_chatter e evs :
  Forall (fun e' => is_http e' = false) evs -> e ∈ evs -> observed e = None.
Proof.
  rewrite Forall_forall. intros Hall He.
  assert (Hh : is_http e = false)
    by first [exact (Hall e He) | apply Hall; now apply list_elem_of_In].
  destruct e; [discriminate | reflexivity | reflexivity].
Qed.

Lemma calls_only_chatter method path json evs :
  Forall (fun e => is_http e = false) evs -> calls_only method path json evs.
Proof.
  unfold calls_only. intros Hall. eapply Forall_impl; [exact Hall|].
  intros [m u j o|s|l msg] H; [discriminate | auto | auto].
Qed.

(** What one round of the loop of [wait_for_snapshot] says about the
    loop. *)
Definition snapshot_round {A} (sid : string) (done : A) (r : Result A)
    (evs : list Event) : Prop :=
  calls_only "GET" ("/snapshots/" +:+ sid) NoPayload evs /\
  (r = Ok done -> exists e, e ∈ evs /\ observed_status e = Some "complete") /\
  (forall e, e ∈ evs -> observed_status e = Some "complete" -> r = Ok done) /\
  (forall e, e ∈ evs -> observed_status e = Some "error" -> r = Raise (SystemExit 1)) /\
  (forall x, r = Raise x -> x = SystemExit 1 \/ x = KeyError "snapshot").

(** The events of a round: those of the call, then log lines and sleeps. *)
Lemma round_events (evs tail : list Event) e :
  Forall (fun e' => is_http e' = false) tail ->
  e ∈ evs ++ tail -> observed e <> None -> e ∈ evs.
Proof.
  intros Htail He Hobs. apply elem_of_app in He as [He|He]; [exact He|].
  destruct Hobs. eapply observed_chatter; eauto.
Qed.

Lemma observed_status_some e st : observed_status e = Some st -> observed e <> None.
Proof. unfold observed_status. destruct (observed e); [discriminate | discriminate]. Qed.

Lemma observed_instance_some e inst : observed_instance e = Some inst -> observed e <> None.
Proof. unfold observed_instance. destruct (observed e); [discriminate | discriminate]. Qed.

Lemma wait_for_snapshot_body_round sid :
  emits (wait_for_snapshot_body sid) (snapshot_round sid (Some tt)).
Proof.
  unfold wait_for_snapshot_body.
  eapply emits_bind; [apply request_observed | |].
  - intros b evs (Hc & Hok & Hobs & _).
    destruct (Hok b eq_refl) as (e0 & He0 & Hobs0).
    assert (Hst : forall e st, e ∈ evs -> observed_status e = Some st ->
              snap_status <$> snapshot b = Some st).
    { intros e st He Hs. unfold observed_status in Hs.
      destruct (observed e) as [b'|] eqn:Hb'; [|discriminate].
      specialize (Hobs e b' He Hb'). invert Hobs. exact Hs. }
    assert (Hround : forall (r : Result (option unit)) tail,
      Forall (fun e' => is_http e' = false) tail ->
      (r = Ok (Some tt) -> snap_status <$> snapshot b = Some "complete") ->
      (snap_status <$> snapshot b = Some "complete" -> r = Ok (Some tt)) ->
      (snap_status <$> snapshot b = Some "error" -> r = Raise (SystemExit 1)) ->
      (forall x, r = Raise x -> x = SystemExit 1 \/ x = KeyError "snapshot") ->
      snapshot_round sid (Some tt) r (evs ++ tail)).
    { intros r tail Htail H1 H2 H3 H4. repeat split; auto.
      - apply calls_only_app; [exact Hc | now apply calls_only_chatter].
      - intros Hr. exists e0. split; [apply elem_of_app; auto|].
        unfold observed_status. rewrite Hobs0. auto.
      - intros e He Hs. apply H2. apply (Hst e); [|exact Hs].
        eapply round_events; eauto using observed_status_some.
      - intros e He Hs. apply H3. apply (Hst e); [|exact Hs].
        eapply round_events; eauto using observed_status_some. }
    destruct (snapshot b) as [snap|] eqn:Hsnap; simpl.
    + intros w r w' H. mrun H.
      destruct (String.eqb_spec (snap_status snap) "complete") as [Hcomp|Hcomp].
      * mrun H. invert H. eexists. split; [simpl; rewrite <- app_assoc; reflexivity|].
        apply Hround; simpl; try (repeat constructor; fail); try congruence.
      * destruct (String.eqb_spec (snap_status snap) "error") as [Herr|Herr].
        -- mrun H. invert H. eexists. split; [simpl; rewrite <- app_assoc; reflexivity|].
           apply Hround; simpl; try (repeat constructor; fail); try congruence.
           intros x Hx. invert Hx. auto.
        -- mrun H. invert H. eexists. split; [simpl; rewrite <- app_assoc; reflexivity|].
           apply Hround; simpl; try (repeat constructor; fail); try congruence.
    + apply emits_raise.
      apply (Hround _ []); simpl; try (repeat constructor; fail); try congruence.
      intros x Hx. invert Hx. auto.
  - intros x evs (Hc & _ & Hobs & Hx). specialize (Hx x eq_refl). subst x.
    repeat split; auto; try discriminate.
    + intros e He Hs. unfold observed_status in Hs.
      destruct (observed e) as [b|] eqn:Hb; [|discriminate].
      specialize (Hobs e b He Hb). discriminate.
    + intros x Hx. invert Hx. auto.
Qed.

(** Rounds that fell through observed neither "complete" nor "error". *)
Definition undecided (sid : string) (evs : list Event) : Prop :=
  calls_only "GET" ("/snapshots/" +:+ sid) NoPayload evs /\
  forall e, e ∈ evs ->
    observed_status e <> Some "complete" /\ observed_status e <> Some "error".

Lemma undecided_chatter sid evs :
  Forall (fun e => is_http e = false) evs -> undecided sid evs.
Proof.
  intros H. split; [now apply calls_only_chatter|].
  intros e He. unfold observed_status. rewrite (observed_chatter e evs H He).
  split; discriminate.
Qed.

Lemma undecided_app sid evs1 evs2 :
  undecided sid evs1 -> undecided sid evs2 -> undecided sid (evs1 ++ evs2).
Proof.
  intros [H1 H1'] [H2 H2']. split; [now apply calls_only_app|].
  intros e He. apply elem_of_app in He as [He|He]; auto.
Qed.

Lemma snapshot_round_after {A} sid (d : A) r evs1 evs2 :
  undecided sid evs1 -> snapshot_round sid d r evs2 ->
  snapshot_round sid d r (evs1 ++ evs2).
Proof.
  intros [Hc1 Hu] (Hc & H1 & H2 & H3 & H4).
  split; [now apply calls_only_app|]. split; [|split; [|split]]; auto.
  - intros Hr. destruct (H1 Hr) as (e & He & Hs).
    exists e. split; [apply elem_of_app; auto | exact Hs].
  - intros e He Hs. apply elem_of_app in He as [He|He]; [|eauto].
    destruct (Hu e He) as [Hn _]. congruence.
  - intros e He Hs. apply elem_of_app in He as [He|He]; [|eauto].
    destruct (Hu e He) as [_ Hn]. congruence.
Qed.

Lemma snapshot_round_undecided sid evs :
  snapshot_round sid (Some tt) (Ok None) evs -> undecided sid evs.
Proof.
  intros (Hc & _ & H2 & H3 & _). split; [exact Hc|]. intros e He. split; intros Hs.
  - specialize (H2 e He Hs). discriminate.
  - specialize (H3 e He Hs). discriminate.
Qed.

(** From the result of the deciding round to the result of the loop. *)
Lemma snapshot_round_lift sid (r : Result (option unit)) (r' : Result unit) evs :
  snapshot_round sid (Some tt) r evs ->
  match r with
  | Ok (Some _) => r' = Ok tt
  | Ok None => False
  | Raise x => r' = Raise x
  end ->
  snapshot_round sid tt r' evs.
Proof.
  intros (Hc & H1 & H2 & H3 & H4) Hr.
  split; [exact Hc|]. destruct r as [[[]|]|x]; [subst r' | contradiction | subst r'].
  - split; [|split; [|split]]; auto; try discriminate.
    intros e He Hs. specialize (H3 e He Hs). discriminate.
  - split; [|split; [|split]]; try discriminate.
    + intros e He Hs. specialize (H2 e He Hs). discriminate.
    + intros e He Hs. specialize (H3 e He Hs). invert H3. reflexivity.
    + intros x0 Hx. invert Hx. apply H4. reflexivity.
Qed.

Lemma emits_log_then {B} lvl msg (k : M B) (P : Result B -> list Event -> Prop) :
  emits k (fun r evs => P r (EvLog lvl msg :: evs)) ->
  emits (log lvl msg ≫= fun _ => k) P.
Proof.
  intros Hk w r w' H. mrun H. apply Hk in H as (evs & Ht & HP). simpl in Ht.
  exists (EvLog lvl msg :: evs). split; [rewrite Ht, <- app_assoc; reflexivity | exact HP].
Qed.

Lemma emits_time_then {B} (k : Z -> M B) (P : Result B -> list Event -> Prop) :
  (forall now, emits (k now) P) -> emits (time_time ≫= k) P.
Proof.
  intros Hk w r w' H. rewrite bind_run in H. unfold time_time in H.
  exact (Hk _ _ _ _ H).
Qed.

Lemma wait_for_snapshot_round sid timeout :
  emits (wait_for_snapshot sid timeout) (snapshot_round sid tt).
Proof.
  unfold wait_for_snapshot.
  apply emits_log_then, emits_time_then. intros now. cbv zeta.
  eapply emits_conseq.
  - eapply (emits_while _ _ _ _ (snapshot_round sid (Some tt))
              (fun r evs => r = Raise (SystemExit 1) /\
                            Forall (fun e => is_http e = false) evs)
              (undecided sid) (snapshot_round sid tt)).
    + apply wait_for_snapshot_body_round.
    + intros w r w' H. mrun H. invert H. eexists. split; [reflexivity|].
      split; [reflexivity | repeat constructor].
    + apply undecided_chatter. constructor.
    + intros acc evs Hacc Hq. apply undecided_app; [exact Hacc|].
      now apply snapshot_round_undecided.
    + intros acc evs [] Hacc Hq. apply snapshot_round_after; [exact Hacc|].
      eapply snapshot_round_lift; [exact Hq | reflexivity].
    + intros acc evs e Hacc Hq. apply snapshot_round_after; [exact Hacc|].
      eapply snapshot_round_lift; [exact Hq | reflexivity].
    + intros acc evs r Hacc [-> Hq]. apply snapshot_round_after; [exact Hacc|].
      split; [now apply calls_only_chatter|].
      split; [|split; [|split]]; try discriminate.
      * intros e He Hs. apply observed_status_some in Hs.
        destruct Hs. eapply observed_chatter; eauto.
      * reflexivity.
      * intros x Hx. invert Hx. auto.
  - intros r evs Hr.
    apply (snapshot_round_after sid tt r [EvLog INFO "Waiting for snapshot %s to complete ..."]);
      [|exact Hr].
    apply undecided_chatter. repeat constructor.
Qed.

(** X9: [wait_for_snapshot] polls only the snapshot it was given.  It returns
    exactly when a poll was answered with status "complete", and an answer
    with status "error" makes it exit fatally; its only other failures are
    the fatal exits of a poll or of the deadline and a [KeyError] for an
    answer without the key "snapshot". *)
Theorem wait_for_snapshot_outcome snap_id timeout w r w' :
  wait_for_snapshot snap_id timeout w = (r, w') ->
  exists evs,
    trace w' = trace w ++ evs /\
    calls_only "GET" ("/snapshots/" +:+ snap_id) NoPayload evs /\
    (r = Ok tt -> exists e, e ∈ evs /\ observed_status e = Some "complete") /\
    (forall e, e ∈ evs -> observed_status e = Some "complete" -> r = Ok tt) /\
    (forall e, e ∈ evs -> observed_status e = Some "error" -> r = Raise (SystemExit 1)) /\
    (forall x, r = Raise x -> x = SystemExit 1 \/ x = KeyError "snapshot").
Proof. intros H. exact (wait_for_snapshot_round snap_id timeout w r w' H). Qed.

Definition poll_world (statuses : list string) : World :=
  {| clock := noon;
     pending :=
       map (fun st => ok_exchange (snapshot_body
              {| snap_id := "snap-9"; snap_description := "Quant-Backup-20240105";
                 snap_status := st |})) statuses;
     trace := [] |}.

Lemma wait_for_snapshot_outcome_witness :
  let w := poll_world ["pending"; "pending"; "error"; "complete"] in
  let run := wait_for_snapshot "snap-9" 3600 w in
  exists evs,
    trace (snd run) = trace w ++ evs /\
    calls_only "GET" ("/snapshots/" +:+ "snap-9") NoPayload evs /\
    (fst run = Ok tt -> exists e, e ∈ evs /\ observed_status e = Some "complete") /\
    (forall e, e ∈ evs -> observed_status e = Some "complete" -> fst run = Ok tt) /\
    (forall e, e ∈ evs -> observed_status e = Some "error" ->
       fst run = Raise (SystemExit 1)) /\
    (forall x, fst run = Raise x -> x = SystemExit 1 \/ x = KeyError "snapshot").
Proof.
  intros w run.
  apply (wait_for_snapshot_outcome "snap-9" 3600 w (fst run) (snd run)).
  vm_compute. reflexivity.
Defined.

(** What one round of the loop of [_wait_for_instance] says about the
    loop. *)
Definition instance_round {A} (id : string) (done : Instance -> A) (r : Result A)
    (evs : list Event) : Prop :=
  calls_only "GET" ("/instances/" +:+ id) NoPayload evs /\
  (forall inst, r = Ok (done inst) ->
     is_live inst = true /\ exists e, e ∈ evs /\ observed_instance e = Some inst) /\
  (forall e inst, e ∈ evs -> observed_instance e = Some inst -> is_live inst = true ->
     r = Ok (done inst)) /\
  (forall x, r = Raise x -> x = SystemExit 1 \/ x = KeyError "instance").

(** Rounds that fell through saw the instance, if at all, not yet live. *)
Definition lingering (id : string) (evs : list Event) : Prop :=
  calls_only "GET" ("/instances/" +:+ id) NoPayload evs /\
  forall e inst, e ∈ evs -> observed_instance e = Some inst -> is_live inst = false.

Lemma lingering_chatter id evs :
  Forall (fun e => is_http e = false) evs -> lingering id evs.
Proof.
  intros H. split; [now apply calls_only_chatter|].
  intros e inst He Hs. unfold observed_instance in Hs.
  rewrite (observed_chatter e evs H He) in Hs. discriminate.
Qed.

Lemma lingering_app id evs1 evs2 :
  lingering id evs1 -> lingering id evs2 -> lingering id (evs1 ++ evs2).
Proof.
  intros [H1 H1'] [H2 H2']. split; [now apply calls_only_app|].
  intros e inst He. apply elem_of_app in He as [He|He]; eauto.
Qed.

Lemma instance_round_after {A} id (d : Instance -> A) r evs1 evs2 :
  lingering id evs1 -> instance_round id d r evs2 ->
  instance_round id d r (evs1 ++ evs2).
Proof.
  intros [Hc1 Hu] (Hc & H1 & H2 & H3).
  split; [now apply calls_only_app|]. split; [|split]; auto.
  - intros inst Hr. destruct (H1 inst Hr) as (Hl & e & He & Hs).
    split; [exact Hl|]. exists e. split; [apply elem_of_app; auto | exact Hs].
  - intros e inst He Hs Hl. apply elem_of_app in He as [He|He]; [|eauto].
    rewrite (Hu e inst He Hs) in Hl. discriminate.
Qed.

Lemma instance_round_lingering id evs :
  instance_round id Some (Ok None) evs -> lingering id evs.
Proof.
  intros (Hc & _ & H2 & _). split; [exact Hc|]. intros e inst He Hs.
  destruct (is_live inst) eqn:Hl; [|reflexivity].
  specialize (H2 e inst He Hs Hl). discriminate.
Qed.

Lemma instance_round_lift id (r : Result (option Instance)) (r' : Result Instance) evs :
  instance_round id Some r evs ->
  match r with
  | Ok (Some inst) => r' = Ok inst
  | Ok None => False
  | Raise x => r' = Raise x
  end ->
  instance_round id (fun inst => inst) r' evs.
Proof.
  intros (Hc & H1 & H2 & H3) Hr.
  split; [exact Hc|]. destruct r as [[inst0|]|x]; [subst r' | contradiction | subst r'].
  - split; [|split]; try discriminate.
    + intros inst Hi. invert Hi. apply H1. reflexivity.
    + intros e inst He Hs Hl. specialize (H2 e inst He Hs Hl). invert H2. reflexivity.
  - split; [|split]; try discriminate.
    + intros e inst He Hs Hl. specialize (H2 e inst He Hs Hl). discriminate.
    + intros x0 Hx. invert Hx. apply H3. reflexivity.
Qed.

Lemma _wait_for_instance_body_round id :
  emits (_wait_for_instance_body id) (instance_round id Some).
Proof.
  unfold _wait_for_instance_body.
  eapply emits_bind; [apply request_observed | |].
  - intros b evs (Hc & Hok & Hobs & _).
    destruct (Hok b eq_refl) as (e0 & He0 & Hobs0).
    assert (Hin : forall e inst, e ∈ evs -> observed_instance e = Some inst ->
              instance b = Some inst).
    { intros e inst He Hs. unfold observed_instance in Hs.
      destruct (observed e) as [b'|] eqn:Hb'; [|discriminate].
      specialize (Hobs e b' He Hb'). invert Hobs. exact Hs. }
    assert (Hround : forall (r : Result (option Instance)) tail,
      Forall (fun e' => is_http e' = false) tail ->
      (forall inst, r = Ok (Some inst) -> instance b = Some inst /\ is_live inst = true) ->
      (forall inst, instance b = Some inst -> is_live inst = true -> r = Ok (Some inst)) ->
      (forall x, r = Raise x -> x = SystemExit 1 \/ x = KeyError "instance") ->
      instance_round id Some r (evs ++ tail)).
    { intros r tail Htail H1 H2 H4.
      split; [apply calls_only_app; [exact Hc | now apply calls_only_chatter]|].
      split; [|split]; auto.
      - intros inst Hr. destruct (H1 inst Hr) as [Hi Hl]. split; [exact Hl|].
        exists e0. split; [apply elem_of_app; auto|].
        unfold observed_instance. rewrite Hobs0. exact Hi.
      - intros e inst He Hs Hlive. apply H2; [|exact Hlive]. apply (Hin e); [|exact Hs].
        eapply round_events; eauto using observed_instance_some. }
    destruct (instance b) as [inst|] eqn:Hinst; simpl.
    + intros w r w' H. mrun H. fold (is_live inst) in H.
      destruct (is_live inst) eqn:Hlive.
      * mrun H. invert H. eexists. split; [simpl; rewrite <- app_assoc; reflexivity|].
        apply Hround; [repeat constructor | | | discriminate].
        -- intros i Hi. invert Hi. auto.
        -- intros i Hi _. congruence.
      * mrun H. invert H. eexists. split; [simpl; rewrite <- app_assoc; reflexivity|].
        apply Hround; [repeat constructor | discriminate | | discriminate].
        intros i Hi Hl. invert Hi. congruence.
    + apply emits_raise.
      apply (Hround _ []); [constructor | discriminate | discriminate |].
      intros x Hx. invert Hx. auto.
  - intros x evs (Hc & _ & Hobs & Hx). specialize (Hx x eq_refl). subst x.
    split; [exact Hc|]. split; [|split]; try discriminate.
    + intros e inst He Hs. unfold observed_instance in Hs.
      destruct (observed e) as [b|] eqn:Hb; [|discriminate].
      specialize (Hobs e b He Hb). discriminate.
    + intros x Hx. invert Hx. auto.
Qed.

Lemma _wait_for_instance_round id timeout :
  emits (_wait_for_instance id timeout) (instance_round id (fun inst => inst)).
Proof.
  unfold _wait_for_instance.
  apply emits_time_then. intros now. cbv zeta.
  eapply emits_conseq.
  - eapply (emits_while _ _ _ _ (instance_round id Some)
              (fun r evs => r = Raise (SystemExit 1) /\
                            Forall (fun e => is_http e = false) evs)
              (lingering id) (instance_round id (fun inst => inst))).
    + apply _wait_for_instance_body_round.
    + intros w r w' H. mrun H. invert H. eexists. split; [reflexivity|].
      split; [reflexivity | repeat constructor].
    + apply lingering_chatter. constructor.
    + intros acc evs Hacc Hq. apply lingering_app; [exact Hacc|].
      now apply instance_round_lingering.
    + intros acc evs a Hacc Hq. apply instance_round_after; [exact Hacc|].
      eapply instance_round_lift; [exact Hq | reflexivity].
    + intros acc evs e Hacc Hq. apply instance_round_after; [exact Hacc|].
      eapply instance_round_lift; [exact Hq | reflexivity].
    + intros acc evs r Hacc [-> Hq]. apply instance_round_after; [exact Hacc|].
      split; [now apply calls_only_chatter|].
      split; [|split]; try discriminate.
      * intros e inst He Hs. apply observed_instance_some in Hs.
        destruct Hs. eapply observed_chatter; eauto.
      * intros x Hx. invert Hx. auto.
  - intros r evs Hr. exact Hr.
Qed.

Lemma is_live_spec inst :
  is_live inst = true <-> inst_status inst = "active" /\ inst_power_status inst = "running".
Proof. unfold is_live. now rewrite andb_true_iff, !String.eqb_eq. Qed.

(** X10: [_wait_for_instance] polls only the instance it was given.  It returns
    the instance of the first answer that shows it with status "active"
    and power status "running", and returns nothing else; its failures are
    the fatal exits of a poll or of the deadline and a [KeyError] for an
    answer without the key "instance". *)
Theorem wait_for_instance_outcome instance_id timeout w r w' :
  _wait_for_instance instance_id timeout w = (r, w') ->
  exists evs,
    trace w' = trace w ++ evs /\
    calls_only "GET" ("/instances/" +:+ instance_id) NoPayload evs /\
    (forall inst, r = Ok inst ->
       (inst_status inst = "active" /\ inst_power_status inst = "running") /\
       exists e, e ∈ evs /\ observed_instance e = Some inst) /\
    (forall e inst, e ∈ evs -> observed_instance e = Some inst ->
       inst_status inst = "active" /\ inst_power_status inst = "running" ->
       r = Ok inst) /\
    (forall x, r = Raise x -> x = SystemExit 1 \/ x = KeyError "instance").
Proof.
  intros H. destruct (_wait_for_instance_round instance_id timeout w r w' H)
    as (evs & Ht & Hc & H1 & H2 & H3).
  exists evs. split; [exact Ht|]. split; [exact Hc|]. split; [|split; [|exact H3]].
  - intros inst Hr. destruct (H1 inst Hr) as [Hl He]. split; [now apply is_live_spec | exact He].
  - intros e inst He Hs Hl. apply (H2 e inst He Hs). now apply is_live_spec.
Qed.

Definition instance_body (i : Instance) : Body :=
  {| instances := None; instance := Some i; snapshots := None; snapshot := None |}.

Definition booting_instance : Instance :=
  {| inst_id := "i-1"; inst_label := "Quant-Trading-Server"; inst_status := "pending";
     inst_power_status := "stopped"; inst_main_ip := "0.0.0.0" |}.

Lemma wait_for_instance_outcome_witness :
  let w := {| clock := noon;
              pending := [ ok_exchange (instance_body booting_instance); status_exchange 503;
                           ok_exchange (instance_body live_instance) ];
              trace := [] |} in
  let run := _wait_for_instance "i-1" 600 w in
  exists evs,
    trace (snd run) = trace w ++ evs /\
    calls_only "GET" ("/instances/" +:+ "i-1") NoPayload evs /\
    (forall inst, fst run = Ok inst ->
       (inst_status inst = "active" /\ inst_power_status inst = "running") /\
       exists e, e ∈ evs /\ observed_instance e = Some inst) /\
    (forall e inst, e ∈ evs -> observed_instance e = Some inst ->
       inst_status inst = "active" /\ inst_power_status inst = "running" ->
       fst run = Ok inst) /\
    (forall x, fst run = Raise x -> x = SystemExit 1 \/ x = KeyError "instance").
Proof.
  intros w run.
  apply (wait_for_instance_outcome "i-1" 600 w (fst run) (snd run)).
  vm_compute. reflexivity.
Defined.

(** *** How long the loops can poll *)

Lemma attempts_app evs1 evs2 : attempts (evs1 ++ evs2) = (attempts evs1 + attempts evs2)%nat.
Proof. unfold attempts. now rewrite List.filter_app, length_app. Qed.

(** A call with the default budget: at most three attempts, and the clock
    does not go back. *)
Lemma request_pace method path json w r w' :
  _request method path 3 json w = (r, w') ->
  exists evs,
    trace w' = trace w ++ evs /\ (attempts evs <= 3)%nat /\ clock w <= clock w'.
Proof.
  intros H. pose proof (request_clock _ _ _ _ _ _ _ H) as Hclk.
  apply _request_served in H as (evs & outs & Ht & _ & Hk & Hs).
  exists evs. repeat split; auto.
  rewrite (attempts_schedule _ _ _ Hk). apply served_length in Hs.
  unfold budget in Hs. destruct (non_idempotent method); simpl in Hs; lia.
Qed.

(** A loop whose rounds each make at most [cost] attempts and, when they
    fall through, take at least [step] microseconds, makes at most [cost]
    attempts for every [step] that fits before the deadline. *)
Lemma while_before_rounds {A} deadline (body : M (option A)) Hbody (orelse : M A)
    (step : Z) (cost : nat) :
  0 < step ->
  (forall w r w', body w = (r, w') ->
     exists evs, trace w' = trace w ++ evs /\ (attempts evs <= cost)%nat /\
       (r = Ok None -> clock w + step <= clock w')) ->
  (forall w r w', orelse w = (r, w') ->
     exists evs, trace w' = trace w ++ evs /\ attempts evs = 0%nat) ->
  forall w r w', while_before deadline body Hbody orelse w = (r, w') ->
  exists evs,
    trace w' = trace w ++ evs /\
    Z.of_nat (attempts evs) <=
      Z.of_nat cost * Z.max 0 ((deadline - clock w + step - 1) / step).
Proof.
  intros Hstep Hb Ho.
  assert (Hgen : forall n w, length (pending w) = n ->
    forall r w', while_before deadline body Hbody orelse w = (r, w') ->
    exists evs, trace w' = trace w ++ evs /\
      Z.of_nat (attempts evs) <=
        Z.of_nat cost * Z.max 0 ((deadline - clock w + step - 1) / step)).
  { induction n as [n IH] using lt_wf_ind. intros w Hn r w' H.
    rewrite while_before_equation_1 in H. simpl in H.
    pose proof (Z.ltb_spec (clock w) deadline) as Hlt.
    destruct (clock w <? deadline).
    - invert Hlt. simpl in H.
      assert (Hq : 1 <= (deadline - clock w + step - 1) / step)
        by (apply Z.div_le_lower_bound; lia).
      rewrite (Z.max_r 0 _) by lia.
      destruct (body w) as [[[a|]|e] w1] eqn:Hbw; simpl in H.
      + invert H. destruct (Hb _ _ _ Hbw) as (evs & Ht & Hc & _).
        exists evs. split; [exact Ht | nia].
      + destruct (Hb _ _ _ Hbw) as (evs1 & Ht1 & Hc1 & Hclk). specialize (Hclk eq_refl).
        pose proof (Hbody _ _ Hbw) as Hdec.
        destruct (IH (length (pending w1)) ltac:(lia) w1 eq_refl _ _ H) as (evs2 & Ht2 & Hc2).
        exists (evs1 ++ evs2). split; [now rewrite Ht2, Ht1, app_assoc|].
        rewrite attempts_app, Nat2Z.inj_add.
        assert (Hless : (deadline - clock w1 + step - 1) / step
                        <= (deadline - clock w + step - 1) / step - 1).
        { replace ((deadline - clock w + step - 1) / step - 1)
            with ((deadline - clock w + step - 1 + (-1) * step) / step)
            by (rewrite Z.div_add by lia; lia).
          apply Z.div_le_mono; lia. }
        destruct (Z.max_spec 0 ((deadline - clock w1 + step - 1) / step))
          as [[_ Hm]|[_ Hm]]; rewrite Hm in Hc2; nia.
      + invert H. destruct (Hb _ _ _ Hbw) as (evs & Ht & Hc & _).
        exists evs. split; [exact Ht | nia].
    - simpl in H. destruct (Ho _ _ _ H) as (evs & Ht & Hc).
      exists evs. split; [exact Ht|]. rewrite Hc. simpl. nia. }
  intros w r w' H. exact (Hgen _ w eq_refl _ _ H).
Qed.

Lemma wait_for_snapshot_body_pace sid w r w' :
  wait_for_snapshot_body sid w = (r, w') ->
  exists evs,
    trace w' = trace w ++ evs /\ (attempts evs <= 3)%nat /\
    (r = Ok None -> clock w + 30000000 <= clock w').
Proof.
  intros H. unfold wait_for_snapshot_body in H. rewrite bind_run in H.
  destruct (_request "GET" ("/snapshots/" +:+ sid) 3 NoPayload w) as [[b|x] w1] eqn:Hreq;
    apply request_pace in Hreq as (evs & Ht & Ha & Hclk).
  - destruct (snapshot b) as [snap|]; simpl in H.
    + mrun H. destruct (String.eqb (snap_status snap) "complete").
      * mrun H. invert H. eexists (evs ++ _).
        split; [simpl; rewrite Ht, <- !app_assoc; reflexivity|].
        split; [rewrite attempts_app; unfold attempts in *; simpl; lia | discriminate].
      * destruct (String.eqb (snap_status snap) "error").
        -- mrun H. invert H. eexists (evs ++ _).
           split; [simpl; rewrite Ht, <- !app_assoc; reflexivity|].
           split; [rewrite attempts_app; unfold attempts in *; simpl; lia | discriminate].
        -- mrun H. invert H. eexists (evs ++ _).
           split; [simpl; rewrite Ht, <- !app_assoc; reflexivity|].
           split; [rewrite attempts_app; unfold attempts in *; simpl; lia|].
           intros _. simpl. unfold Calendar.us_per_second. lia.
    + invert H. exists evs. repeat split; auto. discriminate.
  - invert H. exists evs. repeat split; auto. discriminate.
Qed.

Lemma _wait_for_instance_body_pace id w r w' :
  _wait_for_instance_body id w = (r, w') ->
  exists evs,
    trace w' = trace w ++ evs /\ (attempts evs <= 3)%nat /\
    (r = Ok None -> clock w + 20000000 <= clock w').
Proof.
  intros H. unfold _wait_for_instance_body in H. rewrite bind_run in H.
  destruct (_request "GET" ("/instances/" +:+ id) 3 NoPayload w) as [[b|x] w1] eqn:Hreq;
    apply request_pace in Hreq as (evs & Ht & Ha & Hclk).
  - destruct (instance b) as [inst|]; simpl in H.
    + mrun H. destruct (_ && _).
      * mrun H. invert H. eexists (evs ++ _).
        split; [simpl; rewrite Ht, <- !app_assoc; reflexivity|].
        split; [rewrite attempts_app; unfold attempts in *; simpl; lia | discriminate].
      * mrun H. invert H. eexists (evs ++ _).
        split; [simpl; rewrite Ht, <- !app_assoc; reflexivity|].
        split; [rewrite attempts_app; unfold attempts in *; simpl; lia|].
        intros _. simpl. unfold Calendar.us_per_second. lia.
    + invert H. exists evs. repeat split; auto. discriminate.
  - invert H. exists evs. repeat split; auto. discriminate.
Qed.

Lemma fatal_no_attempt {A} msg w (r : Result A) w' :
  (log ERROR msg ≫= fun _ => raise (SystemExit 1)) w = (r, w') ->
  exists evs, trace w' = trace w ++ evs /\ attempts evs = 0%nat.
Proof. intros H. mrun H. invert H. eexists. split; reflexivity. Qed.

(** X11: The provider taking no negative time to answer, [wait_for_snapshot]
    starts at most one round of polling for every thirty seconds of its
    timeout, each of at most three attempts: 360 requests at most with the
    default timeout of an hour. *)
Theorem wait_for_snapshot_poll_bound snap_id timeout w r w' :
  wait_for_snapshot snap_id timeout w = (r, w') ->
  exists evs,
    trace w' = trace w ++ evs /\
    Z.of_nat (attempts evs) <= 3 * Z.max 0 ((timeout + 29) / 30) /\
    (timeout = 3600 -> (attempts evs <= 360)%nat).
Proof.
  intros H.
  change (wait_for_snapshot snap_id timeout w) with
    (while_before (clock w + timeout * Calendar.us_per_second)
       (wait_for_snapshot_body snap_id) (wait_for_snapshot_body_consumes snap_id)
       (log ERROR "Snapshot %s did not complete within %ds";; raise (SystemExit 1))
       {| clock := clock w; pending := pending w;
          trace := trace w ++ [EvLog INFO "Waiting for snapshot %s to complete ..."] |}) in H.
  eapply (while_before_rounds _ _ _ _ 30000000 3) in H;
    [ | lia | apply wait_for_snapshot_body_pace | apply fatal_no_attempt ].
  destruct H as (evs & Ht & Hb). simpl in Ht, Hb.
  exists (EvLog INFO "Waiting for snapshot %s to complete ..." :: evs).
  split; [rewrite Ht, <- app_assoc; reflexivity|].
  assert (Hq : (clock w + timeout * Calendar.us_per_second - clock w + 30000000 - 1) / 30000000
               = (timeout + 29) / 30).
  { unfold Calendar.us_per_second. Z.div_mod_to_equations. lia. }
  rewrite Hq in Hb.
  change (attempts (EvLog INFO "Waiting for snapshot %s to complete ..." :: evs))
    with (attempts evs).
  split; [exact Hb|]. intros ->. change ((3600 + 29) / 30) with 120 in Hb. lia.
Qed.

Lemma wait_for_snapshot_poll_bound_witness :
  let w := poll_world ["pending"; "pending"; "complete"] in
  let run := wait_for_snapshot "snap-9" 3600 w in
  exists evs,
    trace (snd run) = trace w ++ evs /\
    Z.of_nat (attempts evs) <= 3 * Z.max 0 ((3600 + 29) / 30) /\
    (3600 = 3600 -> (attempts evs <= 360)%nat).
Proof.
  intros w run.
  apply (wait_for_snapshot_poll_bound "snap-9" 3600 w (fst run) (snd run)).
  vm_compute. reflexivity.
Defined.

(** X12: Likewise [_wait_for_instance] starts at most one round for every
    twenty seconds of its timeout: 90 requests at most with the default
    timeout of ten minutes. *)
Theorem wait_for_instance_poll_bound instance_id timeout w r w' :
  _wait_for_instance instance_id timeout w = (r, w') ->
  exists evs,
    trace w' = trace w ++ evs /\
    Z.of_nat (attempts evs) <= 3 * Z.max 0 ((timeout + 19) / 20) /\
    (timeout = 600 -> (attempts evs <= 90)%nat).
Proof.
  intros H.
  change (_wait_for_instance instance_id timeout w) with
    (while_before (clock w + timeout * Calendar.us_per_second)
       (_wait_for_instance_body instance_id) (_wait_for_instance_body_consumes instance_id)
       (log ERROR "Instance did not become active within %ds";; raise (SystemExit 1)) w) in H.
  eapply (while_before_rounds _ _ _ _ 20000000 3) in H;
    [ | lia | apply _wait_for_instance_body_pace | apply fatal_no_attempt ].
  destruct H as (evs & Ht & Hb). exists evs. split; [exact Ht|].
  assert (Hq : (clock w + timeout * Calendar.us_per_second - clock w + 20000000 - 1) / 20000000
               = (timeout + 19) / 20).
  { unfold Calendar.us_per_second. Z.div_mod_to_equations. lia. }
  rewrite Hq in Hb. split; [exact Hb|].
  intros ->. change ((600 + 19) / 20) with 30 in Hb. lia.
Qed.

Lemma wait_for_instance_poll_bound_witness :
  let w := {| clock := noon;
              pending := [ ok_exchange (instance_body booting_instance);
                           ok_exchange (instance_body live_instance) ];
              trace := [] |} in
  let run := _wait_for_instance "i-1" 600 w in
  exists evs,
    trace (snd run) = trace w ++ evs /\
    Z.of_nat (attempts evs) <= 3 * Z.max 0 ((600 + 19) / 20) /\
    (600 = 600 -> (attempts evs <= 90)%nat).
Proof.
  intros w run.
  apply (wait_for_instance_poll_bound "i-1" 600 w (fst run) (snd run)).
  vm_compute. reflexivity.
Defined.

(** ** Creating the instance *)

(** The value of [latest_backup_snapshot() or SNAPSHOT_ID]: an empty id is
    falsy. *)
Definition boot_snapshot (cfg : Config) (latest : option string) : string :=
  match latest with
  | Some id => if String.eqb id "" then SNAPSHOT_ID cfg else id
  | None => SNAPSHOT_ID cfg
  end.

(** An event that changes nothing at the provider. *)
Definition is_read (e : Event) : bool :=
  match e with EvHttp m _ _ _ => String.eqb m "GET" | _ => true end.

Lemma calls_only_read path json evs :
  calls_only "GET" path json evs -> Forall (fun e => is_read e = true) evs.
Proof.
  unfold calls_only. intros H. eapply Forall_impl; [exact H|].
  intros [m u j o|s|l msg] He; simpl; auto. destruct He as (-> & _). reflexivity.
Qed.

(** A POST is one attempt. *)
Lemma request_post_once path json retries :
  _request "POST" path retries json =
  request_loop "POST" path (BASE_URL +:+ path) json 1 [1].
Proof. reflexivity. Qed.

(** X13: After the listing of the snapshots, [create_instance] logs and sends
    one POST to [/instances], never repeated, that carries the region, the
    plan, the label, backups disabled, the boot payload, and as snapshot
    the latest backup when there is one with a non-empty id, the configured
    base snapshot otherwise.  Everything after it is a read: nothing when
    the answer has no "instance" key (a [KeyError]), polls of the created
    instance when it has one, and only log lines before the fatal exit
    when the call failed. *)
Theorem create_instance_single_post cfg w latest w1 r w' :
  latest_backup_snapshot w = (Ok latest, w1) ->
  create_instance cfg w = (r, w') ->
  exists out rest,
    trace w' =
      trace w1 ++
        EvLog INFO "Creating instance from snapshot %s in region %s ..." ::
        EvHttp "POST" (BASE_URL +:+ "/instances")
          (InstancePayload (REGION cfg) (PLAN cfg) (boot_snapshot cfg latest) LABEL
             "disabled" (user_data cfg)) out :: rest /\
    Forall (fun e => is_read e = true) rest /\
    (response_body out = None ->
       r = Raise (SystemExit 1) /\ Forall (fun e => is_http e = false) rest) /\
    (forall b, response_body out = Some b -> instance b = None ->
       r = Raise (KeyError "instance") /\ rest = []) /\
    (forall b inst, response_body out = Some b -> instance b = Some inst ->
       calls_only "GET" ("/instances/" +:+ inst_id inst) NoPayload rest).
Proof.
  intros Hl H. unfold create_instance in H. rewrite bind_run, Hl in H. cbv zeta in H.
  fold (boot_snapshot cfg latest) in H.
  set (payload := InstancePayload _ _ _ _ _ _) in *.
  rewrite bind_run in H. unfold log at 1, emit in H. cbn beta iota in H.
  rewrite bind_run, request_post_once in H. cbn [request_loop] in H.
  rewrite bind_run in H. unfold requests_request in H at 1. cbn [pending trace clock] in H.
  assert (Hfail : forall out l,
    response_body out = None ->
    trace w' =
      trace w1 ++ [EvLog INFO "Creating instance from snapshot %s in region %s ..."]
        ++ [EvHttp "POST" (BASE_URL +:+ "/instances") payload out] ++ l ->
    r = Raise (SystemExit 1) ->
    Forall (fun e => is_http e = false) l ->
    exists out rest,
      trace w' =
        trace w1 ++
          EvLog INFO "Creating instance from snapshot %s in region %s ..." ::
          EvHttp "POST" (BASE_URL +:+ "/instances") payload out :: rest /\
      Forall (fun e => is_read e = true) rest /\
      (response_body out = None ->
         r = Raise (SystemExit 1) /\ Forall (fun e => is_http e = false) rest) /\
      (forall b, response_body out = Some b -> instance b = None ->
         r = Raise (KeyError "instance") /\ rest = []) /\
      (forall b inst, response_body out = Some b -> instance b = Some inst ->
         calls_only "GET" ("/instances/" +:+ inst_id inst) NoPayload rest)).
  { intros out l Hb Ht -> Hchat. exists out, l.
    split; [rewrite Ht; reflexivity|]. split; [|split; [auto | split; intros; congruence]].
    eapply Forall_impl; [exact Hchat|]. intros [m u j o|s|k msg]; simpl; auto. discriminate. }
  destruct (pending w1) as [|x ps] eqn:Hp.
  - mrun H. invert H.
    eapply (Hfail RequestException
              [EvLog WARNING "Attempt %d/%d - network error: %s";
               EvLog ERROR "All %d attempts failed for %s %s"]);
      [reflexivity | simpl; rewrite <- !app_assoc; reflexivity | reflexivity
      | repeat constructor].
  - destruct (outcome x) as [resp|] eqn:Hout.
    + destruct (is_success (status_code resp)) eqn:Hs;
        [destruct (decoded resp) as [b0|] eqn:Hd|].
      * cbn beta iota in H.
        unfold mret, M_ret, ret in H. cbn beta iota in H.
        destruct (instance b0) as [inst|] eqn:Hinst; simpl subscript in H.
        -- rewrite bind_run in H. unfold ret in H. cbn beta iota in H.
           rewrite bind_run in H. unfold log at 1, emit in H. cbn beta iota in H.
           apply _wait_for_instance_round in H as (evs & Ht & Hc & _).
           simpl in Ht.
           exists (Responded resp), (EvLog INFO "Instance %s created - waiting for it to become active ..." :: evs).
           split; [rewrite Ht, <- !app_assoc; reflexivity|].
           split; [constructor; [reflexivity | eapply calls_only_read; eauto]|].
           split; [simpl; rewrite Hs, Hd; discriminate|].
           split.
           ++ intros b Hb Hnone. simpl in Hb. rewrite Hs, Hd in Hb. invert Hb. congruence.
           ++ intros b i Hb Hi. simpl in Hb. rewrite Hs, Hd in Hb. invert Hb.
              assert (i = inst) by congruence. subst i.
              constructor; [exact I | exact Hc].
        -- rewrite bind_run in H. unfold raise in H. cbn beta iota in H. invert H.
           exists (Responded resp), []. simpl. rewrite <- !app_assoc.
           split; [reflexivity|]. split; [constructor|].
           split; [rewrite Hs, Hd; discriminate|].
           split.
           ++ intros b Hb Hnone. auto.
           ++ intros b i Hb Hi. rewrite Hs, Hd in Hb. invert Hb. congruence.
      * mrun H. invert H.
        eapply (Hfail (Responded resp)
                  [EvLog WARNING "Attempt %d/%d - network error: %s";
                   EvLog ERROR "All %d attempts failed for %s %s"]);
          [simpl; now rewrite Hs, Hd | simpl; rewrite <- !app_assoc; reflexivity | reflexivity
          | repeat constructor].
      * destruct (is_client_error (status_code resp)) eqn:Hc.
        -- mrun H. invert H.
           eapply (Hfail (Responded resp) [EvLog ERROR "Client error %s: %s"]);
             [simpl; now rewrite Hs | simpl; rewrite <- !app_assoc; reflexivity | reflexivity
             | repeat constructor].
        -- mrun H. invert H.
           eapply (Hfail (Responded resp)
                     [EvLog WARNING "Attempt %d/%d - HTTP %s: %s";
                      EvLog ERROR "All %d attempts failed for %s %s"]);
             [simpl; now rewrite Hs | simpl; rewrite <- !app_assoc; reflexivity | reflexivity
             | repeat constructor].
    + mrun H. invert H.
      eapply (Hfail RequestException
                [EvLog WARNING "Attempt %d/%d - network error: %s";
                 EvLog ERROR "All %d attempts failed for %s %s"]);
        [reflexivity | simpl; rewrite <- !app_assoc; reflexivity | reflexivity
        | repeat constructor].
Qed.

Definition create_world : World :=
  {| clock := noon;
     pending := [ ok_exchange same_day_backups;
                  ok_exchange (instance_body booting_instance);
                  ok_exchange (instance_body live_instance) ];
     trace := [] |}.

Lemma create_instance_single_post_witness :
  let w1 := snd (latest_backup_snapshot create_world) in
  let run := create_instance witness_config create_world in
  exists out rest,
    trace (snd run) =
      trace w1 ++
        EvLog INFO "Creating instance from snapshot %s in region %s ..." ::
        EvHttp "POST" (BASE_URL +:+ "/instances")
          (InstancePayload (REGION witness_config) (PLAN witness_config)
             (boot_snapshot witness_config (Some "morning")) LABEL
             "disabled" (user_data witness_config)) out :: rest /\
    Forall (fun e => is_read e = true) rest /\
    (response_body out = None ->
       fst run = Raise (SystemExit 1) /\ Forall (fun e => is_http e = false) rest) /\
    (forall b, response_body out = Some b -> instance b = None ->
       fst run = Raise (KeyError "instance") /\ rest = []) /\
    (forall b inst, response_body out = Some b -> instance b = Some inst ->
       calls_only "GET" ("/instances/" +:+ inst_id inst) NoPayload rest).
Proof.
  intros w1 run.
  apply (create_instance_single_post witness_config create_world (Some "morning") w1
           (fst run) (snd run)); vm_compute; reflexivity.
Defined.

(** ** Dates: from the clock to a description and back *)

(** [f] holds of the [n] integers from [z] on. *)
Fixpoint all_from (f : Z -> bool) (n : nat) (z : Z) : bool :=
  match n with
  | O => true
  | S n' => if f z then all_from f n' (z + 1) else false
  end.

Lemma all_from_spec f n :
  forall z, all_from f n z = true ->
    forall k, 0 <= k < Z.of_nat n -> f (z + k) = true.
Proof.
  induction n as [|n IH]; intros z H k Hk; [lia|]. simpl in H.
  destruct (f z) eqn:Hf; [|discriminate].
  destruct (Z.eq_dec k 0) as [->|Hne]; [now rewrite Z.add_0_r|].
  replace (z + k) with (z + 1 + (k - 1)) by lia. apply IH; [exact H | lia].
Qed.

(** The civil date of a day number is a date of the calendar, and the day
    number of that date is the one started from. *)
Definition civil_ok (z : Z) : bool :=
  let '(y, m, d) := Calendar.civil_from_days z in
  (1 <=? m) && (m <=? 12) && (1 <=? d) && (d <=? Calendar.days_in_month y m)
  && (Calendar.days_from_civil y m d =? z).

(** One era of 400 years, checked day by day. *)
Lemma civil_ok_era : all_from civil_ok (Z.to_nat 146097) (-719468) = true.
Proof. vm_cast_no_check (@eq_refl bool true). Qed.

Lemma civil_from_days_shift z k :
  Calendar.civil_from_days (z + 146097 * k) =
  let '(y, m, d) := Calendar.civil_from_days z in (y + 400 * k, m, d).
Proof.
  unfold Calendar.civil_from_days. cbv zeta.
  replace ((z + 146097 * k + 719468) / 146097) with ((z + 719468) / 146097 + k)
    by (replace (z + 146097 * k + 719468) with (z + 719468 + k * 146097) by ring;
        now rewrite Z.div_add by lia).
  replace (z + 146097 * k + 719468 - ((z + 719468) / 146097 + k) * 146097)
    with (z + 719468 - (z + 719468) / 146097 * 146097) by ring.
  f_equal. f_equal. ring.
Qed.

Lemma days_from_civil_shift y m d k :
  Calendar.days_from_civil (y + 400 * k) m d = Calendar.days_from_civil y m d + 146097 * k.
Proof.
  unfold Calendar.days_from_civil. cbv zeta.
  set (y' := if m <=? 2 then y - 1 else y).
  replace (if m <=? 2 then y + 400 * k - 1 else y + 400 * k) with (y' + k * 400)
    by (unfold y'; destruct (m <=? 2); ring).
  rewrite Z.div_add by lia.
  replace (y' + k * 400 - (y' / 400 + k) * 400) with (y' - y' / 400 * 400) by ring.
  ring.
Qed.

Lemma is_leap_shift y k : Calendar.is_leap (y + 400 * k) = Calendar.is_leap y.
Proof.
  unfold Calendar.is_leap.
  replace ((y + 400 * k) mod 4) with (y mod 4)
    by (replace (y + 400 * k) with (y + (100 * k) * 4) by ring; now rewrite Z_mod_plus_full).
  replace ((y + 400 * k) mod 100) with (y mod 100)
    by (replace (y + 400 * k) with (y + (4 * k) * 100) by ring; now rewrite Z_mod_plus_full).
  replace ((y + 400 * k) mod 400) with (y mod 400)
    by (replace (y + 400 * k) with (y + k * 400) by ring; now rewrite Z_mod_plus_full).
  reflexivity.
Qed.

Lemma days_in_month_shift y m k :
  Calendar.days_in_month (y + 400 * k) m = Calendar.days_in_month y m.
Proof. unfold Calendar.days_in_month. now rewrite is_leap_shift. Qed.

Lemma civil_from_days_valid z y m d :
  Calendar.civil_from_days z = (y, m, d) ->
  1 <= m <= 12 /\ 1 <= d <= Calendar.days_in_month y m /\
  Calendar.days_from_civil y m d = z.
Proof.
  intros H. set (k := (z + 719468) / 146097).
  assert (Hz0 : 0 <= z - 146097 * k + 719468 < 146097)
    by (unfold k; Z.div_mod_to_equations; lia).
  pose proof (all_from_spec _ _ _ civil_ok_era (z - 146097 * k + 719468)
                ltac:(rewrite Z2Nat.id; lia)) as Hok.
  replace (-719468 + (z - 146097 * k + 719468)) with (z - 146097 * k) in Hok by ring.
  replace z with (z - 146097 * k + 146097 * k) in H by ring.
  rewrite civil_from_days_shift in H. unfold civil_ok in Hok.
  destruct (Calendar.civil_from_days (z - 146097 * k)) as [[y0 m0] d0].
  invert H.
  rewrite !andb_true_iff, !Z.leb_le, Z.eqb_eq in Hok.
  rewrite days_in_month_shift, days_from_civil_shift. lia.
Qed.

(** What [strftime] writes, [strptime] reads back. *)

Lemma digit_digit_char d rest :
  Strptime.digit (String (Strptime.digit_char d) rest) = Some (d mod 10, rest).
Proof.
  unfold Strptime.digit, Strptime.next_char, Strptime.byte, Strptime.digit_char.
  pose proof (Z.mod_pos_bound d 10 ltac:(lia)) as Hd.
  rewrite nat_ascii_embedding by lia. rewrite Z2Nat.id by lia.
  destruct (Z.ltb_spec (48 + d mod 10) 128); [|lia].
  unfold Strptime.decimal, Strptime.decimal_zeros. cbn [List.find].
  assert (Hf : (48 <=? 48 + d mod 10) && (48 + d mod 10 <=? 48 + 9) = true)
    by (apply andb_true_intro; split; apply Z.leb_le; lia).
  rewrite Hf. do 2 f_equal. lia.
Qed.

Lemma append_cons c s t : String c s +:+ t = String c (s +:+ t).
Proof. reflexivity. Qed.

Lemma append_nil t : "" +:+ t = t.
Proof. reflexivity. Qed.

Lemma match_Y_pad a b rest :
  Strptime.match_Y (Strptime.pad2 a +:+ Strptime.pad2 b +:+ rest) =
  Some (1000 * ((a / 10) mod 10) + 100 * (a mod 10) + 10 * ((b / 10) mod 10) + b mod 10, rest).
Proof.
  unfold Strptime.pad2, Strptime.match_Y. rewrite !append_cons, !append_nil.
  now rewrite !digit_digit_char.
Qed.

Definition md_ok (m d : Z) : bool :=
  match Strptime.first_md (Strptime.match_m (Strptime.pad2 m +:+ Strptime.pad2 d)) with
  | Some (m', d', EmptyString) => (m' =? m) && (d' =? d)
  | _ => false
  end.

Lemma md_ok_all : all_from (fun m => all_from (md_ok m) 31 1) 12 1 = true.
Proof. vm_compute. reflexivity. Qed.

Lemma first_md_pad m d :
  1 <= m <= 12 -> 1 <= d <= 31 ->
  Strptime.first_md (Strptime.match_m (Strptime.pad2 m +:+ Strptime.pad2 d)) = Some (m, d, "").
Proof.
  intros Hm Hd.
  pose proof (all_from_spec _ _ _ md_ok_all (m - 1) ltac:(simpl; lia)) as H1.
  replace (1 + (m - 1)) with m in H1 by lia.
  pose proof (all_from_spec _ _ _ H1 (d - 1) ltac:(simpl; lia)) as H2.
  replace (1 + (d - 1)) with d in H2 by lia.
  unfold md_ok in H2.
  destruct (Strptime.first_md _) as [[[m' d'] [|c rest]]|]; try discriminate.
  apply andb_prop in H2 as [Hm' Hd']. apply Z.eqb_eq in Hm', Hd'. congruence.
Qed.

Lemma days_in_month_le y m : Calendar.days_in_month y m <= 31.
Proof.
  unfold Calendar.days_in_month.
  destruct (m =? 2); [destruct (Calendar.is_leap y); lia|].
  destruct (_ || _); lia.
Qed.

Lemma strptime_strftime y m d :
  1000 <= y <= 9999 -> 1 <= m <= 12 -> 1 <= d <= Calendar.days_in_month y m ->
  Strptime.strptime_Ymd (Strptime.strftime_Ymd (y, m, d)) = Some (y, m, d).
Proof.
  intros Hy Hm Hd. pose proof (days_in_month_le y m) as Hle.
  unfold Strptime.strptime_Ymd, Strptime.strftime_Ymd.
  rewrite match_Y_pad, first_md_pad by lia.
  replace (1000 * ((y / 100 / 10) mod 10) + 100 * ((y / 100) mod 10)
           + 10 * ((y mod 100 / 10) mod 10) + (y mod 100) mod 10) with y
    by (Z.div_mod_to_equations; lia).
  destruct (Z.leb_spec 1 y); [|lia].
  destruct (Z.leb_spec d (Calendar.days_in_month y m)); [|lia].
  reflexivity.
Qed.

(** Removing the prefix from a description made of the prefix and a short
    suffix leaves the suffix. *)
Lemma prefix_length p :
  forall s, String.prefix p s = true -> (String.length p <= String.length s)%nat.
Proof.
  induction p as [|a p IH]; intros s H; simpl; [lia|].
  destruct s as [|b s]; simpl in H; [discriminate|].
  destruct (ascii_dec a b); [|discriminate]. apply IH in H. simpl. lia.
Qed.

Lemma remove_all_short old s :
  (String.length s < String.length old)%nat -> Py.remove_all_aux old O s = s.
Proof.
  induction s as [|c s IH]; intros Hlen; [reflexivity|]. cbn [Py.remove_all_aux].
  destruct (String.prefix old (String c s)) eqn:Hp.
  - apply prefix_length in Hp. simpl in *. lia.
  - rewrite IH; [reflexivity | simpl in Hlen; lia].
Qed.

Lemma remove_all_skip old p :
  forall s, Py.remove_all_aux old (String.length p) (p +:+ s) = Py.remove_all_aux old O s.
Proof. induction p as [|c p IH]; intros s; [reflexivity|]. simpl. apply IH. Qed.

Lemma prefix_app p s : String.prefix p (p +:+ s) = true.
Proof.
  induction p as [|c p IH]; simpl.
  - now destruct s.
  - destruct (ascii_dec c c); [exact IH | congruence].
Qed.

Lemma startswith_app p s : Py.startswith (p +:+ s) p = true.
Proof. apply prefix_app. Qed.

Lemma remove_all_prefix old s :
  old <> "" -> (String.length s < String.length old)%nat ->
  Py.remove_all old (old +:+ s) = s.
Proof.
  intros Hne Hlen. unfold Py.remove_all. destruct old as [|c old]; [congruence|].
  rewrite append_cons. cbn [Py.remove_all_aux]. rewrite <- append_cons.
  rewrite (prefix_app (String c old) s).
  replace (String.length (String c old) - 1)%nat with (String.length old)
    by (simpl; lia).
  rewrite remove_all_skip. now apply remove_all_short.
Qed.

(** The trace of a POST: the call, then log lines only. *)
Lemma request_post_shape path json retries w r w' :
  _request "POST" path retries json w = (r, w') ->
  exists out rest,
    trace w' = trace w ++ EvHttp "POST" (BASE_URL +:+ path) json out :: rest /\
    Forall (fun e => is_http e = false) rest /\
    match response_body out with
    | Some b => r = Ok b /\ rest = []
    | None => r = Raise (SystemExit 1)
    end.
Proof.
  rewrite request_post_once. cbn [request_loop]. rewrite bind_run.
  unfold requests_request at 1. intros H.
  destruct (pending w) as [|x ps].
  - mrun H. invert H. exists RequestException. eexists. simpl. rewrite <- !app_assoc.
    split; [reflexivity|]. split; [repeat constructor | reflexivity].
  - destruct (outcome x) as [resp|] eqn:Hout.
    + destruct (is_success (status_code resp)) eqn:Hs;
        [destruct (decoded resp) as [b0|] eqn:Hd|].
      * invert H. exists (Responded resp), []. simpl. rewrite Hs, Hd.
        split; [reflexivity|]. split; [constructor | auto].
      * mrun H; invert H;
          exists (Responded resp); eexists; simpl; rewrite Hs, Hd, <- !app_assoc;
          (split; [reflexivity|]); (split; [repeat constructor | reflexivity]).
      * destruct (is_client_error (status_code resp)); mrun H; invert H;
          exists (Responded resp); eexists; simpl; rewrite Hs, <- !app_assoc;
          (split; [reflexivity|]); (split; [repeat constructor | reflexivity]).
    + mrun H. invert H. exists RequestException. eexists. simpl. rewrite <- !app_assoc.
      split; [reflexivity|]. split; [repeat constructor | reflexivity].
Qed.

Lemma strftime_length ymd : String.length (Strptime.strftime_Ymd ymd) = 8%nat.
Proof. destruct ymd as [[y m] d]. reflexivity. Qed.

(** X14: [create_snapshot] sends one POST to [/snapshots], never repeated, for
    the instance it was given; when the UTC year has four digits, the
    description it carries starts with the backup prefix and, with the
    prefix removed as [prune_old_snapshots] does, parses back to the UTC
    date of the call, so that the backup is zero days old when it is made.
    The result is the id of the snapshot in the answer, a [KeyError] when a
    2xx answer has no "snapshot" key, and a fatal exit when the call
    failed. *)
Theorem create_snapshot_description_parses instance_id w y m d r w' :
  Calendar.civil_from_days (clock w / Calendar.us_per_day) = (y, m, d) ->
  1000 <= y <= 9999 ->
  create_snapshot instance_id w = (r, w') ->
  exists desc out rest,
    trace w' =
      trace w ++
        EvLog INFO "Creating snapshot '%s' for instance %s ..." ::
        EvHttp "POST" (BASE_URL +:+ "/snapshots") (SnapshotPayload instance_id desc) out
        :: rest /\
    Forall (fun e => is_http e = false) rest /\
    Py.startswith desc BACKUP_PREFIX = true /\
    Strptime.strptime_Ymd (Py.remove_all BACKUP_PREFIX desc) = Some (y, m, d) /\
    age_days (clock w) (y, m, d) = 0 /\
    match response_body out with
    | Some b =>
        match snapshot b with
        | Some s => r = Ok (snap_id s)
        | None => r = Raise (KeyError "snapshot")
        end
    | None => r = Raise (SystemExit 1)
    end.
Proof.
  intros Hciv Hy H. unfold create_snapshot in H. rewrite bind_run in H.
  unfold utcnow in H. cbn beta iota zeta in H. rewrite Hciv in H.
  set (desc := BACKUP_PREFIX +:+ Strptime.strftime_Ymd (y, m, d)) in H.
  rewrite bind_run in H. unfold log at 1, emit in H. cbn beta iota in H.
  rewrite bind_run in H.
  destruct (civil_from_days_valid _ _ _ _ Hciv) as (Hm & Hd & Hdays).
  assert (Hstart : Py.startswith desc BACKUP_PREFIX = true) by apply startswith_app.
  assert (Hparse : Strptime.strptime_Ymd (Py.remove_all BACKUP_PREFIX desc) = Some (y, m, d)).
  { unfold desc. rewrite remove_all_prefix.
    - now apply strptime_strftime.
    - discriminate.
    - rewrite strftime_length. simpl. lia. }
  assert (Hage : age_days (clock w) (y, m, d) = 0).
  { unfold age_days, midnight. rewrite Hdays.
    change Calendar.us_per_day with 86400000000.
    Z.div_mod_to_equations. lia. }
  match type of H with
  | context [_request ?mth ?p ?rt ?j ?w0] =>
      destruct (_request mth p rt j w0) as [rq w1] eqn:Hreq
  end.
  apply request_post_shape in Hreq as (out & rest & Ht & Hchat & Hres). simpl in Ht.
  exists desc, out.
  destruct (response_body out) as [b|] eqn:Hb.
  - destruct Hres as [-> ->]. cbn beta iota in H.
    destruct (snapshot b) as [s|] eqn:Hs; simpl in H.
    + mrun H. invert H. exists [EvLog INFO "Snapshot %s queued."].
      split; [simpl; rewrite Ht, <- !app_assoc; reflexivity|].
      repeat split; auto; repeat constructor.
    + invert H. exists [].
      split; [rewrite Ht, <- !app_assoc; reflexivity|].
      repeat split; auto.
  - subst rq. invert H. exists rest.
    split; [rewrite Ht, <- !app_assoc; reflexivity|].
    repeat split; auto.
Qed.

Lemma create_snapshot_description_parses_witness :
  let w := stop_world [] in
  let run := create_snapshot "i-1" w in
  exists desc out rest,
    trace (snd run) =
      trace w ++
        EvLog INFO "Creating snapshot '%s' for instance %s ..." ::
        EvHttp "POST" (BASE_URL +:+ "/snapshots") (SnapshotPayload "i-1" desc) out
        :: rest /\
    Forall (fun e => is_http e = false) rest /\
    Py.startswith desc BACKUP_PREFIX = true /\
    Strptime.strptime_Ymd (Py.remove_all BACKUP_PREFIX desc) = Some (2024, 1, 5) /\
    age_days (clock w) (2024, 1, 5) = 0 /\
    match response_body out with
    | Some b =>
        match snapshot b with
        | Some s => fst run = Ok (snap_id s)
        | None => fst run = Raise (KeyError "snapshot")
        end
    | None => fst run = Raise (SystemExit 1)
    end.
Proof.
  intros w run.
  apply (create_snapshot_description_parses "i-1" w 2024 1 5 (fst run) (snd run)).
  - vm_compute. reflexivity.
  - lia.
  - vm_compute. reflexivity.
Defined.

(** ** What pruning keeps and what it deletes *)

(** X15: With a count limit that is not negative, every backup that rule 2
    leaves out of the deletion set is among the first [max_count] of the
    newest-first order: at most [max_count] backups survive.  With a limit
    of zero every backup is selected, the newest included. *)
Theorem count_rule_bounds_survivors retain_days max_count backups w :
  0 <= max_count ->
  exists D,
    deletion_set retain_days max_count backups w = (Ok D, w) /\
    (forall i s, backups !! i = Some s -> snap_id s ∉ D -> Z.of_nat i < max_count) /\
    (max_count = 0 -> forall s, s ∈ backups -> snap_id s ∈ D).
Proof.
  intros Hmc.
  destruct (deletion_set_spec retain_days max_count backups w) as (D & Hrun & HD).
  exists D. split; [exact Hrun|].
  assert (Hsel : forall i s, backups !! i = Some s -> max_count <= Z.of_nat i ->
            snap_id s ∈ D).
  { intros i s Hi Hle. apply HD. right. exists s. split; [|reflexivity].
    unfold Py.slice_from. destruct (Z.ltb_spec max_count 0); [lia|].
    apply list_elem_of_lookup. exists (i - Z.to_nat max_count)%nat.
    rewrite lookup_drop. replace (Z.to_nat max_count + (i - Z.to_nat max_count))%nat with i by lia.
    exact Hi. }
  split.
  - intros i s Hi Hnot. destruct (Z_lt_le_dec (Z.of_nat i) max_count) as [Hlt|Hle]; [exact Hlt|].
    destruct Hnot. eapply Hsel; eauto.
  - intros -> s Hs. apply list_elem_of_lookup in Hs as [i Hi]. apply (Hsel i s Hi). lia.
Qed.

Lemma count_rule_bounds_survivors_witness :
  exists D,
    deletion_set 3 0 (sorted_backups scenario2) (at_time noon) = (Ok D, at_time noon) /\
    (forall i s, sorted_backups scenario2 !! i = Some s -> snap_id s ∉ D -> Z.of_nat i < 0) /\
    (0 = 0 -> forall s, s ∈ sorted_backups scenario2 -> snap_id s ∈ D).
Proof. apply (count_rule_bounds_survivors 3 0 (sorted_backups scenario2) (at_time noon)). lia. Defined.

(** X16: Raising the retention period or the count limit never adds a snapshot
    to the deletion set. *)
Theorem looser_policy_deletes_less days1 days2 count1 count2 backups w :
  days1 <= days2 ->
  0 <= count1 <= count2 ->
  exists D1 D2,
    deletion_set days1 count1 backups w = (Ok D1, w) /\
    deletion_set days2 count2 backups w = (Ok D2, w) /\
    D2 ⊆ D1.
Proof.
  intros Hd Hc.
  destruct (deletion_set_spec days1 count1 backups w) as (D1 & Hrun1 & HD1).
  destruct (deletion_set_spec days2 count2 backups w) as (D2 & Hrun2 & HD2).
  exists D1, D2. split; [exact Hrun1|]. split; [exact Hrun2|].
  intros x Hx. apply HD2 in Hx. apply HD1.
  destruct Hx as [(s & Hs & Hid & Hsel)|(s & Hs & Hid)].
  - left. exists s. split; [exact Hs|]. split; [exact Hid|].
    unfold selected_by_age in *. destruct (Strptime.strptime_Ymd (date_str s)); [|discriminate].
    rewrite Z.gtb_ltb, Z.ltb_lt in *. lia.
  - right. exists s. split; [|exact Hid].
    unfold Py.slice_from in *.
    destruct (Z.ltb_spec count2 0); [lia|]. destruct (Z.ltb_spec count1 0); [lia|].
    apply list_elem_of_lookup in Hs as [i Hi]. rewrite lookup_drop in Hi.
    apply list_elem_of_lookup.
    exists (Z.to_nat count2 + i - Z.to_nat count1)%nat. rewrite lookup_drop.
    replace (Z.to_nat count1 + (Z.to_nat count2 + i - Z.to_nat count1))%nat
      with (Z.to_nat count2 + i)%nat by lia.
    exact Hi.
Qed.

Lemma looser_policy_deletes_less_witness :
  exists D1 D2,
    deletion_set 3 1 (sorted_backups scenario1) (at_time noon) = (Ok D1, at_time noon) /\
    deletion_set 30 3 (sorted_backups scenario1) (at_time noon) = (Ok D2, at_time noon) /\
    D2 ⊆ D1.
Proof.
  apply (looser_policy_deletes_less 3 30 1 3 (sorted_backups scenario1) (at_time noon)); lia.
Defined.

(** *** The deletions sent to the provider *)

Definition delete_url (s : Snapshot) : string :=
  BASE_URL +:+ "/snapshots/" +:+ snap_id s.

Definition selected (to_delete : gset string) (s : Snapshot) : bool :=
  bool_decide (snap_id s ∈ to_delete).

(** The address of a deletion that the provider accepted. *)
Definition deleted_url (e : Event) : option string :=
  match e with
  | EvHttp m u _ out =>
      match response_body out with
      | Some _ => if String.eqb m "DELETE" then Some u else None
      | None => None
      end
  | _ => None
  end.

Definition deleted (evs : list Event) : list string := omap deleted_url evs.

Definition kind_url (url : string) (k : Kind) : option string :=
  match k with
  | KHttp out => match response_body out with Some _ => Some url | None => None end
  | KSleep _ => None
  end.

Lemma omap_cons {A B} (f : A -> option B) x l :
  omap f (x :: l) = match f x with Some y => y :: omap f l | None => omap f l end.
Proof. reflexivity. Qed.

Lemma deleted_kinds path json evs :
  calls_only "DELETE" path json evs ->
  deleted evs = omap (kind_url (BASE_URL +:+ path)) (kinds evs).
Proof.
  unfold deleted, kinds, calls_only. induction 1 as [|e evs He _ IH]; [reflexivity|].
  destruct e as [m u j out|s|l msg]; rewrite !omap_cons; cbn [kind_of deleted_url].
  - destruct He as (-> & -> & _). rewrite omap_cons, IH. cbn [kind_url].
    destruct (response_body out); reflexivity.
  - exact IH.
  - exact IH.
Qed.

Lemma served_ok_urls url n outs r :
  served n outs r -> forall b, r = Ok b ->
  forall a, omap (kind_url url) (schedule a outs) = [url].
Proof.
  induction 1 as [|n resp b0 Hs Hd|n resp Hc|n out outs r Hr Hrun IH]; intros b Hb a;
    try discriminate.
  - simpl. now rewrite Hs, Hd.
  - destruct outs as [|o outs']; [invert Hrun; discriminate|].
    change (schedule a (out :: o :: outs'))
      with (KHttp out :: KSleep (10 * a) :: schedule (a + 1) (o :: outs')).
    simpl. rewrite (retryable_no_body out Hr). apply (IH b Hb).
Qed.

Lemma deleted_app evs1 evs2 : deleted (evs1 ++ evs2) = deleted evs1 ++ deleted evs2.
Proof. unfold deleted. apply omap_app. Qed.

(** What [delete_selected] sends. *)
Definition deletes_of (backups : list Snapshot) (to_delete : gset string)
    (r : Result unit) (evs : list Event) : Prop :=
  (forall m u j out, EvHttp m u j out ∈ evs ->
     m = "DELETE" /\ j = NoPayload /\
     exists s, s ∈ backups /\ snap_id s ∈ to_delete /\ u = delete_url s) /\
  (r = Ok tt -> deleted evs = delete_url <$> List.filter (selected to_delete) backups).

Lemma request_delete_emits path :
  emits (_request "DELETE" path 3 NoPayload)
    (fun r evs =>
       calls_only "DELETE" path NoPayload evs /\
       (forall b, r = Ok b -> deleted evs = [BASE_URL +:+ path])).
Proof.
  intros w r w' H. apply _request_served in H as (evs & outs & Ht & Hc & Hk & Hs).
  exists evs. split; [exact Ht|]. split; [exact Hc|].
  intros b Hb. rewrite (deleted_kinds _ _ _ Hc), Hk. eapply served_ok_urls; eauto.
Qed.

Lemma delete_selected_emits backups to_delete :
  emits (delete_selected backups to_delete) (deletes_of backups to_delete).
Proof.
  induction backups as [|s rest IH]; simpl.
  - apply emits_ret. split; [intros m u j out H; inversion H | reflexivity].
  - eapply (emits_bind _ _ (deletes_of [s] to_delete)).
    + destruct (decide (snap_id s ∈ to_delete)) as [Hin|Hnot].
      * apply emits_log_then.
        eapply emits_bind; [apply request_delete_emits | |].
        -- intros b evs [Hc Hdel]. apply emits_ret. rewrite app_nil_r. split.
           ++ intros m u j out He. apply elem_of_cons in He as [He|He]; [discriminate|].
              destruct (calls_only_in _ _ _ _ _ _ _ _ Hc He) as (-> & -> & ->).
              repeat split; auto. exists s. split; [left|]. auto.
           ++ intros _. change (deleted (EvLog INFO "Pruning snapshot %s (%s) ..." :: evs))
                with (deleted evs).
              rewrite (Hdel b eq_refl). simpl. unfold selected.
              rewrite bool_decide_eq_true_2 by exact Hin. reflexivity.
        -- intros e evs [Hc _]. split; [|discriminate].
           intros m u j out He. apply elem_of_cons in He as [He|He]; [discriminate|].
           destruct (calls_only_in _ _ _ _ _ _ _ _ Hc He) as (-> & -> & ->).
           repeat split; auto. exists s. split; [left|]. auto.
      * apply emits_ret. split; [intros m u j out H; inversion H|].
        intros _. simpl. unfold selected. rewrite bool_decide_eq_false_2 by exact Hnot.
        reflexivity.
    + intros [] evs1 [H1 H1']. eapply emits_conseq; [exact IH|].
      intros r evs2 [H2 H2']. split.
      * intros m u j out He. apply elem_of_app in He as [He|He].
        -- destruct (H1 _ _ _ _ He) as (-> & -> & s' & Hs' & Hin & ->).
           apply list_elem_of_singleton in Hs' as ->.
           repeat split; auto. exists s. split; [left|]. auto.
        -- destruct (H2 _ _ _ _ He) as (-> & -> & s' & Hs' & Hin & ->).
           repeat split; auto. exists s'. split; [now right|]. auto.
      * intros Hr. rewrite deleted_app, (H1' eq_refl), (H2' Hr). simpl.
        destruct (selected to_delete s); reflexivity.
    + intros e evs1 [H1 _]. split; [|discriminate].
      intros m u j out He. destruct (H1 _ _ _ _ He) as (-> & -> & s' & Hs' & Hin & ->).
      apply list_elem_of_singleton in Hs' as ->.
      repeat split; auto. exists s. split; [left|]. auto.
Qed.

Lemma filter_none {A} (f : A -> bool) (l : list A) :
  (forall x, x ∈ l -> f x = false) -> List.filter f l = [].
Proof.
  induction l as [|a l IH]; intros H; [reflexivity|]. simpl.
  rewrite (H a) by left. apply IH. intros x Hx. apply H. now right.
Qed.

Lemma sorted_backups_elem s snaps :
  s ∈ sorted_backups snaps -> s ∈ snaps /\ is_backup s = true.
Proof.
  unfold sorted_backups. rewrite (sort_desc_perm snap_description). apply filter_elem_of.
Qed.

(** After its listing, [prune_old_snapshots] computes the deletion set of
    the backups listed and sends the deletions. *)
Lemma prune_old_snapshots_run retain_days max_count w data w1 r w' :
  _request "GET" "/snapshots" 3 NoPayload w = (Ok data, w1) ->
  prune_old_snapshots retain_days max_count w = (r, w') ->
  exists D evs,
    deletion_set retain_days max_count (sorted_backups (get_list (snapshots data))) w1
      = (Ok D, w1) /\
    trace w' = trace w1 ++ evs /\
    deletes_of (sorted_backups (get_list (snapshots data))) D r evs.
Proof.
  intros Hreq H. unfold prune_old_snapshots in H. rewrite bind_run, Hreq in H. cbv zeta in H.
  destruct (deletion_set_spec retain_days max_count
              (sorted_backups (get_list (snapshots data))) w1) as (D & Hrun & HD).
  exists D. unfold sorted_backups in *.
  destruct (List.filter is_backup (get_list (snapshots data))) as [|b bs] eqn:Hf.
  - mrun H. invert H. eexists. split; [exact Hrun|]. split; [reflexivity|].
    split; [|reflexivity].
    intros m u j out He. apply list_elem_of_singleton in He. discriminate.
  - rewrite bind_run, Hrun in H. destruct (decide (D = ∅)) as [->|Hne].
    + mrun H. invert H. eexists. split; [exact Hrun|]. split; [reflexivity|]. split.
      * intros m u j out He. apply list_elem_of_singleton in He. discriminate.
      * intros _. rewrite filter_none; [reflexivity|].
        intros s _. unfold selected. apply bool_decide_eq_false_2. set_solver.
    + rewrite bind_run in H.
      destruct (delete_selected (Py.sort_desc snap_description (b :: bs)) D w1)
        as [[[]|e] w2] eqn:Hdel;
        apply delete_selected_emits in Hdel as (evs & Ht & Hh & Hd).
      * mrun H. invert H. exists (evs ++ [EvLog INFO "Pruned %d snapshot(s)."]).
        split; [exact Hrun|]. split; [simpl; now rewrite Ht, app_assoc|]. split.
        -- intros m u j out He. apply elem_of_app in He as [He|He]; [eauto|].
           apply list_elem_of_singleton in He. discriminate.
        -- intros _. rewrite deleted_app, (Hd eq_refl). simpl. now rewrite app_nil_r.
      * invert H. exists evs. split; [exact Hrun|]. split; [exact Ht|].
        split; [exact Hh | discriminate].
Qed.

(** X17: Every call [prune_old_snapshots] makes after its listing is the
    DELETE of a snapshot of the listing whose description starts with the
    backup prefix and whose id is in the deletion set: snapshots that are
    not backups are never touched, nor is anything else. *)
Theorem prune_deletes_only_selected retain_days max_count w data w1 r w' :
  _request "GET" "/snapshots" 3 NoPayload w = (Ok data, w1) ->
  prune_old_snapshots retain_days max_count w = (r, w') ->
  exists D evs,
    deletion_set retain_days max_count (sorted_backups (get_list (snapshots data))) w1
      = (Ok D, w1) /\
    trace w' = trace w1 ++ evs /\
    forall m u j out, EvHttp m u j out ∈ evs ->
      m = "DELETE" /\ j = NoPayload /\
      exists s, s ∈ get_list (snapshots data) /\ is_backup s = true /\
                snap_id s ∈ D /\ u = BASE_URL +:+ "/snapshots/" +:+ snap_id s.
Proof.
  intros Hreq H.
  destruct (prune_old_snapshots_run _ _ _ _ _ _ _ Hreq H) as (D & evs & Hrun & Ht & Hh & _).
  exists D, evs. split; [exact Hrun|]. split; [exact Ht|].
  intros m u j out He. destruct (Hh _ _ _ _ He) as (-> & -> & s & Hs & Hin & ->).
  apply sorted_backups_elem in Hs as [Hs Hb]. repeat split; auto. exists s. auto.
Qed.

(** A listing with two snapshots that are not backups among the backups
    of scenario 1, and a provider that accepts every deletion. *)
Definition prune_world : World :=
  {| clock := noon;
     pending :=
       [ ok_exchange (snapshots_body
           ({| snap_id := "manual"; snap_description := "before upgrade";
               snap_status := "complete" |} :: scenario1));
         status_exchange 503; status_exchange 204; status_exchange 204 ];
     trace := [] |}.

Lemma prune_deletes_only_selected_witness :
  let w1 := snd (_request "GET" "/snapshots" 3 NoPayload prune_world) in
  let data := snapshots_body
                ({| snap_id := "manual"; snap_description := "before upgrade";
                    snap_status := "complete" |} :: scenario1) in
  let run := prune_old_snapshots 3 3 prune_world in
  exists D evs,
    deletion_set 3 3 (sorted_backups (get_list (snapshots data))) w1 = (Ok D, w1) /\
    trace (snd run) = trace w1 ++ evs /\
    forall m u j out, EvHttp m u j out ∈ evs ->
      m = "DELETE" /\ j = NoPayload /\
      exists s, s ∈ get_list (snapshots data) /\ is_backup s = true /\
                snap_id s ∈ D /\ u = BASE_URL +:+ "/snapshots/" +:+ snap_id s.
Proof.
  intros w1 data run.
  apply (prune_deletes_only_selected 3 3 prune_world data w1 (fst run) (snd run));
    vm_compute; reflexivity.
Defined.

(** X18: When [prune_old_snapshots] returns, the deletions the provider
    accepted are exactly those of the listed backups whose id is in the
    deletion set, each once, newest first. *)
Theorem prune_deletes_all_selected retain_days max_count w data w1 w' :
  _request "GET" "/snapshots" 3 NoPayload w = (Ok data, w1) ->
  prune_old_snapshots retain_days max_count w = (Ok tt, w') ->
  exists D evs,
    deletion_set retain_days max_count (sorted_backups (get_list (snapshots data))) w1
      = (Ok D, w1) /\
    trace w' = trace w1 ++ evs /\
    deleted evs =
      delete_url <$> List.filter (selected D) (sorted_backups (get_list (snapshots data))).
Proof.
  intros Hreq H.
  destruct (prune_old_snapshots_run _ _ _ _ _ _ _ Hreq H) as (D & evs & Hrun & Ht & _ & Hd).
  exists D, evs. auto.
Qed.

Lemma prune_deletes_all_selected_witness :
  let w1 := snd (_request "GET" "/snapshots" 3 NoPayload prune_world) in
  let data := snapshots_body
                ({| snap_id := "manual"; snap_description := "before upgrade";
                    snap_status := "complete" |} :: scenario1) in
  exists D evs,
    deletion_set 3 3 (sorted_backups (get_list (snapshots data))) w1 = (Ok D, w1) /\
    trace (snd (prune_old_snapshots 3 3 prune_world)) = trace w1 ++ evs /\
    deleted evs =
      delete_url <$> List.filter (selected D) (sorted_backups (get_list (snapshots data))).
Proof.
  intros w1 data.
  apply (prune_deletes_all_selected 3 3 prune_world data w1
           (snd (prune_old_snapshots 3 3 prune_world)));
    vm_compute; reflexivity.
Defined.

Example prune_world_deletions :
  deleted (trace (snd (prune_old_snapshots 3 3 prune_world))) =
    [ "https://api.vultr.com/v2/snapshots/D3"; "https://api.vultr.com/v2/snapshots/D4" ].
Proof. vm_compute. reflexivity. Qed.

(** ** Stopping *)

Lemma find_all_false {A} (f : A -> bool) (l : list A) :
  Forall (fun x => f x = false) l -> List.find f l = None.
Proof. induction 1 as [|x l Hx _ IH]; simpl; [reflexivity|]. now rewrite Hx. Qed.

(** X19: Without a labelled instance that is not dead in the listing,
    [action_stop] logs an error and exits: nothing is snapshotted,
    destroyed or pruned. *)
Theorem action_stop_without_instance cfg w data w1 :
  _request "GET" "/instances" 3 NoPayload w = (Ok data, w1) ->
  Forall (fun i => ~ (inst_label i = LABEL /\ inst_status i <> "dead"))
    (get_list (instances data)) ->
  action_stop cfg w =
    (Raise (SystemExit 1),
     {| clock := clock w1; pending := pending w1;
        trace := trace w1 ++ [EvLog ERROR "No running '%s' instance found."] |}).
Proof.
  intros Hreq Hnone. unfold action_stop, find_instance. rewrite !bind_run, Hreq.
  unfold mret, M_ret, ret. rewrite find_all_false; [reflexivity|].
  eapply Forall_impl; [exact Hnone|]. intros i Hi.
  destruct (is_managed i) eqn:Hm; [|reflexivity].
  apply is_managed_spec in Hm. contradiction.
Qed.

Definition dead_instance : Instance :=
  {| inst_id := "i-0"; inst_label := "Quant-Trading-Server"; inst_status := "dead";
     inst_power_status := "stopped"; inst_main_ip := "0.0.0.0" |}.

Definition other_instance : Instance :=
  {| inst_id := "i-7"; inst_label := "Web-Server"; inst_status := "active";
     inst_power_status := "running"; inst_main_ip := "203.0.113.9" |}.

Lemma action_stop_without_instance_witness :
  let w := {| clock := noon;
              pending := [ok_exchange (instances_body [dead_instance; other_instance])];
              trace := [] |} in
  let w1 := snd (_request "GET" "/instances" 3 NoPayload w) in
  action_stop witness_config w =
    (Raise (SystemExit 1),
     {| clock := clock w1; pending := pending w1;
        trace := trace w1 ++ [EvLog ERROR "No running '%s' instance found."] |}).
Proof.
  intros w w1.
  apply (action_stop_without_instance witness_config w
           (instances_body [dead_instance; other_instance]) w1).
  - vm_compute. reflexivity.
  - repeat constructor; intros [Hl Hs]; [apply Hs; reflexivity | discriminate].
Defined.

(** *** Snapshot first, destroy after *)

(** A call that destroys an instance. *)
Definition is_destroy (e : Event) : bool :=
  match e with
  | EvHttp m u _ _ =>
      String.eqb m "DELETE" && Py.startswith u (BASE_URL +:+ "/instances/")
  | _ => false
  end.

(** A poll of a snapshot answered with status "error". *)
Definition poll_error (e : Event) : bool :=
  match e with
  | EvHttp m u _ _ =>
      String.eqb m "GET" && Py.startswith u (BASE_URL +:+ "/snapshots/")
      && match observed_status e with
         | Some st => String.eqb st "error"
         | None => false
         end
  | _ => false
  end.

(** The call that created snapshot [sid] of instance [id]. *)
Definition snapshot_created (id sid : string) (e : Event) : Prop :=
  exists desc out b s,
    e = EvHttp "POST" (BASE_URL +:+ "/snapshots") (SnapshotPayload id desc) out /\
    response_body out = Some b /\ snapshot b = Some s /\ snap_id s = sid.

(** A poll of snapshot [sid] answered with status "complete". *)
Definition observed_complete (sid : string) (e : Event) : Prop :=
  (exists out, e = EvHttp "GET" (BASE_URL +:+ "/snapshots/" +:+ sid) NoPayload out) /\
  observed_status e = Some "complete".

(** The call that destroys instance [id]. *)
Definition destroys (id : string) (e : Event) : Prop :=
  exists out, e = EvHttp "DELETE" (BASE_URL +:+ "/instances/" +:+ id) NoPayload out.

Definition quiet (evs : list Event) : Prop := Forall (fun e => is_destroy e = false) evs.

(** Neither a destruction nor a poll that saw an error. *)
Definition plain (e : Event) : Prop := is_destroy e = false /\ poll_error e = false.

(** Steps 3 and 4 of [action_stop] and its last line. *)
Definition stop_tail (cfg : Config) (instance_id : string) : M unit :=
  destroy_instance instance_id;;
  try_except_Exception
    (prune_old_snapshots (SNAPSHOT_RETAIN_DAYS cfg) (SNAPSHOT_MAX_COUNT cfg))
    (fun exc => log WARNING "Snapshot pruning failed (non-fatal): %s");;
  log INFO "Stop sequence complete.".

(** Steps 1 to 4 of [action_stop]. *)
Definition stop_steps (cfg : Config) (instance_id : string) : M unit :=
  snap_id ← create_snapshot instance_id;
  wait_for_snapshot snap_id 3600;;
  stop_tail cfg instance_id.

Lemma action_stop_steps cfg :
  action_stop cfg =
  (inst ← find_instance;
   match inst with
   | None => log ERROR "No running '%s' instance found.";; raise (SystemExit 1)
   | Some inst => stop_steps cfg (inst_id inst)
   end).
Proof. reflexivity. Qed.

Lemma stop_tail_lawful C P cfg instance_id :
  lawful C P ->
  C "DELETE" ("/instances/" +:+ instance_id) NoPayload ->
  C "GET" "/snapshots" NoPayload ->
  (forall sid, C "DELETE" ("/snapshots/" +:+ sid) NoPayload) ->
  respects P (stop_tail cfg instance_id).
Proof.
  intros HL Hd Hl Hds. unfold stop_tail.
  lawful_step HL; [now apply (destroy_instance_lawful C P HL)|].
  lawful_step HL; [|lawful_step HL].
  apply (respects_try _ (law_seq _ _ HL)).
  - now apply (prune_old_snapshots_lawful C P HL).
  - apply (law_catch _ _ HL).
  - intros e _. lawful_step HL.
Qed.

(** What a stop has done to its instance, in order. *)
Definition stop_order (id : string) (r : Result unit) (evs : list Event) : Prop :=
  (forall pre e post, evs = pre ++ e :: post -> is_destroy e = true ->
     destroys id e /\
     exists sid p1 c p2 o p3,
       pre = p1 ++ c :: p2 ++ o :: p3 /\
       snapshot_created id sid c /\ observed_complete sid o) /\
  (forall e, e ∈ evs -> poll_error e = true -> r = Raise (SystemExit 1) /\ quiet evs).

Lemma plain_quiet evs : Forall plain evs -> quiet evs.
Proof. intros H. eapply Forall_impl; [exact H|]. intros e [He _]. exact He. Qed.

Lemma split_quiet (l1 l2 pre : list Event) e post :
  quiet l1 -> l1 ++ l2 = pre ++ e :: post -> is_destroy e = true ->
  exists pre2, pre = l1 ++ pre2 /\ l2 = pre2 ++ e :: post.
Proof.
  intros Hq Hs He. apply split_app in Hs as [(post1 & -> & ->)|H]; [|exact H].
  unfold quiet in Hq. rewrite Forall_app, Forall_cons in Hq.
  destruct Hq as (_ & Hq & _). congruence.
Qed.

Lemma stop_order_plain id r evs : Forall plain evs -> stop_order id r evs.
Proof.
  intros Hp. split.
  - intros pre e post -> He. rewrite Forall_app, Forall_cons in Hp.
    destruct Hp as (_ & [Hq _] & _). congruence.
  - intros e He Herr. rewrite Forall_forall in Hp.
    assert (Hpl : plain e) by first [exact (Hp e He) | apply Hp; now apply list_elem_of_In].
    destruct Hpl as [_ Hpl]. congruence.
Qed.

Lemma stop_order_after id r evs1 evs2 :
  Forall plain evs1 -> stop_order id r evs2 -> stop_order id r (evs1 ++ evs2).
Proof.
  intros Hp [HA HB]. pose proof (plain_quiet _ Hp) as Hq. split.
  - intros pre e post Hs He.
    destruct (split_quiet _ _ _ _ _ Hq Hs He) as (pre2 & -> & ->).
    destruct (HA _ _ _ eq_refl He) as (Hd & sid & p1 & c & p2 & o & p3 & -> & Hc & Ho).
    split; [exact Hd|]. exists sid, (evs1 ++ p1), c, p2, o, p3.
    split; [now rewrite app_assoc | auto].
  - intros e He Herr. apply elem_of_app in He as [He|He].
    + rewrite Forall_forall in Hp.
      assert (Hpl : plain e) by first [exact (Hp e He) | apply Hp; now apply list_elem_of_In].
      destruct Hpl as [_ Hpl]. congruence.
    + destruct (HB e He Herr) as [-> Hq2]. split; [reflexivity|].
      apply Forall_app. split; assumption.
Qed.

(** The listing of the instances is plain. *)
Lemma find_instance_plain :
  emits find_instance (fun _ evs => Forall plain evs).
Proof.
  apply (find_instance_lawful
           (fun m p j => m = "GET" /\ p = "/instances") (every plain)).
  - apply every_lawful; try (intros; split; reflexivity).
    intros m p j out [-> ->]. split; reflexivity.
  - auto.
Qed.

(** The trace of [create_snapshot]. *)
Lemma create_snapshot_shape instance_id w r w' :
  create_snapshot instance_id w = (r, w') ->
  exists desc out rest,
    trace w' =
      trace w ++
        EvLog INFO "Creating snapshot '%s' for instance %s ..." ::
        EvHttp "POST" (BASE_URL +:+ "/snapshots") (SnapshotPayload instance_id desc) out
        :: rest /\
    Forall (fun e => is_http e = false) rest /\
    match response_body out with
    | Some b =>
        match snapshot b with
        | Some s => r = Ok (snap_id s)
        | None => r = Raise (KeyError "snapshot")
        end
    | None => r = Raise (SystemExit 1)
    end.
Proof.
  intros H. unfold create_snapshot in H. rewrite bind_run in H.
  unfold utcnow in H. cbn beta iota zeta in H.
  rewrite bind_run in H. unfold log at 1, emit in H. cbn beta iota in H.
  rewrite bind_run in H.
  match type of H with
  | context [_request ?mth ?p ?rt (SnapshotPayload _ ?dsc) ?w0] =>
      destruct (_request mth p rt (SnapshotPayload instance_id dsc) w0) as [rq w1] eqn:Hreq;
      exists dsc
  end.
  apply request_post_shape in Hreq as (out & rest & Ht & Hchat & Hres). simpl in Ht.
  exists out.
  destruct (response_body out) as [b|] eqn:Hb.
  - destruct Hres as [-> ->]. cbn beta iota in H.
    destruct (snapshot b) as [s|] eqn:Hs; simpl in H.
    + mrun H. invert H. exists [EvLog INFO "Snapshot %s queued."].
      split; [simpl; rewrite Ht, <- !app_assoc; reflexivity|].
      split; [repeat constructor | reflexivity].
    + invert H. exists [].
      split; [rewrite Ht, <- !app_assoc; reflexivity|]. split; [constructor | reflexivity].
  - subst rq. invert H. exists rest.
    split; [rewrite Ht, <- !app_assoc; reflexivity|]. split; [exact Hchat | reflexivity].
Qed.

Lemma chatter_plain evs : Forall (fun e => is_http e = false) evs -> Forall plain evs.
Proof.
  intros Hall. eapply Forall_impl; [exact Hall|].
  intros [m u j o|s|l msg] H; [discriminate | split; reflexivity..].
Qed.

Lemma create_snapshot_emits instance_id :
  emits (create_snapshot instance_id)
    (fun r evs =>
       Forall plain evs /\
       forall sid, r = Ok sid -> exists c, c ∈ evs /\ snapshot_created instance_id sid c).
Proof.
  intros w r w' H.
  apply create_snapshot_shape in H as (desc & out & rest & Ht & Hchat & Hres).
  eexists. split; [exact Ht|]. split.
  - constructor; [split; reflexivity|]. constructor; [split; reflexivity|].
    now apply chatter_plain.
  - intros sid ->. destruct (response_body out) as [b|] eqn:Hb; [|discriminate].
    destruct (snapshot b) as [s|] eqn:Hs; [|discriminate]. invert Hres.
    eexists. split; [right; left|]. exists desc, out, b, s. auto.
Qed.

(** What the wait contributes to the order. *)
Lemma wait_for_snapshot_emits sid timeout :
  emits (wait_for_snapshot sid timeout)
    (fun r evs =>
       quiet evs /\
       (r = Ok tt -> exists o, o ∈ evs /\ observed_complete sid o) /\
       (forall e, e ∈ evs -> poll_error e = true -> r = Raise (SystemExit 1))).
Proof.
  eapply emits_conseq; [apply wait_for_snapshot_round|].
  intros r evs (Hc & H1 & _ & H3 & _). split; [|split].
  - unfold quiet. eapply Forall_impl; [exact Hc|].
    intros [m u j o|s|l msg] He; simpl; auto. destruct He as (-> & _). reflexivity.
  - intros Hr. destruct (H1 Hr) as (e & He & Hs). exists e. split; [exact He|].
    split; [|exact Hs]. destruct e as [m u j out|s|l msg]; try discriminate.
    destruct (calls_only_in _ _ _ _ _ _ _ _ Hc He) as (-> & -> & ->). eauto.
  - intros e He Herr. apply (H3 e He).
    destruct e as [m u j out|s|l msg]; try discriminate. simpl in Herr.
    apply andb_prop in Herr as [_ Herr].
    destruct (observed_status (EvHttp m u j out)) as [st|]; [|discriminate].
    apply String.eqb_eq in Herr. now subst st.
Qed.

(** After the wait, the only destruction is that of the instance, and no
    snapshot is polled. *)
Lemma stop_tail_emits cfg instance_id :
  emits (stop_tail cfg instance_id)
    (fun _ evs =>
       Forall (fun e => (is_destroy e = true -> destroys instance_id e) /\
                        poll_error e = false) evs).
Proof.
  apply (stop_tail_lawful
           (fun m p j =>
              j = NoPayload /\
              ((m = "DELETE" /\ p = "/instances/" +:+ instance_id) \/
               (m = "GET" /\ p = "/snapshots") \/
               (m = "DELETE" /\ exists sid, p = "/snapshots/" +:+ sid)))
           (every (fun e => (is_destroy e = true -> destroys instance_id e) /\
                            poll_error e = false))).
  - apply every_lawful; try (intros; split; [discriminate | reflexivity]).
    intros m p j out (-> & [[-> ->]|[[-> ->]|[-> [sid ->]]]]).
    + split; [intros _; exists out; reflexivity | reflexivity].
    + split; [discriminate | reflexivity].
    + split; [|reflexivity]. simpl. discriminate.
  - auto.
  - auto.
  - intros sid. split; [reflexivity|]. right. right. eauto.
Qed.

Lemma stop_steps_order cfg instance_id :
  emits (stop_steps cfg instance_id) (stop_order instance_id).
Proof.
  unfold stop_steps.
  eapply emits_bind; [apply create_snapshot_emits | |].
  - intros sid evs2 [Hp2 Hc]. destruct (Hc sid eq_refl) as (c & Hcin & Hcreated).
    eapply emits_bind; [apply wait_for_snapshot_emits | |].
    + intros [] evs3 (Hq3 & Ho & Herr3). destruct (Ho eq_refl) as (o & Hoin & Hcomplete).
      eapply emits_conseq; [apply stop_tail_emits|].
      intros r evs4 H4. split.
      * intros pre e post Hs He.
        pose proof (plain_quiet _ Hp2) as Hq2.
        destruct (split_quiet _ _ _ _ _ Hq2 Hs He) as (pre2 & -> & Hs2).
        destruct (split_quiet _ _ _ _ _ Hq3 Hs2 He) as (pre3 & -> & ->).
        rewrite Forall_app, Forall_cons in H4. destruct H4 as (_ & [Hd _] & _).
        split; [exact (Hd He)|].
        apply list_elem_of_split in Hcin as (a & b & ->).
        apply list_elem_of_split in Hoin as (a' & b' & ->).
        exists sid, a, c, (b ++ a'), o, (b' ++ pre3).
        split; [|auto]. now rewrite <- !app_assoc.
      * intros e He Hpe. exfalso.
        apply elem_of_app in He as [He|He].
        -- rewrite Forall_forall in Hp2.
           assert (Hpl : plain e)
             by first [exact (Hp2 e He) | apply Hp2; now apply list_elem_of_In].
           destruct Hpl as [_ Hpl]. congruence.
        -- apply elem_of_app in He as [He|He].
           ++ specialize (Herr3 e He Hpe). discriminate.
           ++ rewrite Forall_forall in H4.
              assert (Hpl : poll_error e = false)
                by first [exact (proj2 (H4 e He))
                         | apply H4; now apply list_elem_of_In].
              congruence.
    + intros x evs3 (Hq3 & _ & Herr3). apply stop_order_after; [exact Hp2|]. split.
      * intros pre e post -> He. unfold quiet in Hq3.
        rewrite Forall_app, Forall_cons in Hq3. destruct Hq3 as (_ & Hq & _). congruence.
      * intros e He Hpe. split; [exact (Herr3 e He Hpe) | exact Hq3].
  - intros x evs2 [Hp2 _]. now apply stop_order_plain.
Qed.

Lemma action_stop_order cfg :
  emits (action_stop cfg) (fun r evs => exists id, stop_order id r evs).
Proof.
  rewrite action_stop_steps.
  eapply emits_bind; [apply find_instance_plain | |].
  - intros [inst|] evs1 Hp1.
    + eapply emits_conseq; [apply stop_steps_order|].
      intros r0 evs2 Ho. exists (inst_id inst). now apply stop_order_after.
    + intros w0 r0 w0' H0. mrun H0. invert H0. eexists. split; [reflexivity|].
      exists "". apply stop_order_plain. apply Forall_app. split; [exact Hp1|].
      repeat constructor.
  - intros x evs1 Hp1. exists "". now apply stop_order_plain.
Qed.

(** X20: In every run of [action_stop], a call that destroys an instance
    destroys the instance that was found, and comes after the call that
    created a snapshot of that very instance and, later, a poll of that
    snapshot answered with status "complete".  And when a poll of the
    snapshot is answered with status "error", the run ends in
    [SystemExit(1)] without any call that destroys an instance. *)
Theorem stop_snapshots_before_destroying cfg w r w' :
  action_stop cfg w = (r, w') ->
  exists evs,
    trace w' = trace w ++ evs /\
    (forall pre e post, evs = pre ++ e :: post -> is_destroy e = true ->
       exists id sid p1 c p2 o p3,
         destroys id e /\
         pre = p1 ++ c :: p2 ++ o :: p3 /\
         snapshot_created id sid c /\ observed_complete sid o) /\
    (forall e, e ∈ evs -> poll_error e = true ->
       r = Raise (SystemExit 1) /\ Forall (fun e' => is_destroy e' = false) evs).
Proof.
  intros H.
  destruct (action_stop_order cfg _ _ _ H) as (evs & Ht & id & HA & HB).
  exists evs. split; [exact Ht|]. split; [|exact HB].
  intros pre e post Hs He.
  destruct (HA _ _ _ Hs He) as (Hd & sid & p1 & c & p2 & o & p3 & Hpre & Hc & Ho).
  exists id, sid, p1, c, p2, o, p3. auto.
Qed.

Lemma stop_snapshots_before_destroying_witness :
  let w := stop_world [ok_exchange (snapshots_body [])] in
  let run := action_stop witness_config w in
  exists evs,
    trace (snd run) = trace w ++ evs /\
    (forall pre e post, evs = pre ++ e :: post -> is_destroy e = true ->
       exists id sid p1 c p2 o p3,
         destroys id e /\
         pre = p1 ++ c :: p2 ++ o :: p3 /\
         snapshot_created id sid c /\ observed_complete sid o) /\
    (forall e, e ∈ evs -> poll_error e = true ->
       fst run = Raise (SystemExit 1) /\ Forall (fun e' => is_destroy e' = false) evs).
Proof.
  intros w run.
  apply (stop_snapshots_before_destroying witness_config w (fst run) (snd run)).
  vm_compute. reflexivity.
Defined.

(** *** The deadline *)

(** The line [wait_for_snapshot] logs when its deadline has passed. *)
Definition gave_up (e : Event) : bool :=
  match e with
  | EvLog ERROR msg => String.eqb msg "Snapshot %s did not complete within %ds"
  | _ => false
  end.

(** The two ways the snapshot can fail to complete: a poll answered with
    status "error", and the deadline. *)
Definition snapshot_failed (e : Event) : bool := poll_error e || gave_up e.

Definition tame (e : Event) : Prop := gave_up e = false.

Lemma every_sequential Φ : sequential (every Φ).
Proof.
  split; [constructor | intros x evs1 evs2 H1 H2; apply Forall_app; auto].
Qed.

Lemma request_tame method path retries json :
  respects (every tame) (_request method path retries json).
Proof.
  apply request_respects; [apply every_sequential|].
  split; unfold every; intros; repeat constructor.
Qed.

(** One step through a fragment none of whose own log lines is that of
    the deadline. *)
Ltac tame_step :=
  lazymatch goal with
  | |- respects _ (_ ≫= _) =>
      apply (respects_bind _ (every_sequential tame)); [|intros ?]
  | |- respects _ (mret _) => apply (respects_ret _ (every_sequential tame))
  | |- respects _ (log _ _) => apply respects_log; repeat constructor
  | |- respects _ (subscript _ _) =>
      apply (respects_subscript _ (every_sequential tame)); constructor
  | |- respects _ (_request _ _ _ _) => apply request_tame
  | |- respects _ utcnow => apply (respects_utcnow _ (every_sequential tame))
  | |- respects _ (let _ := _ in _) => cbv zeta
  | |- respects _ (if ?c then _ else _) => destruct c
  | |- respects _ (match ?x with _ => _ end) => destruct x
  end.

Lemma find_instance_tame : respects (every tame) find_instance.
Proof. unfold find_instance. repeat tame_step. Qed.

Lemma create_snapshot_tame instance_id :
  respects (every tame) (create_snapshot instance_id).
Proof. unfold create_snapshot. repeat tame_step. Qed.

Lemma destroy_instance_tame instance_id :
  respects (every tame) (destroy_instance instance_id).
Proof. unfold destroy_instance. repeat tame_step. Qed.

Lemma delete_selected_tame backups to_delete :
  respects (every tame) (delete_selected backups to_delete).
Proof.
  induction backups as [|s rest IH]; simpl; [tame_step|].
  tame_step; [repeat tame_step | exact IH].
Qed.

Lemma prune_old_snapshots_tame retain_days max_count :
  respects (every tame) (prune_old_snapshots retain_days max_count).
Proof.
  unfold prune_old_snapshots. tame_step; [tame_step|]. cbv zeta.
  destruct (List.filter is_backup (get_list (snapshots a))) as [|b bs]; [tame_step|].
  tame_step.
  { apply (respects_silent _ (every_sequential tame)). intros w0.
    destruct (deletion_set_spec retain_days max_count
                (Py.sort_desc snap_description (b :: bs)) w0) as (D & HD & _).
    eauto. }
  destruct (decide (a0 = ∅)); repeat tame_step.
  apply delete_selected_tame.
Qed.

Lemma stop_tail_tame cfg instance_id :
  respects (every tame) (stop_tail cfg instance_id).
Proof.
  unfold stop_tail. tame_step; [apply destroy_instance_tame|].
  tame_step; [|tame_step].
  apply (respects_try _ (every_sequential tame)).
  - apply prune_old_snapshots_tame.
  - intros e evs _ H. exact H.
  - intros e _. tame_step.
Qed.

(** The deadline's line comes with the fatal exit of the wait. *)
Lemma wait_for_snapshot_gave_up sid timeout :
  emits (wait_for_snapshot sid timeout)
    (fun r evs => forall e, e ∈ evs -> gave_up e = true -> r = Raise (SystemExit 1)).
Proof.
  eapply emits_conseq;
    [apply (wait_for_snapshot_lawful _ _ fatal_logged_lawful sid timeout I)|].
  intros r evs [Hfatal _] e He Hg.
  apply list_elem_of_split in He as (pre & post & ->).
  assert (Herr : is_error e = true)
    by (destruct e as [m u j o|s|[] msg]; try discriminate; reflexivity).
  destruct (Hfatal _ _ _ eq_refl Herr) as [Hx _].
  destruct r as [[]|x]; [discriminate|]. simpl in Hx. congruence.
Qed.

(** What a run owes to the deadline: once its line is logged the run is
    over, and nothing was destroyed. *)
Definition on_time (r : Result unit) (evs : list Event) : Prop :=
  forall e, e ∈ evs -> gave_up e = true -> r = Raise (SystemExit 1) /\ quiet evs.

Lemma tame_in evs e : Forall tame evs -> e ∈ evs -> gave_up e = true -> False.
Proof.
  intros Hall He Hg. rewrite Forall_forall in Hall.
  assert (Ht : tame e) by first [exact (Hall e He) | apply Hall; now apply list_elem_of_In].
  unfold tame in Ht. congruence.
Qed.

Lemma stop_steps_on_time cfg instance_id :
  emits (stop_steps cfg instance_id) on_time.
Proof.
  unfold stop_steps.
  eapply emits_bind;
    [apply (emits_and _ _ _ (create_snapshot_emits instance_id)
              (create_snapshot_tame instance_id)) | |].
  - intros sid evs2 [[Hp2 _] Ht2].
    eapply emits_bind;
      [apply (emits_and _ _ _ (wait_for_snapshot_emits sid 3600)
                (wait_for_snapshot_gave_up sid 3600)) | |].
    + intros [] evs3 [(Hq3 & _ & _) Hg3].
      eapply emits_conseq; [apply stop_tail_tame|].
      intros r evs4 Ht4 e He Hg. exfalso.
      apply elem_of_app in He as [He|He]; [exact (tame_in _ _ Ht2 He Hg)|].
      apply elem_of_app in He as [He|He]; [|exact (tame_in _ _ Ht4 He Hg)].
      specialize (Hg3 e He Hg). discriminate.
    + intros x evs3 [(Hq3 & _ & _) Hg3] e He Hg.
      apply elem_of_app in He as [He|He]; [destruct (tame_in _ _ Ht2 He Hg)|].
      split; [exact (Hg3 e He Hg)|].
      apply Forall_app. split; [now apply plain_quiet | exact Hq3].
  - intros x evs2 [[Hp2 _] Ht2] e He Hg. destruct (tame_in _ _ Ht2 He Hg).
Qed.

Lemma action_stop_on_time cfg : emits (action_stop cfg) on_time.
Proof.
  rewrite action_stop_steps.
  eapply emits_bind;
    [apply (emits_and _ _ _ find_instance_plain find_instance_tame) | |].
  - intros [inst|] evs1 [Hp1 Ht1].
    + eapply emits_conseq; [apply stop_steps_on_time|].
      intros r evs2 Hon e He Hg.
      apply elem_of_app in He as [He|He]; [destruct (tame_in _ _ Ht1 He Hg)|].
      destruct (Hon e He Hg) as [-> Hq]. split; [reflexivity|].
      apply Forall_app. split; [now apply plain_quiet | exact Hq].
    + intros w0 r0 w0' H0. mrun H0. invert H0. eexists. split; [reflexivity|].
      intros e He Hg. exfalso.
      apply elem_of_app in He as [He|He]; [exact (tame_in _ _ Ht1 He Hg)|].
      apply list_elem_of_singleton in He as ->. discriminate.
  - intros x evs1 [Hp1 Ht1] e He Hg. destruct (tame_in _ _ Ht1 He Hg).
Qed.

(** C1: in every run of [action_stop], a call that destroys an instance
    comes after the call that created the snapshot of that instance and,
    later, a poll of that snapshot answered with status "complete": the
    destruction is reached only when the wait has seen the snapshot
    complete.  When a poll of the snapshot is answered with status "error",
    or the deadline of the wait passes, the run ends in [SystemExit(1)] and
    no call that destroys an instance was made. *)
Theorem action_stop_destroy_after_complete cfg w r w' :
  action_stop cfg w = (r, w') ->
  exists evs,
    trace w' = trace w ++ evs /\
    (forall pre e post, evs = pre ++ e :: post -> is_destroy e = true ->
       exists id sid p1 c p2 o p3,
         destroys id e /\
         pre = p1 ++ c :: p2 ++ o :: p3 /\
         snapshot_created id sid c /\ observed_complete sid o) /\
    (forall e, e ∈ evs -> snapshot_failed e = true ->
       r = Raise (SystemExit 1) /\ Forall (fun e' => is_destroy e' = false) evs).
Proof.
  intros H.
  destruct (emits_and _ _ _ (action_stop_order cfg) (action_stop_on_time cfg) _ _ _ H)
    as (evs & Ht & (id & HA & HB) & Hon).
  exists evs. split; [exact Ht|]. split.
  - intros pre e post Hs He.
    destruct (HA _ _ _ Hs He) as (Hd & sid & p1 & c & p2 & o & p3 & Hpre & Hc & Ho).
    exists id, sid, p1, c, p2, o, p3. auto.
  - intros e He Hf. apply orb_prop in Hf as [Hf|Hf]; [exact (HB e He Hf) | exact (Hon e He Hf)].
Qed.

(** A stop run whose snapshot is still pending when an hour has passed:
    the answer to the second poll arrives after the deadline. *)
Definition slow_world : World :=
  {| clock := noon;
     pending :=
       [ ok_exchange (instances_body [live_instance]);
         ok_exchange (snapshot_body
           {| snap_id := "snap-9"; snap_description := "Quant-Backup-20240105";
              snap_status := "pending" |});
         ok_exchange (snapshot_body
           {| snap_id := "snap-9"; snap_description := "Quant-Backup-20240105";
              snap_status := "pending" |});
         {| latency := 3600000000;
            outcome := Responded
              {| status_code := 200;
                 content := Json (snapshot_body
                   {| snap_id := "snap-9"; snap_description := "Quant-Backup-20240105";
                      snap_status := "pending" |}) |} |} ];
     trace := [] |}.

Example slow_world_gives_up :
  let run := action_stop witness_config slow_world in
  fst run = Raise (SystemExit 1) /\
  last (trace (snd run)) = Some (EvLog ERROR "Snapshot %s did not complete within %ds") /\
  List.filter is_destroy (trace (snd run)) = [].
Proof. vm_compute. repeat split; reflexivity. Qed.

Lemma action_stop_destroy_after_complete_witness :
  let run := action_stop witness_config slow_world in
  exists evs,
    trace (snd run) = trace slow_world ++ evs /\
    (forall pre e post, evs = pre ++ e :: post -> is_destroy e = true ->
       exists id sid p1 c p2 o p3,
         destroys id e /\
         pre = p1 ++ c :: p2 ++ o :: p3 /\
         snapshot_created id sid c /\ observed_complete sid o) /\
    (forall e, e ∈ evs -> snapshot_failed e = true ->
       fst run = Raise (SystemExit 1) /\ Forall (fun e' => is_destroy e' = false) evs).
Proof.
  intros run.
  apply (action_stop_destroy_after_complete witness_config slow_world (fst run) (snd run)).
  vm_compute. reflexivity.
Defined.

(** ** What each action never sends *)

(** The calls [action_start] may send: reads, and the creation of an
    instance from the configuration. *)
Definition start_call (cfg : Config) (e : Event) : Prop :=
  match e with
  | EvHttp m u j _ =>
      (m = "GET" /\ j = NoPayload) \/
      (m = "POST" /\ u = BASE_URL +:+ "/instances" /\
       exists sid, j = InstancePayload (REGION cfg) (PLAN cfg) sid LABEL "disabled"
                         (user_data cfg))
  | _ => True
  end.

(** The calls [action_stop] may send: reads, the creation of a snapshot,
    the destruction of an instance and the deletion of a snapshot. *)
Definition stop_call (e : Event) : Prop :=
  match e with
  | EvHttp m u j _ =>
      (m = "GET" /\ j = NoPayload) \/
      (m = "POST" /\ u = BASE_URL +:+ "/snapshots" /\
       exists id desc, j = SnapshotPayload id desc) \/
      (m = "DELETE" /\ j = NoPayload /\
       ((exists id, u = BASE_URL +:+ "/instances/" +:+ id) \/
        (exists sid, u = BASE_URL +:+ "/snapshots/" +:+ sid)))
  | _ => True
  end.

(** X21: [action_start] never sends a DELETE: whatever the provider answers, it
    only reads and, at most, creates an instance with the configured
    region, plan, label and boot payload. *)
Theorem action_start_never_deletes cfg w r w' :
  action_start cfg w = (r, w') ->
  exists evs, trace w' = trace w ++ evs /\ Forall (start_call cfg) evs.
Proof.
  apply (action_start_lawful
           (fun m p j => start_call cfg (EvHttp m (BASE_URL +:+ p) j RequestException))
           (every (start_call cfg))).
  - apply every_lawful; simpl; auto.
  - left. auto.
  - left. auto.
  - intros sid. right. eauto.
  - intros id. left. auto.
Qed.

Lemma action_start_never_deletes_witness :
  let w := {| clock := noon;
              pending := ok_exchange (instances_body [dead_instance]) :: pending create_world;
              trace := [] |} in
  let run := action_start witness_config w in
  exists evs, trace (snd run) = trace w ++ evs /\ Forall (start_call witness_config) evs.
Proof.
  intros w run.
  apply (action_start_never_deletes witness_config w (fst run) (snd run)).
  vm_compute. reflexivity.
Defined.

(** X22: [action_stop] never creates an instance: its only POST creates a
    snapshot, and its DELETEs destroy an instance or delete a snapshot. *)
Theorem action_stop_never_creates_instance cfg w r w' :
  action_stop cfg w = (r, w') ->
  exists evs, trace w' = trace w ++ evs /\ Forall stop_call evs.
Proof.
  apply (action_stop_lawful
           (fun m p j => stop_call (EvHttp m (BASE_URL +:+ p) j RequestException))
           (every stop_call)).
  - apply every_lawful; simpl; auto.
  - left. auto.
  - intros id desc. right. left. eauto.
  - intros sid. left. auto.
  - intros id. right. right. eauto 6.
  - left. auto.
  - intros sid. right. right. eauto 6.
Qed.

Lemma action_stop_never_creates_instance_witness :
  let w := stop_world [ok_exchange (snapshots_body scenario1); status_exchange 204;
                       status_exchange 204] in
  let run := action_stop witness_config w in
  exists evs, trace (snd run) = trace w ++ evs /\ Forall stop_call evs.
Proof.
  intros w run.
  apply (action_stop_never_creates_instance witness_config w (fst run) (snd run)).
  vm_compute. reflexivity.
Defined.

(** ** What a successful start has seen *)

(** Membership in a trace built by appending. *)
Ltac in_trace :=
  repeat first
    [ assumption
    | apply elem_of_app; left; assumption
    | apply elem_of_cons; left; reflexivity
    | apply elem_of_app; right
    | apply elem_of_cons; right ].






(** ** Destroying the instance *)

(** X24: [destroy_instance] sends only DELETE calls for the instance it was
    given, three at most, without polling for the outcome; it returns, and
    logs that the instance is destroyed, exactly when one of them was
    accepted, and exits fatally otherwise. *)
Theorem destroy_instance_outcome instance_id w r w' :
  destroy_instance instance_id w = (r, w') ->
  exists evs,
    trace w' = trace w ++ evs /\
    calls_only "DELETE" ("/instances/" +:+ instance_id) NoPayload evs /\
    (attempts evs <= 3)%nat /\
    (r = Ok tt <-> EvLog INFO "Instance %s destroyed." ∈ evs) /\
    (r = Ok tt <-> exists e b, e ∈ evs /\ observed e = Some b) /\
    (r <> Ok tt -> r = Raise (SystemExit 1)).
Proof.
  intros H. unfold destroy_instance in H. rewrite bind_run in H.
  unfold log at 1, emit in H. cbn beta iota in H. rewrite bind_run in H.
  match type of H with
  | context [_request ?mth ?p ?rt ?j ?w0] =>
      destruct (_request mth p rt j w0) as [[b|x] w1] eqn:Hreq
  end.
  - pose proof (request_pace _ _ _ _ _ _ Hreq) as (evs' & Ht' & Ha & _).
    apply request_observed in Hreq as (evs & Ht & Hc & Hok & _).
    assert (evs' = evs) by (apply (app_inv_head (trace w ++ [EvLog INFO "Destroying instance %s ..."]));
                            simpl in *; congruence). subst evs'.
    mrun H. invert H.
    exists (EvLog INFO "Destroying instance %s ..." :: evs ++ [EvLog INFO "Instance %s destroyed."]).
    simpl in Ht. split; [simpl; rewrite Ht, <- !app_assoc; reflexivity|].
    split; [constructor; [exact I|]; apply calls_only_app; [exact Hc | repeat constructor]|].
    split; [change (attempts (?e :: ?l)) with (attempts l); rewrite attempts_app;
            unfold attempts in *; simpl; lia|].
    split; [split; [intros _; in_trace | reflexivity]|].
    split; [|congruence].
    split; [|reflexivity]. intros _. destruct (Hok b eq_refl) as (e & He & Hb).
    exists e, b. split; [in_trace | exact Hb].
  - pose proof (request_pace _ _ _ _ _ _ Hreq) as (evs' & Ht' & Ha & _).
    apply request_facts in Hreq as (evs & Ht & Hc & Hlog & _ & Hbody & Hx).
    assert (evs' = evs) by (apply (app_inv_head (trace w ++ [EvLog INFO "Destroying instance %s ..."]));
                            simpl in *; congruence). subst evs'.
    specialize (Hx x eq_refl). subst x. invert H.
    exists (EvLog INFO "Destroying instance %s ..." :: evs).
    simpl in Ht. split; [rewrite Ht, <- !app_assoc; reflexivity|].
    split; [constructor; [exact I | exact Hc]|].
    split; [exact Ha|].
    split; [split; [discriminate|]|].
    { intros Hin. apply elem_of_cons in Hin as [Hin|Hin]; [discriminate|].
      rewrite Forall_forall in Hlog.
      assert (Hl : req_log (EvLog INFO "Instance %s destroyed.") = true)
        by first [exact (Hlog _ Hin) | apply Hlog; now apply list_elem_of_In].
      discriminate. }
    split; [|reflexivity].
    split; [discriminate|]. intros (e & b & He & Hb).
    apply elem_of_cons in He as [->|He]; [discriminate|].
    destruct e as [m u j out|s|l msg]; try discriminate.
    specialize (Hbody _ _ _ _ _ He Hb). discriminate.
Qed.

Lemma destroy_instance_outcome_witness :
  let w := {| clock := noon; pending := [status_exchange 503; status_exchange 204];
              trace := [] |} in
  let run := destroy_instance "i-1" w in
  exists evs,
    trace (snd run) = trace w ++ evs /\
    calls_only "DELETE" ("/instances/" +:+ "i-1") NoPayload evs /\
    (attempts evs <= 3)%nat /\
    (fst run = Ok tt <-> EvLog INFO "Instance %s destroyed." ∈ evs) /\
    (fst run = Ok tt <-> exists e b, e ∈ evs /\ observed e = Some b) /\
    (fst run <> Ok tt -> fst run = Raise (SystemExit 1)).
Proof.
  intros w run.
  apply (destroy_instance_outcome "i-1" w (fst run) (snd run)).
  vm_compute. reflexivity.
Defined.
